(** * OrpheusReader: the text chunker and the audio concatenator

    A shallow embedding of the two algorithmic parts of the repository,
    [TextChunker] (backend/utils/chunker.js) and [AudioProcessor]
    (backend/utils/audioProcessor.js), with the properties the specification
    states about them.

    - [JS]: strings as sequences of UTF-16 code units, [trim], and
      [String.prototype.split] for the three regular expressions of the chunker.
    - [TextChunker]: the class, method by method.
    - [AudioProcessor]: the asynchronous methods in a state-and-exception monad
      over a file system, a clock and the external [ffmpeg] tool. *)

From Stdlib.Strings Require Import String Ascii Byte.
From Stdlib Require Import List Arith NArith Bool Lia.
Import ListNotations.

(* ================================================================= *)
(** ** JavaScript strings *)

Module JS.

(** A string is its sequence of UTF-16 code units; [length] is [s.length]. *)
Definition char := N.
Definition text := list char.

Definition LF : char := 10%N.
Definition SP : char := 32%N.

(** The code units of a literal whose characters are below U+0100. *)
Definition lit (s : string) : text :=
  map (fun a => N_of_ascii a) (list_ascii_of_string s).

(** [\s] of a regular expression without the [u] flag, which is also the set
    [String.prototype.trim] strips: WhiteSpace and LineTerminator. *)
Definition isWhiteSpace (c : char) : bool :=
  ((9 <=? c) && (c <=? 13) || (c =? 32) || (c =? 160) || (c =? 5760)
   || (8192 <=? c) && (c <=? 8202) || (c =? 8232) || (c =? 8233)
   || (c =? 8239) || (c =? 8287) || (c =? 12288) || (c =? 65279))%N.

(** [[A-Z]] *)
Definition isUpper (c : char) : bool := ((65 <=? c) && (c <=? 90))%N.

(** [[.!?]] *)
Definition isTerminator (c : char) : bool :=
  ((c =? 46) || (c =? 33) || (c =? 63))%N.

(** The class of the double and the single quote. *)
Definition isQuote (c : char) : bool := ((c =? 34) || (c =? 39))%N.

Fixpoint trimStart (s : text) : text :=
  match s with
  | c :: s' => if isWhiteSpace c then trimStart s' else s
  | [] => []
  end.

Definition trimEnd (s : text) : text := rev (trimStart (rev s)).

(** [s.trim()] *)
Definition trim (s : text) : text := trimEnd (trimStart s).

(** [s.slice(i, j)] for [0 <= i <= j]; [j] beyond the end is clamped. *)
Definition slice (s : text) (i j : nat) : text := firstn (j - i) (skipn i s).

(** Length of the longest run of white space [s] starts with. *)
Fixpoint spaces (s : text) : nat :=
  match s with
  | c :: s' => if isWhiteSpace c then S (spaces s') else 0
  | [] => 0
  end.

(** *** [String.prototype.split] with a regular expression

    A [matcher] says whether the expression matches at a position, given the
    text before the position (nearest unit first, for look-behind) and the
    text from the position on, and how many units the match consumes.  The
    three expressions of the chunker have no capture groups and never match
    the empty string. *)
Definition matcher := text -> text -> option nat.

(** The loop of [split]: [piece] holds, reversed, the units since the end of
    the last separator; [skip] counts the units of the current separator
    still to pass.  A match at the position closes the piece and the search
    resumes after the separator; otherwise the position moves one unit on.
    The last piece runs to the end of the string. *)
Fixpoint splitLoop (m : matcher) (before piece : text) (skip : nat)
    (rest : text) : list text :=
  match rest with
  | [] => [rev piece]
  | c :: rest' =>
      match skip with
      | S k => splitLoop m (c :: before) piece k rest'
      | O =>
          match m before rest with
          | Some (S k) => rev piece :: splitLoop m (c :: before) [] k rest'
          | _ => splitLoop m (c :: before) (c :: piece) 0 rest'
          end
      end
  end.

Definition split (m : matcher) (s : text) : list text := splitLoop m [] [] 0 s.

(** [/\n\s*\n/]: a line feed, then, [\s*] being greedy and [\s] containing
    the line feed, everything up to the last line feed of the white space
    that follows.  [lastLF s] is the number of units up to and including that
    last line feed, [0] when the white space run of [s] has none. *)
Fixpoint lastLF (s : text) : nat :=
  match s with
  | c :: s' =>
      if isWhiteSpace c then
        match lastLF s' with
        | S j => S (S j)
        | O => if (c =? LF)%N then 1 else 0
        end
      else 0
  | [] => 0
  end.

Definition blankLine : matcher := fun _ s =>
  match s with
  | c :: s' =>
      if (c =? LF)%N then
        match lastLF s' with
        | S j => Some (S (S j))
        | O => None
        end
      else None
  | [] => None
  end.

(** [/\s+/]: the whole run of white space at the position. *)
Definition whiteSpace : matcher := fun _ s =>
  match spaces s with
  | O => None
  | n => Some n
  end.

(** The look-behinds of the sentence expression: a terminator, or a
    terminator and then a quote, right before the position. *)
Definition afterTerminator (before : text) : bool :=
  match before with
  | p :: _ => isTerminator p
  | [] => false
  end
  || match before with
     | q :: p :: _ => isQuote q && isTerminator p
     | _ => false
     end.

(** [(?=[A-Z])] at the head of [s]. *)
Definition beforeUpper (s : text) : bool :=
  match s with
  | c :: _ => isUpper c
  | [] => false
  end.

(** The sentence expression, two alternatives that differ in the look-behind
    only: [(?<=[.!?])\s+(?=[A-Z])] and the same with a quote after the
    terminator.  After the look-behind, [\s+] can only stop at the end of the
    white space run, because a shorter run is followed by white space, not
    by a capital. *)
Definition sentenceBoundary : matcher := fun before s =>
  if afterTerminator before then
    match spaces s with
    | O => None
    | n => if beforeUpper (skipn n s) then Some n else None
    end
  else None.

End JS.

(* ================================================================= *)
(** ** The text chunker *)

Module TextChunker.
Import JS.

(** [chunks.push(...xs)] is taken as the append of [xs], whatever its
    length. *)

(** The two fields of the class. *)
Record TextChunker := { maxChunkSize : nat; safeChunkSize : nat }.

(** [constructor(maxChunkSize)]: [Math.floor(maxChunkSize * 0.95)].  The
    source multiplies in double precision; the model takes the floor of the
    exact product, which is [95 * maxChunkSize / 100]. *)
Definition new (maxChunkSize : nat) : TextChunker :=
  {| maxChunkSize := maxChunkSize; safeChunkSize := maxChunkSize * 95 / 100 |}.

(** The two variables of each accumulation loop. *)
Record acc := { chunks : list text; currentChunk : text }.

Definition start : acc := {| chunks := []; currentChunk := [] |}.

(** [if (currentChunk.trim().length > 0) chunks.push(currentChunk.trim())] *)
Definition pushCurrent (a : acc) : list text :=
  if 0 <? length (trim (currentChunk a))
  then chunks a ++ [trim (currentChunk a)]
  else chunks a.

(** The same statement with [currentChunk = ''] inside the conditional. *)
Definition saveCurrent (a : acc) : acc :=
  if 0 <? length (trim (currentChunk a))
  then {| chunks := chunks a ++ [trim (currentChunk a)]; currentChunk := [] |}
  else a.

(** [currentChunk += (currentChunk.length > 0 ? sep : '') + unit] *)
Definition append (sep : text) (a : acc) (unit : text) : acc :=
  {| chunks := chunks a;
     currentChunk := currentChunk a
                     ++ (if 0 <? length (currentChunk a) then sep else [])
                     ++ unit |}.

(** A [for (const x of xs)] loop whose body may fail to complete. *)
Fixpoint forOf {A S : Type} (body : S -> A -> option S) (s : S) (xs : list A)
    : option S :=
  match xs with
  | [] => Some s
  | x :: xs' =>
      match body s x with
      | Some s' => forOf body s' xs'
      | None => None
      end
  end.

(** [for (let i = ..; i < word.length; i += safeChunkSize)
       chunks.push(word.slice(i, i + safeChunkSize))].
    [fuel] bounds the number of iterations; [None] when it does not suffice. *)
Fixpoint sliceLoop (fuel : nat) (this : TextChunker) (word : text) (i : nat)
    (chunks : list text) : option (list text) :=
  if i <? length word then
    match fuel with
    | O => None
    | S fuel' =>
        sliceLoop fuel' this word (i + safeChunkSize this)
          (chunks ++ [slice word i (i + safeChunkSize this)])
    end
  else Some chunks.

Definition wordBody (fuel : nat) (this : TextChunker) (a : acc) (word : text)
    : option acc :=
  if safeChunkSize this <? length word then
    let a' := saveCurrent a in
    match sliceLoop fuel this word 0 (chunks a') with
    | Some chunks' => Some {| chunks := chunks'; currentChunk := currentChunk a' |}
    | None => None
    end
  else if safeChunkSize this <? length (currentChunk a) + length word + 1 then
    Some {| chunks := pushCurrent a; currentChunk := word |}
  else Some (append [SP] a word).

(** [chunkByWords(text)] *)
Definition chunkByWords (fuel : nat) (this : TextChunker) (t : text)
    : option (list text) :=
  let words := split whiteSpace t in
  match forOf (wordBody fuel this) start words with
  | Some a => Some (pushCurrent a)
  | None => None
  end.

(** [splitIntoSentences(text)] *)
Definition splitIntoSentences (t : text) : list text :=
  filter (fun s => 0 <? length s) (map trim (split sentenceBoundary t)).

Definition sentenceBody (fuel : nat) (this : TextChunker) (a : acc)
    (sentence : text) : option acc :=
  if safeChunkSize this <? length sentence then
    let a' := saveCurrent a in
    match chunkByWords fuel this sentence with
    | Some wordChunks =>
        Some {| chunks := chunks a' ++ wordChunks; currentChunk := currentChunk a' |}
    | None => None
    end
  else if safeChunkSize this <? length (currentChunk a) + length sentence + 1 then
    Some {| chunks := pushCurrent a; currentChunk := sentence |}
  else Some (append [SP] a sentence).

(** [chunkBySentences(text)] *)
Definition chunkBySentences (fuel : nat) (this : TextChunker) (t : text)
    : option (list text) :=
  let sentences := splitIntoSentences t in
  match forOf (sentenceBody fuel this) start sentences with
  | Some a => Some (pushCurrent a)
  | None => None
  end.

(** [splitIntoParagraphs(text)] *)
Definition splitIntoParagraphs (t : text) : list text :=
  filter (fun p => 0 <? length p) (map trim (split blankLine t)).

Definition paragraphBody (fuel : nat) (this : TextChunker) (a : acc)
    (paragraph : text) : option acc :=
  if safeChunkSize this <? length paragraph then
    let a' := saveCurrent a in
    match chunkBySentences fuel this paragraph with
    | Some sentenceChunks =>
        Some {| chunks := chunks a' ++ sentenceChunks;
                currentChunk := currentChunk a' |}
    | None => None
    end
  else if safeChunkSize this <? length (currentChunk a) + length paragraph + 1 then
    Some {| chunks := pushCurrent a; currentChunk := paragraph |}
  else Some (append [LF; LF] a paragraph).

(** [chunk(text)] *)
Definition chunk (fuel : nat) (this : TextChunker) (t : text)
    : option (list text) :=
  if length (trim t) =? 0 then Some []
  else if length t <=? safeChunkSize this then Some [trim t]
  else
    let paragraphs := splitIntoParagraphs t in
    match forOf (paragraphBody fuel this) start paragraphs with
    | Some a => Some (filter (fun c => 0 <? length c) (pushCurrent a))
    | None => None
    end.

(** [validateChunks(chunks)] *)
Definition validateChunks (this : TextChunker) (chunks : list text) : bool :=
  forallb (fun c => length c <=? maxChunkSize this) chunks.

(** [chunk(text)] returns [cs]. *)
Definition returns (this : TextChunker) (t : text) (cs : list text) : Prop :=
  exists fuel, chunk fuel this t = Some cs.

End TextChunker.

(* ================================================================= *)
(** ** The audio processor *)

Module AudioProcessor.

(** A [Buffer]: its bytes. *)
Definition buffer := list byte.

(** The paths the class handles.  The two kinds of transient file it creates
    in [tempDir] are named from a counter and the clock; any other path, as
    the [outputPath] of the caller, is a [Caller] path.  Paths are compared
    as they are written: names are not resolved, so that two spellings of
    one file are two paths here, and a path of the caller is taken to lie
    outside the transient names of [tempDir]. *)
Inductive path :=
| TempChunk (i : nat) (stamp : nat)   (* tempDir/chunk_<i>_<Date.now()>.mp3 *)
| ConcatList (stamp : nat)            (* tempDir/concat_list_<Date.now()>.txt *)
| Caller (name : string).

Definition path_eq_dec (p q : path) : {p = q} + {p <> q}.
Proof. decide equality; solve [apply Nat.eq_dec | apply string_dec]. Defined.

(** The command lines handed to [execAsync]. *)
Inductive command :=
| Version                                         (* ffmpeg -version *)
| ConcatDemuxer (listFile : path) (out : path)    (* ffmpeg -f concat -safe 0 -i list -c copy -y out *)
| FilterComplex (inputs : list path) (out : path) (* ffmpeg -i .. -filter_complex ..concat.. -y out *).

(** The errors thrown, by the message they carry. *)
Inductive error :=
| NoAudioBuffers                  (* No audio buffers provided *)
| NoInputFiles                    (* No input files provided *)
| NoSuchFile (p : path)           (* rejection of readFile or unlink *)
| ExecFailed (c : command)        (* rejection of execAsync *)
| FFmpegFailed (cause : error)    (* FFmpeg concatenation failed: <cause> *)
| ConcatenateFailed (cause : error) (* Failed to concatenate audio: <cause> *).

(** What lies outside the program during one call: the clock, whether
    [ffmpeg] is installed, what each of its two concatenation strategies does
    when run ([Some b]: exits with [0] having written [b] to the output;
    [None]: fails), and the bytes of the list file for given inputs. *)
Record env := {
  now : nat -> nat;
  ffmpeg : bool;
  demuxer : option buffer;
  filter_complex : option buffer;
  listContent : list path -> buffer
}.

(** The state the program acts on: the files (the directories exist and are
    writable), the number of times the clock was read, and the commands run. *)
Record world := {
  files : path -> option buffer;
  reads : nat;
  log : list command
}.

Definition update (fs : path -> option buffer) (p : path) (v : option buffer)
    : path -> option buffer :=
  fun q => if path_eq_dec q p then v else fs q.

(** *** Promises: state and exceptions *)

Inductive result (A : Type) :=
| Ok (a : A)
| Throw (e : error).
Arguments Ok {A} a.
Arguments Throw {A} e.

Definition M (A : Type) : Type := world -> result A * world.

Definition ret {A : Type} (a : A) : M A := fun w => (Ok a, w).

Definition throw {A : Type} (e : error) : M A := fun w => (Throw e, w).

Definition bind {A B : Type} (m : M A) (k : A -> M B) : M B :=
  fun w =>
    match m w with
    | (Ok a, w') => k a w'
    | (Throw e, w') => (Throw e, w')
    end.

Notation "x <- m ;; k" := (bind m (fun x => k))
  (at level 61, m at next level, right associativity).
Notation "m ;; k" := (bind m (fun _ => k))
  (at level 61, right associativity).

(** [try { m } catch (e) { handler }] *)
Definition tryCatch {A : Type} (m : M A) (handler : error -> M A) : M A :=
  fun w =>
    match m w with
    | (Ok a, w') => (Ok a, w')
    | (Throw e, w') => handler e w'
    end.

(** [try { m } finally { final }]: [final] runs on both exits and, when it
    completes, the outcome of [m] stands. *)
Definition tryFinally {A : Type} (m : M A) (final : M unit) : M A :=
  fun w =>
    match m w with
    | (r, w') =>
        match final w' with
        | (Ok _, w'') => (r, w'')
        | (Throw e, w'') => (Throw e, w'')
        end
    end.

(** *** The collaborators *)

Definition writeFile (p : path) (b : buffer) : M unit := fun w =>
  (Ok tt, {| files := update (files w) p (Some b); reads := reads w; log := log w |}).

Definition readFile (p : path) : M buffer := fun w =>
  match files w p with
  | Some b => (Ok b, w)
  | None => (Throw (NoSuchFile p), w)
  end.

Definition unlink (p : path) : M unit := fun w =>
  match files w p with
  | Some _ =>
      (Ok tt, {| files := update (files w) p None; reads := reads w; log := log w |})
  | None => (Throw (NoSuchFile p), w)
  end.

(** [Date.now()] *)
Definition dateNow (e : env) : M nat := fun w =>
  (Ok (now e (reads w)),
   {| files := files w; reads := S (reads w); log := log w |}).

(** [execAsync(command)] *)
Definition execAsync (e : env) (c : command) : M unit := fun w =>
  let w' := {| files := files w; reads := reads w; log := log w ++ [c] |} in
  let wrote out b :=
    {| files := update (files w) out (Some b); reads := reads w;
       log := log w ++ [c] |} in
  if ffmpeg e then
    match c with
    | Version => (Ok tt, w')
    | ConcatDemuxer _ out =>
        match demuxer e with
        | Some b => (Ok tt, wrote out b)
        | None => (Throw (ExecFailed c), w')
        end
    | FilterComplex _ out =>
        match filter_complex e with
        | Some b => (Ok tt, wrote out b)
        | None => (Throw (ExecFailed c), w')
        end
    end
  else (Throw (ExecFailed c), w').

(** *** The methods *)

(** [ensureTempDir()]: [mkdir] with its errors ignored. *)
Definition ensureTempDir : M unit := ret tt.

(** [cleanupTempFiles(files)] *)
Fixpoint cleanupTempFiles (fs : list path) : M unit :=
  match fs with
  | [] => ret tt
  | f :: fs' =>
      tryCatch (unlink f) (fun _ => ret tt) ;;
      cleanupTempFiles fs'
  end.

(** [checkFFmpeg()] *)
Definition checkFFmpeg (e : env) : M bool :=
  tryCatch (execAsync e Version ;; ret true) (fun _ => ret false).

(** The reading loop of [simpleConcatenate]. *)
Fixpoint readAll (inputFiles : list path) (buffers : list buffer)
    : M (list buffer) :=
  match inputFiles with
  | [] => ret buffers
  | f :: fs' =>
      b <- readFile f ;;
      readAll fs' (buffers ++ [b])
  end.

(** [simpleConcatenate(inputFiles, outputPath)] *)
Definition simpleConcatenate (inputFiles : list path) (outputPath : path)
    : M unit :=
  buffers <- readAll inputFiles [] ;;
  writeFile outputPath (concat buffers).

(** [concatenateWithFFmpeg(inputFiles, outputPath)] *)
Definition concatenateWithFFmpeg (e : env) (inputFiles : list path)
    (outputPath : path) : M unit :=
  stamp <- dateNow e ;;
  let listFile := ConcatList stamp in
  writeFile listFile (listContent e inputFiles) ;;
  tryFinally
    (tryCatch
       (execAsync e (ConcatDemuxer listFile outputPath))
       (fun _ =>
          tryCatch
            (execAsync e (FilterComplex inputFiles outputPath))
            (fun retryError => throw (FFmpegFailed retryError))))
    (tryCatch (unlink listFile) (fun _ => ret tt)).

(** [concatenateFiles(inputFiles, outputPath)] *)
Definition concatenateFiles (e : env) (inputFiles : list path)
    (outputPath : path) : M unit :=
  match inputFiles with
  | [] => throw NoInputFiles
  | _ =>
      hasFFmpeg <- checkFFmpeg e ;;
      if hasFFmpeg : bool
      then concatenateWithFFmpeg e inputFiles outputPath
      else simpleConcatenate inputFiles outputPath
  end.

(** The saving loop of [concatenateBuffers]. *)
Fixpoint saveBuffers (e : env) (i : nat) (audioBuffers : list buffer)
    (tempFiles : list path) : M (list path) :=
  match audioBuffers with
  | [] => ret tempFiles
  | b :: rest =>
      stamp <- dateNow e ;;
      let tempFile := TempChunk i stamp in
      writeFile tempFile b ;;
      saveBuffers e (S i) rest (tempFiles ++ [tempFile])
  end.

(** [concatenateBuffers(audioBuffers, outputPath)] *)
Definition concatenateBuffers (e : env) (audioBuffers : list buffer)
    (outputPath : string) : M path :=
  let out := Caller outputPath in
  match audioBuffers with
  | [] => throw NoAudioBuffers
  | [b] => writeFile out b ;; ret out
  | _ =>
      ensureTempDir ;;
      tryCatch
        (tempFiles <- saveBuffers e 0 audioBuffers [] ;;
         concatenateFiles e tempFiles out ;;
         cleanupTempFiles tempFiles ;;
         ret out)
        (fun error => throw (ConcatenateFailed error))
  end.

(** A file system with no files, a clock not yet read, nothing run. *)
Definition initial : world :=
  {| files := fun _ => None; reads := 0; log := [] |}.

End AudioProcessor.

(* ================================================================= *)
(** ** Facts about strings *)

Module JSFacts.
Import JS.

Lemma trimStart_length (s : text) : length (trimStart s) <= length s.
Proof.
  induction s as [|c s IH]; simpl; [lia|].
  destruct (isWhiteSpace c); simpl; lia.
Qed.

Lemma trim_length (s : text) : length (trim s) <= length s.
Proof.
  unfold trim, trimEnd. rewrite length_rev.
  etransitivity; [apply trimStart_length|].
  rewrite length_rev. apply trimStart_length.
Qed.

Lemma slice_length (s : text) (i n : nat) : length (slice s i (i + n)) <= n.
Proof.
  unfold slice. rewrite length_firstn. lia.
Qed.

(** A text none of whose units is white space. *)
Definition solid (s : text) : Prop := Forall (fun c => isWhiteSpace c = false) s.

Lemma trimStart_solid (s : text) : solid s -> trimStart s = s.
Proof.
  destruct 1 as [|c s Hc _]; simpl; [reflexivity|].
  now rewrite Hc.
Qed.

Lemma trim_solid (s : text) : solid s -> trim s = s.
Proof.
  intros H. unfold trim, trimEnd.
  rewrite (trimStart_solid _ H).
  rewrite trimStart_solid; [apply rev_involutive|].
  unfold solid. apply Forall_rev. exact H.
Qed.

(** Every piece [split] returns is at most as long as the string. *)
Lemma splitLoop_length (m : matcher) (rest before piece : text) (skip : nat) :
  Forall (fun p => length p <= length piece + length rest)
         (splitLoop m before piece skip rest).
Proof.
  revert before piece skip.
  induction rest as [|c rest IH]; intros before piece skip; simpl.
  - constructor; [rewrite length_rev; lia|constructor].
  - destruct skip as [|k].
    + destruct (m before (c :: rest)) as [[|k]|].
      * eapply Forall_impl; [|apply IH]. simpl. intros; lia.
      * constructor; [rewrite length_rev; lia|].
        eapply Forall_impl; [|apply IH]. simpl. intros; lia.
      * eapply Forall_impl; [|apply IH]. simpl. intros; lia.
    + eapply Forall_impl; [|apply IH]. simpl. intros; lia.
Qed.

Lemma split_length (m : matcher) (s : text) :
  Forall (fun p => length p <= length s) (split m s).
Proof. apply (splitLoop_length m s [] [] 0). Qed.

(** On a text without white space an expression that needs white space at
    the position finds no separator. *)
Definition needsSpace (m : matcher) : Prop :=
  forall before c s, isWhiteSpace c = false -> m before (c :: s) = None.

Lemma splitLoop_solid (m : matcher) (rest before piece : text) :
  needsSpace m -> solid rest ->
  splitLoop m before piece 0 rest = [rev piece ++ rest].
Proof.
  intros Hm. revert before piece.
  induction rest as [|c rest IH]; intros before piece Hs; simpl.
  - now rewrite app_nil_r.
  - inversion Hs as [|? ? Hc Hrest]; subst.
    rewrite (Hm before c rest Hc), (IH _ _ Hrest). simpl.
    now rewrite <- app_assoc.
Qed.

Lemma split_solid (m : matcher) (s : text) :
  needsSpace m -> solid s -> split m s = [s].
Proof. intros Hm Hs. apply (splitLoop_solid m s [] [] Hm Hs). Qed.

Lemma LF_isWhiteSpace (c : char) : (c =? LF)%N = true -> isWhiteSpace c = true.
Proof. intros H. apply N.eqb_eq in H. now subst. Qed.

Lemma needsSpace_blankLine : needsSpace blankLine.
Proof.
  intros before c s Hc. unfold blankLine.
  destruct (c =? LF)%N eqn:E; [|reflexivity].
  apply LF_isWhiteSpace in E. congruence.
Qed.

Lemma needsSpace_whiteSpace : needsSpace whiteSpace.
Proof. intros before c s Hc. unfold whiteSpace. simpl. now rewrite Hc. Qed.

Lemma needsSpace_sentenceBoundary : needsSpace sentenceBoundary.
Proof.
  intros before c s Hc. unfold sentenceBoundary. simpl. rewrite Hc.
  now destruct (afterTerminator before).
Qed.

(** *** Character classes *)

Ltac decide_atoms :=
  repeat match goal with
  | |- context [(?a =? ?b)%N] =>
      first [ replace (a =? b)%N with false by (symmetry; apply N.eqb_neq; lia)
            | replace (a =? b)%N with true by (symmetry; apply N.eqb_eq; lia) ]
  | |- context [(?a <=? ?b)%N] =>
      first [ replace (a <=? b)%N with true by (symmetry; apply N.leb_le; lia)
            | replace (a <=? b)%N with false by (symmetry; apply N.leb_gt; lia) ]
  end.

Lemma isUpper_range (c : char) : isUpper c = true -> (65 <= c <= 90)%N.
Proof.
  unfold isUpper. intros H. apply andb_true_iff in H.
  destruct H as [H1 H2]. apply N.leb_le in H1, H2. lia.
Qed.

Lemma isUpper_not_space (c : char) : isUpper c = true -> isWhiteSpace c = false.
Proof.
  intros H. apply isUpper_range in H. unfold isWhiteSpace.
  decide_atoms. reflexivity.
Qed.

Lemma isUpper_not_quote (c : char) : isUpper c = true -> isQuote c = false.
Proof.
  intros H. apply isUpper_range in H. unfold isQuote.
  decide_atoms. reflexivity.
Qed.

Lemma isTerminator_not_space (p : char) :
  isTerminator p = true -> isWhiteSpace p = false.
Proof.
  unfold isTerminator. intros H.
  repeat (apply orb_true_iff in H; destruct H as [H|H]);
    apply N.eqb_eq in H; subst p; reflexivity.
Qed.

(** *** Runs of white space *)

Definition blank (ws : text) : Prop := Forall (fun c => isWhiteSpace c = true) ws.

Lemma spaces_run (ws : text) (c : char) (s : text) :
  blank ws -> isWhiteSpace c = false -> spaces (ws ++ c :: s) = length ws.
Proof.
  intros Hws Hc. induction Hws as [|w ws Hw _ IH]; simpl.
  - now rewrite Hc.
  - now rewrite Hw, IH.
Qed.

Lemma skipn_run (ws s : text) : skipn (length ws) (ws ++ s) = s.
Proof. induction ws; simpl; auto. Qed.

(** Passing a separator does not look at its units. *)
Lemma splitLoop_skip (m : matcher) (ws s before piece : text) :
  splitLoop m before piece (length ws) (ws ++ s)
  = splitLoop m (rev ws ++ before) piece 0 s.
Proof.
  revert before. induction ws as [|w ws IH]; intros before; simpl.
  - reflexivity.
  - rewrite IH, <- app_assoc. reflexivity.
Qed.

(** *** The sentence expression *)

Lemma sentenceBoundary_spaces (before s : text) (n : nat) :
  sentenceBoundary before s = Some n -> n = spaces s.
Proof.
  unfold sentenceBoundary. destruct (afterTerminator before); [|discriminate].
  destruct (spaces s) as [|k]; [discriminate|].
  destruct (beforeUpper _); [|discriminate]. now intros [= <-].
Qed.

(** Whether the expression matches inside [u] is decided by [u] and the next
    unit, when that unit is not white space. *)
Lemma run_prefix (u : text) (p : char) (v : text) :
  isWhiteSpace p = false ->
  spaces (u ++ p :: v) = spaces (u ++ [p])
  /\ beforeUpper (skipn (spaces (u ++ [p])) (u ++ p :: v))
     = beforeUpper (skipn (spaces (u ++ [p])) (u ++ [p])).
Proof.
  intros Hp. induction u as [|c u [IH1 IH2]]; simpl.
  - rewrite Hp. auto.
  - destruct (isWhiteSpace c); simpl; [|auto].
    rewrite IH1. auto.
Qed.

Lemma sentenceBoundary_prefix (before u : text) (p : char) (v : text) :
  isWhiteSpace p = false ->
  sentenceBoundary before (u ++ p :: v) = sentenceBoundary before (u ++ [p]).
Proof.
  intros Hp. unfold sentenceBoundary.
  destruct (afterTerminator before); [|reflexivity].
  destruct (run_prefix u p v Hp) as [E1 E2]. rewrite E1.
  destruct (spaces (u ++ [p])) as [|k]; [reflexivity|].
  now rewrite E2.
Qed.

(** Two texts the look-behind cannot tell apart, now or after more units. *)
Definition sameBehind (b b' : text) : Prop :=
  forall ext, afterTerminator (ext ++ b) = afterTerminator (ext ++ b').

Lemma sameBehind_cons (c : char) (b b' : text) :
  sameBehind b b' -> sameBehind (c :: b) (c :: b').
Proof.
  intros H ext. specialize (H (ext ++ [c])).
  now rewrite <- !app_assoc in H.
Qed.

Lemma sameBehind_one (c : char) (b : text) :
  isQuote c = false -> sameBehind (c :: b) [c].
Proof.
  intros Hc [|e1 [|e2 ext]]; unfold afterTerminator; simpl;
    rewrite ?Hc; try reflexivity.
  destruct b; reflexivity.
Qed.

Lemma splitLoop_behind (rest b b' piece : text) (skip : nat) :
  sameBehind b b' ->
  splitLoop sentenceBoundary b piece skip rest
  = splitLoop sentenceBoundary b' piece skip rest.
Proof.
  revert b b' piece skip.
  induction rest as [|c rest IH]; intros b b' piece skip H; simpl; [reflexivity|].
  pose proof (sameBehind_cons c _ _ H) as Hc.
  destruct skip as [|k]; [|now apply IH].
  assert (sentenceBoundary b (c :: rest) = sentenceBoundary b' (c :: rest)) as ->.
  { unfold sentenceBoundary. pose proof (H []) as E. simpl in E. now rewrite E. }
  destruct (sentenceBoundary b' (c :: rest)) as [[|k]|].
  - now apply IH.
  - rewrite (IH _ (c :: b') [] k Hc). reflexivity.
  - now apply IH.
Qed.

(** What follows a capital is split as if the text began there. *)
Lemma splitLoop_restart (c : char) (s before : text) :
  isUpper c = true ->
  splitLoop sentenceBoundary before [] 0 (c :: s) = split sentenceBoundary (c :: s).
Proof.
  intros Hc. unfold split. simpl.
  rewrite !(needsSpace_sentenceBoundary _ c s (isUpper_not_space c Hc)).
  apply splitLoop_behind. apply sameBehind_one. now apply isUpper_not_quote.
Qed.

(** A terminator, white space, a capital: the piece ends with the
    terminator and the next begins with the capital. *)
Lemma splitLoop_boundary (p c : char) (ws s : text) :
  isTerminator p = true -> ws <> [] -> blank ws -> isUpper c = true ->
  forall a before piece skip, skip <= spaces (a ++ [p]) ->
    splitLoop sentenceBoundary before piece skip (a ++ p :: ws ++ c :: s)
    = splitLoop sentenceBoundary before piece skip (a ++ [p])
      ++ split sentenceBoundary (c :: s).
Proof.
  intros Hp Hne Hws Hc.
  pose proof (isTerminator_not_space p Hp) as Hp'.
  pose proof (isUpper_not_space c Hc) as Hc'.
  induction a as [|x a IH]; intros before piece skip Hskip.
  - simpl in Hskip. rewrite Hp' in Hskip.
    assert (skip = 0) as -> by lia. simpl.
    rewrite !(needsSpace_sentenceBoundary _ p _ Hp').
    destruct ws as [|w ws']; [congruence|]. inversion Hws as [|? ? Hw Hws']; subst.
    simpl. unfold sentenceBoundary at 1.
    assert (afterTerminator (p :: before) = true) as ->
      by (unfold afterTerminator; now rewrite Hp).
    change (w :: ws' ++ c :: s) with ((w :: ws') ++ c :: s).
    rewrite (spaces_run (w :: ws') c s Hws Hc'). simpl.
    rewrite (skipn_run ws' (c :: s)). simpl. rewrite Hc. f_equal.
    rewrite splitLoop_skip. now apply splitLoop_restart.
  - simpl in Hskip. simpl. destruct skip as [|k].
    + change (x :: a ++ p :: ws ++ c :: s) with ((x :: a) ++ p :: ws ++ c :: s).
      rewrite (sentenceBoundary_prefix before (x :: a) p _ Hp'). simpl.
      destruct (sentenceBoundary before (x :: a ++ [p])) as [[|k]|] eqn:E.
      * apply IH. lia.
      * simpl. f_equal. apply IH.
        apply sentenceBoundary_spaces in E. simpl in E.
        destruct (isWhiteSpace x); [lia|discriminate].
      * apply IH. lia.
    + apply IH. destruct (isWhiteSpace x); lia.
Qed.

Lemma split_boundary (a : text) (p : char) (ws : text) (c : char) (s : text) :
  isTerminator p = true -> ws <> [] -> blank ws -> isUpper c = true ->
  split sentenceBoundary (a ++ p :: ws ++ c :: s)
  = split sentenceBoundary (a ++ [p]) ++ split sentenceBoundary (c :: s).
Proof.
  intros Hp Hne Hws Hc. unfold split at 1 2.
  apply splitLoop_boundary; auto; lia.
Qed.

(** *** Separators are white space

    A run of units without white space is never cut: it lies within one piece. *)

Definition inSpaces (m : matcher) : Prop :=
  forall before s n, m before s = Some n -> n <= spaces s.

Lemma inSpaces_sentenceBoundary : inSpaces sentenceBoundary.
Proof. intros before s n E. apply sentenceBoundary_spaces in E. lia. Qed.

Lemma trimStart_keeps (x d y : text) :
  solid d -> d <> [] -> exists x', trimStart (x ++ d ++ y) = x' ++ d ++ y.
Proof.
  intros Hd Hne. induction x as [|c x [x' IH]]; simpl.
  - exists []. destruct Hd as [|d0 d Hd0 _]; [congruence|].
    simpl. now rewrite Hd0.
  - destruct (isWhiteSpace c); [now exists x'|now exists (c :: x)].
Qed.

Lemma trim_keeps (x d y : text) :
  solid d -> d <> [] -> exists x' y', trim (x ++ d ++ y) = x' ++ d ++ y'.
Proof.
  intros Hd Hne. unfold trim, trimEnd.
  destruct (trimStart_keeps x d y Hd Hne) as [x' ->].
  rewrite !rev_app_distr, <- app_assoc.
  destruct (trimStart_keeps (rev y) (rev d) (rev x')) as [y' ->].
  - apply Forall_rev. exact Hd.
  - intros E. apply Hne. rewrite <- (rev_involutive d), E. reflexivity.
  - exists x', (rev y'). rewrite !rev_app_distr, !rev_involutive.
    now rewrite <- app_assoc.
Qed.

Section Keeps.
Variable m : matcher.
Hypothesis Hneeds : needsSpace m.
Hypothesis Hin : inSpaces m.

Lemma splitLoop_through (d s before piece : text) :
  solid d ->
  splitLoop m before piece 0 (d ++ s)
  = splitLoop m (rev d ++ before) (rev d ++ piece) 0 s.
Proof.
  intros Hd. revert before piece.
  induction Hd as [|c d Hc _ IH]; intros before piece; simpl; [reflexivity|].
  rewrite (Hneeds before c (d ++ s) Hc), IH, <- !app_assoc. reflexivity.
Qed.

Lemma splitLoop_first (s before piece : text) :
  exists y l, splitLoop m before piece 0 s = (rev piece ++ y) :: l.
Proof.
  revert before piece. induction s as [|c s IH]; intros before piece; simpl.
  - exists [], []. now rewrite app_nil_r.
  - destruct (IH (c :: before) (c :: piece)) as (y & l & E).
    destruct (m before (c :: s)) as [[|k]|].
    + exists (c :: y), l. rewrite E. simpl. now rewrite <- app_assoc.
    + exists [], (splitLoop m (c :: before) [] k s). now rewrite app_nil_r.
    + exists (c :: y), l. rewrite E. simpl. now rewrite <- app_assoc.
Qed.

Lemma splitLoop_keeps (d s : text) :
  solid d -> d <> [] ->
  forall a before piece skip, skip <= spaces (a ++ d ++ s) ->
    exists l1 x y l2,
      splitLoop m before piece skip (a ++ d ++ s) = l1 ++ (x ++ d ++ y) :: l2.
Proof.
  intros Hd Hne. induction a as [|c a IH]; intros before piece skip Hskip.
  - simpl in *. assert (skip = 0) as ->.
    { destruct Hd as [|d0 d Hd0 _]; [congruence|].
      simpl in Hskip. rewrite Hd0 in Hskip. lia. }
    rewrite (splitLoop_through d s before piece Hd).
    destruct (splitLoop_first s (rev d ++ before) (rev d ++ piece)) as (y & l & ->).
    exists [], (rev piece), y, l.
    rewrite rev_app_distr, rev_involutive, <- app_assoc. reflexivity.
  - simpl in Hskip. simpl. destruct skip as [|k].
    + destruct (m before (c :: a ++ d ++ s)) as [[|k]|] eqn:E.
      * apply IH. lia.
      * destruct (IH (c :: before) [] k) as (l1 & x & y & l2 & ->).
        { apply Hin in E. simpl in E. destruct (isWhiteSpace c); lia. }
        now exists (rev piece :: l1), x, y, l2.
      * apply IH. lia.
    + apply IH. destruct (isWhiteSpace c); lia.
Qed.

(** The same after the pieces are trimmed and the empty ones dropped. *)
Lemma units_keep (a d s : text) :
  solid d -> d <> [] ->
  exists l1 x y l2,
    filter (fun u => 0 <? length u) (map trim (split m (a ++ d ++ s)))
    = l1 ++ (x ++ d ++ y) :: l2.
Proof.
  intros Hd Hne. unfold split.
  destruct (splitLoop_keeps d s Hd Hne a [] [] 0) as (l1 & x & y & l2 & ->);
    [lia|].
  destruct (trim_keeps x d y Hd Hne) as (x' & y' & E).
  rewrite map_app, filter_app. simpl. rewrite E.
  assert ((0 <? length (x' ++ d ++ y')) = true) as ->.
  { apply Nat.ltb_lt. rewrite !length_app.
    destruct d; [congruence|simpl; lia]. }
  now eexists _, x', y', _.
Qed.
End Keeps.

End JSFacts.

(* ================================================================= *)
(** ** Facts about the chunker *)

Module ChunkerFacts.
Import JS JSFacts TextChunker.

(** *** The size of the chunks *)

Definition within (n : nat) (cs : list text) : Prop :=
  Forall (fun c => length c <= n) cs.

(** The invariant of the three accumulation loops. *)
Definition inv (n : nat) (a : acc) : Prop :=
  within n (chunks a) /\ length (currentChunk a) <= n.

Lemma inv_start (n : nat) : inv n start.
Proof. split; [constructor|simpl; lia]. Qed.

Lemma within_snoc (n : nat) (cs : list text) (c : text) :
  within n cs -> length c <= n -> within n (cs ++ [c]).
Proof.
  intros Hcs Hc. apply Forall_app. split; [exact Hcs|].
  constructor; [exact Hc|constructor].
Qed.

Lemma within_pushCurrent (n : nat) (a : acc) : inv n a -> within n (pushCurrent a).
Proof.
  intros [Hcs Hc]. unfold pushCurrent.
  destruct (0 <? length (trim (currentChunk a))); [|exact Hcs].
  apply within_snoc; [exact Hcs|].
  pose proof (trim_length (currentChunk a)). lia.
Qed.

Lemma inv_saveCurrent (n : nat) (a : acc) : inv n a -> inv n (saveCurrent a).
Proof.
  intros [Hcs Hc]. unfold saveCurrent.
  destruct (0 <? length (trim (currentChunk a))); [|now split].
  split; simpl; [|lia].
  apply within_snoc; [exact Hcs|].
  pose proof (trim_length (currentChunk a)). lia.
Qed.

Lemma forOf_inv {A S : Type} (P : S -> Prop) (body : S -> A -> option S) :
  (forall s x s', P s -> body s x = Some s' -> P s') ->
  forall xs s s', P s -> forOf body s xs = Some s' -> P s'.
Proof.
  intros Hbody xs. induction xs as [|x xs IH]; intros s s' Hs; simpl.
  - intros [= <-]. exact Hs.
  - destruct (body s x) as [s1|] eqn:E; [|discriminate].
    apply IH. eapply Hbody; eauto.
Qed.

Lemma sliceLoop_within (n fuel : nat) (this : TextChunker) (word : text) :
  safeChunkSize this <= n ->
  forall i cs cs', within n cs ->
    sliceLoop fuel this word i cs = Some cs' -> within n cs'.
Proof.
  intros Hn. induction fuel as [|fuel IH]; intros i cs cs' Hcs; simpl.
  - destruct (i <? length word); [discriminate|]. now intros [= <-].
  - destruct (i <? length word); [|now intros [= <-]].
    apply IH. apply within_snoc; [exact Hcs|].
    pose proof (slice_length word i (safeChunkSize this)). lia.
Qed.

(** The second and third branch of a loop body, which the three bodies
    share up to the separator. *)
Ltac accumulate_branches a :=
  let E := fresh "E" in
  match goal with
  | |- context [?x <? ?y] => destruct (x <? y) eqn:E
  end;
  [ intros [= <-]; split; simpl;
    [ apply within_pushCurrent; assumption
    | match goal with H : (_ <? _) = false |- _ => apply Nat.ltb_ge in H end; lia ]
  | intros [= <-]; apply Nat.ltb_ge in E;
    match goal with H : inv _ a |- _ => destruct H as [? ?] end;
    split; simpl; [assumption|];
    rewrite !length_app; destruct (0 <? length (currentChunk a)); simpl; lia ].

Lemma wordBody_inv (n fuel : nat) (this : TextChunker) :
  safeChunkSize this <= n ->
  forall a w a', inv n a -> wordBody fuel this a w = Some a' -> inv n a'.
Proof.
  intros Hn a w a' Ha. unfold wordBody.
  destruct (safeChunkSize this <? length w) eqn:Elong.
  - destruct (inv_saveCurrent _ _ Ha) as [Hcs Hc].
    destruct (sliceLoop fuel this w 0 (chunks (saveCurrent a))) as [cs|] eqn:E;
      [|discriminate].
    intros [= <-]. split; simpl; [|exact Hc].
    eapply sliceLoop_within; eauto.
  - accumulate_branches a.
Qed.

Lemma chunkByWords_within (n fuel : nat) (this : TextChunker) (t : text)
    (cs : list text) :
  safeChunkSize this <= n -> chunkByWords fuel this t = Some cs -> within n cs.
Proof.
  intros Hn. unfold chunkByWords.
  destruct (forOf _ _ _) as [a|] eqn:E; [|discriminate].
  intros [= <-]. apply within_pushCurrent.
  eapply (forOf_inv (inv n)); [apply wordBody_inv; exact Hn| |exact E].
  apply inv_start.
Qed.

Lemma sentenceBody_inv (n fuel : nat) (this : TextChunker) :
  safeChunkSize this <= n ->
  forall a s a', inv n a -> sentenceBody fuel this a s = Some a' -> inv n a'.
Proof.
  intros Hn a s a' Ha. unfold sentenceBody.
  destruct (safeChunkSize this <? length s) eqn:Elong.
  - destruct (inv_saveCurrent _ _ Ha) as [Hcs Hc].
    destruct (chunkByWords fuel this s) as [cs|] eqn:E; [|discriminate].
    intros [= <-]. split; simpl; [|exact Hc].
    apply Forall_app. split; [exact Hcs|].
    eapply chunkByWords_within; eauto.
  - accumulate_branches a.
Qed.

Lemma chunkBySentences_within (n fuel : nat) (this : TextChunker) (t : text)
    (cs : list text) :
  safeChunkSize this <= n -> chunkBySentences fuel this t = Some cs -> within n cs.
Proof.
  intros Hn. unfold chunkBySentences.
  destruct (forOf _ _ _) as [a|] eqn:E; [|discriminate].
  intros [= <-]. apply within_pushCurrent.
  eapply (forOf_inv (inv n)); [apply sentenceBody_inv; exact Hn| |exact E].
  apply inv_start.
Qed.

(** The paragraph loop tests [length + length + 1] and then joins with two
    line feeds: its buffer can reach [safeChunkSize + 1]. *)
Lemma paragraphBody_inv (n fuel : nat) (this : TextChunker) :
  safeChunkSize this + 1 <= n ->
  forall a p a', inv n a -> paragraphBody fuel this a p = Some a' -> inv n a'.
Proof.
  intros Hn a p a' Ha. unfold paragraphBody.
  destruct (safeChunkSize this <? length p) eqn:Elong.
  - destruct (inv_saveCurrent _ _ Ha) as [Hcs Hc].
    destruct (chunkBySentences fuel this p) as [cs|] eqn:E; [|discriminate].
    intros [= <-]. split; simpl; [|exact Hc].
    apply Forall_app. split; [exact Hcs|].
    eapply chunkBySentences_within; [|exact E]. lia.
  - accumulate_branches a.
Qed.

Lemma chunk_within (n fuel : nat) (this : TextChunker) (t : text)
    (cs : list text) :
  safeChunkSize this + 1 <= n -> chunk fuel this t = Some cs -> within n cs.
Proof.
  intros Hn. unfold chunk.
  destruct (length (trim t) =? 0); [intros [= <-]; constructor|].
  destruct (length t <=? safeChunkSize this) eqn:Eshort.
  - intros [= <-]. apply Nat.leb_le in Eshort.
    constructor; [|constructor]. pose proof (trim_length t). lia.
  - destruct (forOf _ _ _) as [a|] eqn:E; [|discriminate].
    intros [= <-]. apply incl_Forall with (l1 := pushCurrent a).
    + intros c Hc. apply filter_In in Hc. tauto.
    + apply within_pushCurrent.
      eapply (forOf_inv (inv n)); [apply paragraphBody_inv; exact Hn| |exact E].
      apply inv_start.
Qed.

Lemma safe_lt_max (m : nat) : 0 < m -> safeChunkSize (new m) + 1 <= m.
Proof.
  intros Hm. unfold new. cbn [safeChunkSize].
  assert (m * 95 / 100 < m) by (apply Nat.Div0.div_lt_upper_bound; lia).
  lia.
Qed.

(** *** Termination *)

(** With a positive step the slicing loop ends within [length word] rounds. *)
Lemma sliceLoop_total (fuel : nat) (this : TextChunker) (word : text) :
  0 < safeChunkSize this ->
  forall i cs, length word <= i + fuel ->
    exists cs', sliceLoop fuel this word i cs = Some cs'.
Proof.
  intros Hs. induction fuel as [|fuel IH]; intros i cs Hlen; simpl.
  - destruct (i <? length word) eqn:E; [|eauto].
    apply Nat.ltb_lt in E. lia.
  - destruct (i <? length word); [|eauto]. apply IH. lia.
Qed.

(** With step [0] the index never moves: no number of rounds suffices. *)
Lemma sliceLoop_stuck (fuel : nat) (this : TextChunker) (word : text) :
  safeChunkSize this = 0 ->
  forall i cs, i < length word -> sliceLoop fuel this word i cs = None.
Proof.
  intros Hs. induction fuel as [|fuel IH]; intros i cs Hi; simpl;
    apply Nat.ltb_lt in Hi as Hi'; rewrite Hi'; [reflexivity|].
  rewrite Hs, Nat.add_0_r. now apply IH.
Qed.

Lemma forOf_total {A S : Type} (Q : A -> Prop) (body : S -> A -> option S) :
  (forall s x, Q x -> exists s', body s x = Some s') ->
  forall xs, Forall Q xs -> forall s, exists s', forOf body s xs = Some s'.
Proof.
  intros Hbody xs Hxs. induction Hxs as [|x xs Hx _ IH]; intros s; simpl.
  - eauto.
  - destruct (Hbody s x Hx) as [s1 ->]. apply IH.
Qed.

(** The units a splitting method returns are no longer than its argument. *)
Lemma units_length (m : matcher) (t : text) :
  Forall (fun u => length u <= length t)
         (filter (fun u => 0 <? length u) (map trim (split m t))).
Proof.
  apply incl_Forall with (l1 := map trim (split m t)).
  - intros u Hu. apply filter_In in Hu. tauto.
  - apply Forall_map. eapply Forall_impl; [|apply split_length].
    simpl. intros u Hu. pose proof (trim_length u). lia.
Qed.

Section Total.
Variable fuel : nat.
Variable this : TextChunker.
Hypothesis positive : 0 < safeChunkSize this.

Lemma wordBody_total (a : acc) (w : text) :
  length w <= fuel -> exists a', wordBody fuel this a w = Some a'.
Proof.
  intros Hw. unfold wordBody.
  destruct (safeChunkSize this <? length w).
  - destruct (sliceLoop_total fuel this w positive 0 (chunks (saveCurrent a)))
      as [cs ->]; [lia|eauto].
  - destruct (_ <? _); eauto.
Qed.

Lemma chunkByWords_total (t : text) :
  length t <= fuel -> exists cs, chunkByWords fuel this t = Some cs.
Proof.
  intros Ht. unfold chunkByWords.
  cbv zeta.
  destruct (forOf_total (fun w : text => length w <= fuel) (wordBody fuel this))
    with (xs := split whiteSpace t) (s := start) as [a ->].
  - intros a w. apply wordBody_total.
  - eapply Forall_impl; [|apply split_length]. simpl. intros; lia.
  - eauto.
Qed.

Lemma sentenceBody_total (a : acc) (s : text) :
  length s <= fuel -> exists a', sentenceBody fuel this a s = Some a'.
Proof.
  intros Hs. unfold sentenceBody.
  destruct (safeChunkSize this <? length s).
  - destruct (chunkByWords_total s Hs) as [cs ->]. eauto.
  - destruct (_ <? _); eauto.
Qed.

Lemma chunkBySentences_total (t : text) :
  length t <= fuel -> exists cs, chunkBySentences fuel this t = Some cs.
Proof.
  intros Ht. unfold chunkBySentences.
  cbv zeta.
  destruct (forOf_total (fun s : text => length s <= fuel) (sentenceBody fuel this))
    with (xs := splitIntoSentences t) (s := start) as [a ->].
  - intros a s. apply sentenceBody_total.
  - eapply Forall_impl; [|apply units_length]. simpl. intros; lia.
  - eauto.
Qed.

Lemma paragraphBody_total (a : acc) (p : text) :
  length p <= fuel -> exists a', paragraphBody fuel this a p = Some a'.
Proof.
  intros Hp. unfold paragraphBody.
  destruct (safeChunkSize this <? length p).
  - destruct (chunkBySentences_total p Hp) as [cs ->]. eauto.
  - destruct (_ <? _); eauto.
Qed.

Lemma chunk_total (t : text) :
  length t <= fuel -> exists cs, chunk fuel this t = Some cs.
Proof.
  intros Ht. unfold chunk.
  destruct (length (trim t) =? 0); [eauto|].
  destruct (length t <=? safeChunkSize this); [eauto|].
  cbv zeta.
  destruct (forOf_total (fun p : text => length p <= fuel) (paragraphBody fuel this))
    with (xs := splitIntoParagraphs t) (s := start) as [a ->].
  - intros a p. apply paragraphBody_total.
  - eapply Forall_impl; [|apply units_length]. simpl. intros; lia.
  - eauto.
Qed.
End Total.

(** *** More rounds do not change what is returned *)

Lemma sliceLoop_more (this : TextChunker) (word : text) (fuel fuel' : nat) :
  fuel <= fuel' ->
  forall i cs cs', sliceLoop fuel this word i cs = Some cs' ->
    sliceLoop fuel' this word i cs = Some cs'.
Proof.
  revert fuel'. induction fuel as [|fuel IH]; intros fuel' Hle i cs cs'; simpl.
  - destruct (i <? length word) eqn:E; [discriminate|].
    intros [= <-]. destruct fuel'; simpl; now rewrite E.
  - destruct fuel' as [|fuel']; [lia|]. simpl.
    destruct (i <? length word); [|auto]. apply IH. lia.
Qed.

Lemma forOf_more {A S : Type} (body body' : S -> A -> option S) :
  (forall s x s', body s x = Some s' -> body' s x = Some s') ->
  forall xs s s', forOf body s xs = Some s' -> forOf body' s xs = Some s'.
Proof.
  intros Hbody xs. induction xs as [|x xs IH]; intros s s'; simpl; [auto|].
  destruct (body s x) as [s1|] eqn:E; [|discriminate].
  rewrite (Hbody _ _ _ E). apply IH.
Qed.

Section More.
Variable this : TextChunker.
Variables fuel fuel' : nat.
Hypothesis Hle : fuel <= fuel'.

Lemma wordBody_more (a : acc) (w : text) (a' : acc) :
  wordBody fuel this a w = Some a' -> wordBody fuel' this a w = Some a'.
Proof.
  unfold wordBody. destruct (safeChunkSize this <? length w); [|auto].
  destruct (sliceLoop fuel this w 0 _) as [cs|] eqn:E; [|discriminate].
  now rewrite (sliceLoop_more this w fuel fuel' Hle _ _ _ E).
Qed.

Lemma chunkByWords_more (t : text) (cs : list text) :
  chunkByWords fuel this t = Some cs -> chunkByWords fuel' this t = Some cs.
Proof.
  unfold chunkByWords.
  destruct (forOf (wordBody fuel this) _ _) as [a|] eqn:E; [|discriminate].
  now rewrite (forOf_more _ _ wordBody_more _ _ _ E).
Qed.

Lemma sentenceBody_more (a : acc) (s : text) (a' : acc) :
  sentenceBody fuel this a s = Some a' -> sentenceBody fuel' this a s = Some a'.
Proof.
  unfold sentenceBody. destruct (safeChunkSize this <? length s); [|auto].
  destruct (chunkByWords fuel this s) as [cs|] eqn:E; [|discriminate].
  now rewrite (chunkByWords_more _ _ E).
Qed.

Lemma chunkBySentences_more (t : text) (cs : list text) :
  chunkBySentences fuel this t = Some cs ->
  chunkBySentences fuel' this t = Some cs.
Proof.
  unfold chunkBySentences.
  destruct (forOf (sentenceBody fuel this) _ _) as [a|] eqn:E; [|discriminate].
  now rewrite (forOf_more _ _ sentenceBody_more _ _ _ E).
Qed.

Lemma paragraphBody_more (a : acc) (p : text) (a' : acc) :
  paragraphBody fuel this a p = Some a' ->
  paragraphBody fuel' this a p = Some a'.
Proof.
  unfold paragraphBody. destruct (safeChunkSize this <? length p); [|auto].
  destruct (chunkBySentences fuel this p) as [cs|] eqn:E; [|discriminate].
  now rewrite (chunkBySentences_more _ _ E).
Qed.

Lemma chunk_more (t : text) (cs : list text) :
  chunk fuel this t = Some cs -> chunk fuel' this t = Some cs.
Proof.
  unfold chunk. destruct (length (trim t) =? 0); [auto|].
  destruct (length t <=? safeChunkSize this); [auto|].
  destruct (forOf (paragraphBody fuel this) _ _) as [a|] eqn:E; [|discriminate].
  now rewrite (forOf_more _ _ paragraphBody_more _ _ _ E).
Qed.
End More.

(** [chunk(text)] returns one thing at most. *)
Lemma returns_functional (this : TextChunker) (t : text) (cs cs' : list text) :
  returns this t cs -> returns this t cs' -> cs = cs'.
Proof.
  intros [fuel E] [fuel' E'].
  apply (chunk_more this fuel (Nat.max fuel fuel') (Nat.le_max_l _ _)) in E.
  apply (chunk_more this fuel' (Nat.max fuel fuel') (Nat.le_max_r _ _)) in E'.
  congruence.
Qed.

Lemma safe_positive (m : nat) : 2 <= m -> 0 < safeChunkSize (new m).
Proof.
  intros Hm. unfold new. cbn [safeChunkSize].
  apply Nat.div_str_pos. lia.
Qed.

(** *** A word without white space

    On such a text the three splitting methods return the text itself, and
    [chunk] comes down to the slicing loop. *)

(** Consecutive slices: all of length [n] but the last, which has between
    one and [n] units. *)
Definition slices (n : nat) (cs : list text) : Prop :=
  exists body last, cs = body ++ [last]
    /\ Forall (fun c => length c = n) body
    /\ 1 <= length last <= n.

Lemma sliceLoop_slices (fuel : nat) (this : TextChunker) (word : text) :
  0 < safeChunkSize this ->
  forall i cs, i < length word -> length word <= i + fuel ->
    exists cs', sliceLoop fuel this word i cs = Some (cs ++ cs')
      /\ slices (safeChunkSize this) cs' /\ concat cs' = skipn i word.
Proof.
  intros Hs. induction fuel as [|fuel IH]; intros i cs Hi Hlen; [lia|].
  simpl. apply Nat.ltb_lt in Hi as Hi'. rewrite Hi'.
  set (n := safeChunkSize this) in *.
  assert (Hslice : slice word i (i + n) = firstn n (skipn i word))
    by (unfold slice; f_equal; lia).
  destruct (Nat.lt_ge_cases (i + n) (length word)) as [Hmore|Hdone].
  - destruct (IH (i + n) (cs ++ [slice word i (i + n)])) as (cs' & E & Hcs' & Hcat);
      [lia|lia|].
    exists (slice word i (i + n) :: cs'). rewrite E, <- app_assoc.
    split; [reflexivity|]. split.
    + destruct Hcs' as (body & last & -> & Hbody & Hlast).
      exists (slice word i (i + n) :: body), last.
      split; [reflexivity|]. split; [|exact Hlast].
      constructor; [|exact Hbody].
      rewrite Hslice, length_firstn, length_skipn. lia.
    + simpl. rewrite Hcat, Hslice.
      rewrite <- (firstn_skipn n (skipn i word)) at 2.
      now rewrite skipn_skipn, (Nat.add_comm n i).
  - exists [slice word i (i + n)]. split; [|split].
    + destruct fuel; simpl; apply Nat.ltb_ge in Hdone; now rewrite Hdone.
    + exists [], (slice word i (i + n)).
      split; [reflexivity|]. split; [constructor|].
      rewrite Hslice, length_firstn, length_skipn. lia.
    + simpl. rewrite app_nil_r, Hslice.
      apply firstn_all2. rewrite length_skipn. lia.
Qed.

Lemma slices_nonempty (n : nat) (cs : list text) :
  0 < n -> slices n cs -> filter (fun c => 0 <? length c) cs = cs.
Proof.
  intros Hn (body & last & -> & Hbody & Hlast).
  apply forallb_filter_id. apply forallb_forall. intros c Hc.
  apply Nat.ltb_lt. apply in_app_or in Hc. destruct Hc as [Hc|[<-|[]]]; [|lia].
  rewrite Forall_forall in Hbody. rewrite (Hbody c Hc). exact Hn.
Qed.

Lemma pushCurrent_empty (cs : list text) :
  pushCurrent {| chunks := cs; currentChunk := [] |} = cs.
Proof. reflexivity. Qed.

Section Solid.
Variable fuel : nat.
Variable this : TextChunker.
Variable w : text.
Hypothesis Hsolid : solid w.
Hypothesis Hlong : safeChunkSize this < length w.

Lemma long_ltb : (safeChunkSize this <? length w) = true.
Proof. apply Nat.ltb_lt. exact Hlong. Qed.

Lemma chunkByWords_solid :
  chunkByWords fuel this w = sliceLoop fuel this w 0 [].
Proof.
  unfold chunkByWords. rewrite (split_solid _ _ needsSpace_whiteSpace Hsolid).
  simpl. unfold wordBody.
  rewrite long_ltb. simpl.
  now destruct (sliceLoop fuel this w 0 []).
Qed.

Lemma units_solid (m : matcher) :
  needsSpace m ->
  filter (fun u => 0 <? length u) (map trim (split m w)) = [w].
Proof.
  intros Hm. rewrite (split_solid _ _ Hm Hsolid). simpl.
  rewrite (trim_solid _ Hsolid).
  assert ((0 <? length w) = true) as -> by (apply Nat.ltb_lt; lia).
  reflexivity.
Qed.

Lemma chunkBySentences_solid :
  chunkBySentences fuel this w = sliceLoop fuel this w 0 [].
Proof.
  unfold chunkBySentences, splitIntoSentences.
  rewrite (units_solid _ needsSpace_sentenceBoundary).
  simpl. unfold sentenceBody.
  rewrite long_ltb. simpl.
  rewrite chunkByWords_solid.
  now destruct (sliceLoop fuel this w 0 []).
Qed.

Lemma chunk_solid :
  chunk fuel this w =
  option_map (filter (fun c => 0 <? length c)) (sliceLoop fuel this w 0 []).
Proof.
  unfold chunk. rewrite (trim_solid _ Hsolid).
  assert ((length w =? 0) = false) as -> by (apply Nat.eqb_neq; lia).
  assert ((length w <=? safeChunkSize this) = false) as ->
    by (apply Nat.leb_gt; lia).
  unfold splitIntoParagraphs. rewrite (units_solid _ needsSpace_blankLine).
  simpl. unfold paragraphBody.
  rewrite long_ltb. simpl.
  rewrite chunkBySentences_solid.
  now destruct (sliceLoop fuel this w 0 []).
Qed.
End Solid.

(** A word longer than [safeChunkSize], with a positive [safeChunkSize], is
    returned in slices. *)
Lemma chunk_word (fuel : nat) (this : TextChunker) (w : text) :
  0 < safeChunkSize this -> solid w -> safeChunkSize this < length w ->
  length w <= fuel ->
  exists cs, chunk fuel this w = Some cs
    /\ slices (safeChunkSize this) cs /\ concat cs = w.
Proof.
  intros Hs Hw Hlong Hfuel.
  destruct (sliceLoop_slices fuel this w Hs 0 []) as (cs & E & Hcs & Hcat);
    [lia|lia|].
  exists cs. rewrite (chunk_solid fuel this w Hw Hlong), E. simpl.
  rewrite (slices_nonempty _ _ Hs Hcs). auto.
Qed.

(** With [safeChunkSize = 0] it is never returned. *)
Lemma chunk_word_stuck (fuel : nat) (this : TextChunker) (w : text) :
  safeChunkSize this = 0 -> solid w -> 0 < length w ->
  chunk fuel this w = None.
Proof.
  intros Hs Hw Hlen.
  rewrite (chunk_solid fuel this w Hw); [|lia].
  rewrite sliceLoop_stuck; [reflexivity|exact Hs|exact Hlen].
Qed.

(** *** A text that fits *)

Lemma chunk_short (fuel : nat) (this : TextChunker) (t : text) :
  trim t <> [] -> length t <= safeChunkSize this ->
  chunk fuel this t = Some [trim t].
Proof.
  intros Hne Hlen. unfold chunk.
  destruct (trim t) as [|c s] eqn:E; [congruence|]. simpl.
  apply Nat.leb_le in Hlen. now rewrite Hlen.
Qed.

Lemma chunk_blank (fuel : nat) (this : TextChunker) (t : text) :
  trim t = [] -> chunk fuel this t = Some [].
Proof. intros E. unfold chunk. now rewrite E. Qed.

End ChunkerFacts.

(* ================================================================= *)
(** ** Facts about the audio processor *)

Module AudioFacts.
Import AudioProcessor.

Lemma update_same (fs : path -> option buffer) (p : path) (v : option buffer) :
  update fs p v p = v.
Proof. unfold update. destruct (path_eq_dec p p); congruence. Qed.

Lemma update_other (fs : path -> option buffer) (p q : path) (v : option buffer) :
  q <> p -> update fs p v q = fs q.
Proof. intros H. unfold update. destruct (path_eq_dec q p); congruence. Qed.

(** [fs] hold the buffers [bufs], one each, in order. *)
Definition hold (w : world) (fs : list path) (bufs : list buffer) : Prop :=
  Forall2 (fun f b => files w f = Some b) fs bufs.

(** The transient chunk files numbered from [i] on. *)
Definition chunkFrom (i : nat) (p : path) : Prop :=
  exists j stamp, p = TempChunk j stamp /\ i <= j.

(** The saving loop writes one transient file per buffer and touches nothing
    else. *)
Lemma saveBuffers_spec (e : env) (bufs : list buffer) :
  forall i tempFiles w, exists fs w',
    saveBuffers e i bufs tempFiles w = (Ok (tempFiles ++ fs), w')
    /\ log w' = log w
    /\ hold w' fs bufs
    /\ Forall (chunkFrom i) fs
    /\ (forall p, ~ chunkFrom i p -> files w' p = files w p).
Proof.
  induction bufs as [|b bufs IH]; intros i tempFiles w.
  - exists [], w. rewrite app_nil_r. repeat split; constructor.
  - set (f := TempChunk i (now e (reads w))).
    set (w1 := {| files := update (files w) f (Some b);
                  reads := S (reads w); log := log w |}).
    destruct (IH (S i) (tempFiles ++ [f]) w1)
      as (fs & w' & E & Hlog & Hhold & Hfs & Hsame).
    exists (f :: fs), w'.
    assert (Hf : ~ chunkFrom (S i) f).
    { intros (j & stamp & [= <- _] & Hj). lia. }
    split; [|split; [|split; [|split]]].
    + change (saveBuffers e i (b :: bufs) tempFiles w)
        with (saveBuffers e (S i) bufs (tempFiles ++ [f]) w1).
      rewrite E, <- app_assoc. reflexivity.
    + exact Hlog.
    + constructor; [|exact Hhold].
      rewrite (Hsame f Hf). apply update_same.
    + constructor; [exists i, (now e (reads w)); auto|].
      eapply Forall_impl; [|exact Hfs].
      intros p (j & stamp & -> & Hj). exists j, stamp. split; [reflexivity|lia].
    + intros p Hp. rewrite Hsame.
      * apply update_other. intros ->. apply Hp.
        exists i, (now e (reads w)). auto.
      * intros (j & stamp & -> & Hj). apply Hp.
        exists j, stamp. split; [reflexivity|lia].
Qed.

Lemma hold_same (w w' : world) (fs : list path) (bufs : list buffer) :
  (forall p, In p fs -> files w' p = files w p) ->
  hold w fs bufs -> hold w' fs bufs.
Proof.
  intros Hsame Hhold. induction Hhold as [|f b fs bufs Hf _ IH]; constructor.
  - rewrite Hsame; [exact Hf|now left].
  - apply IH. intros p Hp. apply Hsame. now right.
Qed.

Lemma readAll_spec (w : world) (fs : list path) (bufs : list buffer) :
  hold w fs bufs ->
  forall buffers, readAll fs buffers w = (Ok (buffers ++ bufs), w).
Proof.
  induction 1 as [|f b fs bufs Hf _ IH]; intros buffers; simpl.
  - unfold ret. now rewrite app_nil_r.
  - unfold bind, readFile. rewrite Hf, IH, <- app_assoc. reflexivity.
Qed.

(** Unlinking with the error ignored leaves no file at the path. *)
Lemma discard_spec (f : path) (w : world) :
  exists w1,
    tryCatch (unlink f) (fun _ => ret tt) w = (Ok tt, w1)
    /\ log w1 = log w /\ files w1 f = None
    /\ (forall p, p <> f -> files w1 p = files w p).
Proof.
  unfold tryCatch, unlink, ret. destruct (files w f) eqn:Ef.
  - eexists. split; [reflexivity|]. simpl.
    split; [reflexivity|]. split; [apply update_same|].
    intros p Hp. now apply update_other.
  - exists w. auto.
Qed.

(** Cleaning up removes the files it is given and touches nothing else. *)
Lemma cleanupTempFiles_spec (fs : list path) :
  forall w, exists w',
    cleanupTempFiles fs w = (Ok tt, w')
    /\ log w' = log w
    /\ (forall p, In p fs -> files w' p = None)
    /\ (forall p, ~ In p fs -> files w' p = files w p).
Proof.
  induction fs as [|f fs IH]; intros w.
  - exists w. repeat split; auto. intros p [].
  - destruct (discard_spec f w) as (w1 & E1 & Hlog1 & Hf & Hsame1).
    destruct (IH w1) as (w' & E & Hlog & Hgone & Hsame).
    exists w'. split; [|split; [|split]].
    + simpl. unfold bind. now rewrite E1.
    + congruence.
    + intros p [<-|Hp]; [|now apply Hgone].
      destruct (in_dec path_eq_dec f fs) as [Hin|Hout]; [now apply Hgone|].
      now rewrite Hsame.
    + intros p Hp. simpl in Hp. rewrite Hsame; [|tauto].
      apply Hsame1. intros ->. tauto.
Qed.

Lemma checkFFmpeg_spec (e : env) (w : world) :
  checkFFmpeg e w
  = (Ok (ffmpeg e),
     {| files := files w; reads := reads w; log := log w ++ [Version] |}).
Proof.
  unfold checkFFmpeg, tryCatch, bind, execAsync, ret.
  destruct (ffmpeg e); reflexivity.
Qed.

(** The fall-back writes the concatenation of what the inputs hold. *)
Lemma concatenateFiles_fallback (e : env) (fs : list path) (bufs : list buffer)
    (out : path) (w : world) :
  ffmpeg e = false -> fs <> [] -> hold w fs bufs ->
  concatenateFiles e fs out w
  = (Ok tt,
     {| files := update (files w) out (Some (concat bufs)); reads := reads w;
        log := log w ++ [Version] |}).
Proof.
  intros Hff Hne Hhold. destruct fs as [|f fs]; [congruence|].
  unfold concatenateFiles, bind. rewrite checkFFmpeg_spec, Hff.
  unfold simpleConcatenate, bind.
  rewrite readAll_spec with (bufs := bufs); [reflexivity|exact Hhold].
Qed.

(** What the two strategies of [ffmpeg] amount to: the outcome and the
    commands run, the second only when the first failed. *)
Definition strategies (e : env) (inputs : list path) (listFile out : path)
    : result unit * list command :=
  match demuxer e, filter_complex e with
  | Some _, _ => (Ok tt, [ConcatDemuxer listFile out])
  | None, Some _ =>
      (Ok tt, [ConcatDemuxer listFile out; FilterComplex inputs out])
  | None, None =>
      (Throw (FFmpegFailed (ExecFailed (FilterComplex inputs out))),
       [ConcatDemuxer listFile out; FilterComplex inputs out])
  end.

Lemma concatenateWithFFmpeg_spec (e : env) (inputs : list path) (out : path)
    (w : world) :
  ffmpeg e = true ->
  let listFile := ConcatList (now e (reads w)) in
  exists w',
    concatenateWithFFmpeg e inputs out w
    = (fst (strategies e inputs listFile out), w')
    /\ log w' = log w ++ snd (strategies e inputs listFile out)
    /\ files w' listFile = None
    /\ (forall p, p <> listFile -> p <> out -> files w' p = files w p).
Proof.
  intros Hff listFile.
  set (w2 := {| files := update (files w) listFile (Some (listContent e inputs));
                reads := S (reads w); log := log w |}).
  change (concatenateWithFFmpeg e inputs out w)
    with (tryFinally
            (tryCatch (execAsync e (ConcatDemuxer listFile out))
               (fun _ => tryCatch (execAsync e (FilterComplex inputs out))
                           (fun retryError => throw (FFmpegFailed retryError))))
            (tryCatch (unlink listFile) (fun _ => ret tt)) w2).
  unfold tryFinally.
  assert (Hrun : exists w3,
    tryCatch (execAsync e (ConcatDemuxer listFile out))
      (fun _ => tryCatch (execAsync e (FilterComplex inputs out))
                  (fun retryError => throw (FFmpegFailed retryError))) w2
    = (fst (strategies e inputs listFile out), w3)
    /\ log w3 = log w ++ snd (strategies e inputs listFile out)
    /\ (forall p, p <> listFile -> p <> out -> files w3 p = files w p)).
  { unfold tryCatch, execAsync, throw, strategies. rewrite Hff.
    destruct (demuxer e), (filter_complex e); simpl;
      eexists; (split; [reflexivity|]); simpl;
      (split; [now rewrite <- ?app_assoc|]);
      intros p Hl Ho; rewrite ?update_other; auto. }
  destruct Hrun as (w3 & -> & Hlog3 & Hsame3).
  destruct (discard_spec listFile w3) as (w4 & -> & Hlog4 & Hgone & Hsame4).
  exists w4. split; [reflexivity|]. split; [congruence|]. split; [exact Hgone|].
  intros p Hl Ho. rewrite Hsame4; auto.
Qed.

(** *** [concatenateBuffers] with two buffers or more *)

Section Several.
Variable e : env.
Variable b1 b2 : buffer.
Variable rest : list buffer.
Variable outputPath : string.
Variable w : world.

Let bufs := b1 :: b2 :: rest.
Let out := Caller outputPath.

Lemma chunkFrom_not_out (fs : list path) :
  Forall (chunkFrom 0) fs -> ~ In out fs.
Proof.
  intros Hfs Hin. rewrite Forall_forall in Hfs.
  destruct (Hfs out Hin) as (j & stamp & [=] & _).
Qed.

(** Without [ffmpeg]: the bytes of the buffers in order, and no transient
    file left. *)
Lemma concatenateBuffers_fallback :
  ffmpeg e = false ->
  exists fs w',
    concatenateBuffers e bufs outputPath w = (Ok out, w')
    /\ files w' out = Some (concat bufs)
    /\ log w' = log w ++ [Version]
    /\ (forall p, In p fs -> files w' p = None)
    /\ length fs = length bufs.
Proof.
  intros Hff.
  destruct (saveBuffers_spec e bufs 0 [] w)
    as (fs & w1 & E1 & Hlog1 & Hhold & Hfs & _).
  assert (Hne : fs <> []) by (inversion Hhold; congruence).
  pose proof (concatenateFiles_fallback e fs bufs out w1 Hff Hne Hhold) as E2.
  set (w2 := {| files := update (files w1) out (Some (concat bufs));
                reads := reads w1; log := log w1 ++ [Version] |}) in E2.
  destruct (cleanupTempFiles_spec fs w2) as (w3 & E3 & Hlog3 & Hgone & Hsame).
  exists fs, w3. split; [|split; [|split; [|split]]].
  - unfold concatenateBuffers, bufs, ensureTempDir, bind, tryCatch, ret.
    fold bufs. simpl app in E1. rewrite E1. fold out. rewrite E2, E3.
    reflexivity.
  - rewrite Hsame; [apply update_same|now apply chunkFrom_not_out].
  - rewrite Hlog3. simpl. now rewrite Hlog1.
  - exact Hgone.
  - apply (Forall2_length Hhold).
Qed.

(** With [ffmpeg]: the outcome of its strategies, wrapped when it is an
    error; the commands run are the probe and those of the strategies.  The
    list file is removed in both cases, the chunk files when the strategies
    succeed; when they fail the chunk files stay, with the buffers in them. *)
Lemma concatenateBuffers_ffmpeg :
  ffmpeg e = true ->
  exists fs listFile w',
    concatenateBuffers e bufs outputPath w
    = (match fst (strategies e fs listFile out) with
       | Ok _ => Ok out
       | Throw err => Throw (ConcatenateFailed err)
       end, w')
    /\ log w' = log w ++ Version :: snd (strategies e fs listFile out)
    /\ files w' listFile = None
    /\ match fst (strategies e fs listFile out) with
       | Ok _ => forall p, In p fs -> files w' p = None
       | Throw _ => hold w' fs bufs
       end.
Proof.
  intros Hff.
  destruct (saveBuffers_spec e bufs 0 [] w)
    as (fs & w1 & E1 & Hlog1 & Hhold & Hfs & _).
  assert (Hne : fs <> []) by (inversion Hhold; congruence).
  set (w2 := {| files := files w1; reads := reads w1;
                log := log w1 ++ [Version] |}).
  destruct (concatenateWithFFmpeg_spec e fs out w2 Hff)
    as (w3 & E3 & Hlog3 & Hlist & Hsame).
  set (listFile := ConcatList (now e (reads w2))) in *.
  assert (E2 : concatenateFiles e fs out w1
               = (fst (strategies e fs listFile out), w3)).
  { destruct fs as [|f fs']; [congruence|].
    unfold concatenateFiles, bind. rewrite checkFFmpeg_spec, Hff. exact E3. }
  exists fs, listFile.
  assert (Hlog : log w3 = log w ++ Version :: snd (strategies e fs listFile out)).
  { rewrite Hlog3. simpl. rewrite Hlog1, <- app_assoc. reflexivity. }
  assert (Hchunk : forall p, In p fs -> p <> listFile /\ p <> out).
  { intros p Hp. rewrite Forall_forall in Hfs.
    destruct (Hfs p Hp) as (j & stamp & -> & _). split; discriminate. }
  unfold concatenateBuffers, bufs, ensureTempDir, bind, tryCatch, ret, throw.
  fold bufs. simpl app in E1. rewrite E1. fold out. rewrite E2.
  destruct (fst (strategies e fs listFile out)) as [[]|err].
  - destruct (cleanupTempFiles_spec fs w3) as (w4 & -> & Hlog4 & Hgone & Hkept).
    exists w4. split; [reflexivity|]. split; [congruence|].
    split; [|exact Hgone].
    rewrite Hkept; [exact Hlist|].
    intros Hin. destruct (Hchunk _ Hin) as [H _]. now apply H.
  - exists w3. split; [reflexivity|]. split; [exact Hlog|].
    split; [exact Hlist|].
    apply hold_same with (w := w1); [|exact Hhold].
    intros p Hp. destruct (Hchunk p Hp) as [Hl Ho].
    now rewrite (Hsame p Hl Ho).
Qed.
End Several.

End AudioFacts.

(* ================================================================= *)
(** ** The chunker against its specification *)

Module ChunkerSpec.
Import JS JSFacts TextChunker ChunkerFacts.

Lemma validateChunks_within (this : TextChunker) (cs : list text) :
  within (maxChunkSize this) cs -> validateChunks this cs = true.
Proof.
  intros H. unfold validateChunks. apply forallb_forall.
  unfold within in H. rewrite Forall_forall in H. intros c Hc. apply Nat.leb_le. now apply H.
Qed.

Lemma returns_total (m : nat) (t : text) :
  2 <= m -> exists cs, returns (new m) t cs.
Proof.
  intros Hm.
  destruct (chunk_total (length t) (new m) (safe_positive m Hm) t (le_n _))
    as [cs E].
  exists cs, (length t). exact E.
Qed.

(** The example of the specification: two paragraphs, the first of two
    sentences. *)
Definition twoParagraphs : text :=
  lit "Para one sentence one. Para one sentence two." ++ [LF; LF]
  ++ lit "Para two sentence one.".

(** Two paragraphs of nine units each. *)
Definition nineAndNine : text := lit "aaaaaaaaa" ++ [LF; LF] ++ lit "bbbbbbbbb".

(** C1: for a positive [maxChunkSize], every chunk [chunk(text)] returns is
    at most [maxChunkSize] long, so that [validateChunks] accepts the result;
    and from [maxChunkSize = 2] on a result is returned for every text. *)
Theorem chunk_within_maxChunkSize (m : nat) (t : text) :
  0 < m ->
  (2 <= m -> exists cs, returns (new m) t cs)
  /\ (forall cs, returns (new m) t cs ->
        Forall (fun c => length c <= m) cs
        /\ validateChunks (new m) cs = true).
Proof.
  intros Hm. split; [apply returns_total|].
  intros cs [fuel E].
  assert (H : within m cs)
    by (eapply chunk_within; [apply safe_lt_max; exact Hm|exact E]).
  split; [exact H|]. now apply validateChunks_within.
Qed.

Lemma chunk_within_maxChunkSize_witness :
  0 < 40
  /\ returns (new 40) twoParagraphs
       [lit "Para one sentence one."; lit "Para one sentence two.";
        lit "Para two sentence one."]
  /\ Forall (fun c => length c <= 40)
       [lit "Para one sentence one."; lit "Para one sentence two.";
        lit "Para two sentence one."].
Proof.
  assert (H : 0 < 40) by lia.
  assert (R : returns (new 40) twoParagraphs
                [lit "Para one sentence one."; lit "Para one sentence two.";
                 lit "Para two sentence one."])
    by (exists 0; reflexivity).
  split; [exact H|]. split; [exact R|].
  exact (proj1 (proj2 (chunk_within_maxChunkSize 40 twoParagraphs H) _ R)).
Defined.

(** C10: every chunk [chunk(text)] returns is at most [safeChunkSize + 1]
    long, and the bound is reached: the paragraph loop tests for one joining
    unit and joins with two line feeds. *)
Theorem chunk_within_safe_succ (m : nat) (t : text) :
  0 < m ->
  (2 <= m -> exists cs, returns (new m) t cs)
  /\ (forall cs, returns (new m) t cs ->
        Forall (fun c => length c <= safeChunkSize (new m) + 1) cs)
  /\ (returns (new 20) nineAndNine [nineAndNine]
      /\ length nineAndNine = safeChunkSize (new 20) + 1).
Proof.
  intros Hm. split; [apply returns_total|]. split.
  - intros cs [fuel E]. eapply chunk_within; [|exact E]. lia.
  - split; [exists 0|]; reflexivity.
Qed.

Lemma chunk_within_safe_succ_witness :
  0 < 40
  /\ returns (new 40) twoParagraphs
       [lit "Para one sentence one."; lit "Para one sentence two.";
        lit "Para two sentence one."]
  /\ Forall (fun c => length c <= safeChunkSize (new 40) + 1)
       [lit "Para one sentence one."; lit "Para one sentence two.";
        lit "Para two sentence one."].
Proof.
  assert (H : 0 < 40) by lia.
  assert (R : returns (new 40) twoParagraphs
                [lit "Para one sentence one."; lit "Para one sentence two.";
                 lit "Para two sentence one."])
    by (exists 0; reflexivity).
  split; [exact H|]. split; [exact R|].
  exact (proj1 (proj2 (chunk_within_safe_succ 40 twoParagraphs H)) _ R).
Defined.

(** C2: [chunk(text)] returns for every text when [maxChunkSize] is at least
    [2]; with [maxChunkSize = 1], where [safeChunkSize] is [0], the slicing
    loop does not advance and [chunk] never returns on the text [a]. *)
Theorem chunk_terminates_from_two :
  (forall m t, 2 <= m -> exists cs, returns (new m) t cs)
  /\ (safeChunkSize (new 1) = 0 /\ forall cs, ~ returns (new 1) (lit "a") cs).
Proof.
  split; [apply returns_total|]. split; [reflexivity|].
  intros cs [fuel E].
  rewrite chunk_word_stuck in E; [discriminate|reflexivity| |simpl; lia].
  repeat constructor.
Qed.

Lemma chunk_terminates_from_two_witness :
  2 <= 40 /\ exists cs, returns (new 40) twoParagraphs cs.
Proof.
  assert (H : 2 <= 40) by lia.
  split; [exact H|].
  exact (proj1 chunk_terminates_from_two 40 twoParagraphs H).
Defined.

(** C8: a word longer than [maxChunkSize] is returned in consecutive slices
    of [safeChunkSize] units, the last one possibly shorter, which
    concatenated give the word, when [maxChunkSize] is at least [2]; with
    [maxChunkSize = 1] nothing is returned for the word [ab]. *)
Theorem long_word_slices :
  (forall m w, 2 <= m -> solid w -> m < length w ->
     exists cs, returns (new m) w cs
       /\ slices (safeChunkSize (new m)) cs /\ concat cs = w)
  /\ (solid (lit "ab") /\ maxChunkSize (new 1) < length (lit "ab")
      /\ forall cs, ~ returns (new 1) (lit "ab") cs).
Proof.
  split.
  - intros m w Hm Hw Hlong.
    pose proof (safe_positive m Hm) as Hs.
    pose proof (safe_lt_max m) as Hlt.
    destruct (chunk_word (length w) (new m) w Hs Hw) as (cs & E & H);
      [lia|lia|].
    exists cs. split; [now exists (length w)|exact H].
  - split; [repeat constructor|]. split; [simpl; lia|].
    intros cs [fuel E].
    rewrite chunk_word_stuck in E; [discriminate|reflexivity| |simpl; lia].
    repeat constructor.
Qed.

Lemma long_word_slices_witness :
  2 <= 5 /\ solid (lit "abcdefghij") /\ 5 < length (lit "abcdefghij")
  /\ exists cs, returns (new 5) (lit "abcdefghij") cs
       /\ slices (safeChunkSize (new 5)) cs /\ concat cs = lit "abcdefghij".
Proof.
  assert (H1 : 2 <= 5) by lia.
  assert (H2 : solid (lit "abcdefghij")) by (repeat constructor).
  assert (H3 : 5 < length (lit "abcdefghij")) by (simpl; lia).
  split; [exact H1|]. split; [exact H2|]. split; [exact H3|].
  exact (proj1 long_word_slices 5 (lit "abcdefghij") H1 H2 H3).
Defined.

(** C3, as stated, fails on the empty text, for which nothing is returned,
    and on a padded text whose paragraphs are rejoined with two line feeds. *)
Lemma chunk_trimmed_short_counterexample :
  (length (trim []) <= safeChunkSize (new 1000)
   /\ forall fuel, chunk fuel (new 1000) [] <> Some [trim []])
  /\ (let t := lit "a" ++ [LF; LF; LF] ++ lit "b " in
      length (trim t) <= safeChunkSize (new 6)
      /\ forall fuel, chunk fuel (new 6) t <> Some [trim t]).
Proof.
  split; (split; [vm_compute; lia|intros fuel; vm_compute; discriminate]).
Qed.

End ChunkerSpec.

(* ================================================================= *)
(** ** The concatenator against its specification *)

Module ConcatenatorSpec.
Import AudioProcessor AudioFacts.

(** [ffmpeg] installed, both strategies failing. *)
Definition failing : env :=
  {| now := fun k => k; ffmpeg := true; demuxer := None;
     filter_complex := None; listContent := fun _ => [] |}.

(** [ffmpeg] not installed. *)
Definition absent : env :=
  {| now := fun k => k; ffmpeg := false; demuxer := None;
     filter_complex := None; listContent := fun _ => [] |}.

(** [ffmpeg] installed, the first strategy failing, the second writing [b]. *)
Definition recovering (b : buffer) : env :=
  {| now := fun k => k; ffmpeg := true; demuxer := None;
     filter_complex := Some b; listContent := fun _ => [] |}.

(** What [try { .. } catch (error) { throw new Error(..) }] lets through. *)
Lemma wrapped {A : Type} (m : M A) (w : world) :
  fst (tryCatch m (fun error => throw (ConcatenateFailed error)) w)
  <> Throw NoAudioBuffers.
Proof.
  unfold tryCatch, throw. destruct (m w) as [[a|err] w']; discriminate.
Qed.

(** Whatever the buffers, two or more, when both strategies of [ffmpeg] fail
    the chunk files are left behind with the buffers in them. *)
Lemma chunk_files_stay (e : env) (b1 b2 : buffer) (rest : list buffer)
    (outputPath : string) (w : world) :
  ffmpeg e = true -> demuxer e = None -> filter_complex e = None ->
  exists fs w' cause,
    concatenateBuffers e (b1 :: b2 :: rest) outputPath w
    = (Throw (ConcatenateFailed cause), w')
    /\ hold w' fs (b1 :: b2 :: rest).
Proof.
  intros Hff Hd Hf.
  destruct (concatenateBuffers_ffmpeg e b1 b2 rest outputPath w Hff)
    as (fs & listFile & w' & E & _ & _ & Hfiles).
  unfold strategies in E, Hfiles. rewrite Hd, Hf in E, Hfiles. simpl in E, Hfiles.
  eauto.
Qed.

(** C4: with two buffers and both strategies of [ffmpeg] failing,
    [concatenateBuffers] throws and the list file is gone, but the two
    transient chunk files are still there: they are removed on the
    successful path only. *)
Theorem temp_chunks_left_on_failure :
  let r := concatenateBuffers failing [[x01]; [x02]] "out.mp3" initial in
  fst r = Throw (ConcatenateFailed (FFmpegFailed (ExecFailed
            (FilterComplex [TempChunk 0 0; TempChunk 1 1] (Caller "out.mp3")))))
  /\ files (snd r) (ConcatList 2) = None
  /\ files (snd r) (TempChunk 0 0) = Some [x01]
  /\ files (snd r) (TempChunk 1 1) = Some [x02].
Proof. vm_compute. repeat split. Qed.

(** C5: [concatenateBuffers] throws the error of the missing input exactly
    when it is given no buffer, and then it has written no file, read no
    clock and run no command. *)
Theorem no_buffers (e : env) (bufs : list buffer) (outputPath : string)
    (w : world) :
  (fst (concatenateBuffers e bufs outputPath w) = Throw NoAudioBuffers
   <-> bufs = [])
  /\ concatenateBuffers e [] outputPath w = (Throw NoAudioBuffers, w).
Proof.
  split; [|reflexivity]. split.
  - destruct bufs as [|b1 [|b2 rest]]; [reflexivity|discriminate|].
    intros H. exfalso. revert H. apply wrapped.
  - intros ->. reflexivity.
Qed.

(** C6: without [ffmpeg], [concatenateBuffers] on one audio buffer or more
    throws nothing and leaves at the output path the bytes of the buffers
    appended in order, which are not empty.  An audio buffer holds at least
    one byte: every provider throws on an empty response instead of
    returning it; the writes are those of a writable file system. *)
Theorem fallback_appends_in_order (e : env) (bufs : list buffer)
    (outputPath : string) (w : world) :
  bufs <> [] -> Forall (fun b => b <> []) bufs -> ffmpeg e = false ->
  exists w',
    concatenateBuffers e bufs outputPath w = (Ok (Caller outputPath), w')
    /\ files w' (Caller outputPath) = Some (concat bufs)
    /\ concat bufs <> [].
Proof.
  intros Hne Hbytes Hff.
  assert (Hcat : concat bufs <> []).
  { destruct bufs as [|b bufs']; [congruence|].
    inversion Hbytes as [|? ? Hb _]; subst.
    simpl. intros E. apply app_eq_nil in E. tauto. }
  destruct bufs as [|b1 [|b2 rest]]; [congruence| |].
  - eexists. split; [reflexivity|]. split; [|exact Hcat].
    simpl. rewrite app_nil_r. apply update_same.
  - destruct (concatenateBuffers_fallback e b1 b2 rest outputPath w Hff)
      as (fs & w' & E & Hout & _).
    exists w'. auto.
Qed.

Lemma fallback_appends_in_order_witness :
  ([[x01]; [x02; x03]] : list buffer) <> []
  /\ Forall (fun b : buffer => b <> []) [[x01]; [x02; x03]]
  /\ ffmpeg absent = false
  /\ exists w',
       concatenateBuffers absent [[x01]; [x02; x03]] "out.mp3" initial
       = (Ok (Caller "out.mp3"), w')
       /\ files w' (Caller "out.mp3") = Some (concat [[x01]; [x02; x03]])
       /\ concat [[x01]; [x02; x03]] <> [].
Proof.
  assert (H1 : ([[x01]; [x02; x03]] : list buffer) <> []) by discriminate.
  assert (H2 : Forall (fun b : buffer => b <> []) [[x01]; [x02; x03]])
    by (repeat constructor; discriminate).
  assert (H3 : ffmpeg absent = false) by reflexivity.
  split; [exact H1|]. split; [exact H2|]. split; [exact H3|].
  exact (fallback_appends_in_order absent [[x01]; [x02; x03]] "out.mp3"
           initial H1 H2 H3).
Defined.

(** C7: with [ffmpeg] installed and two buffers or more, when the concat
    demuxer fails the filter_complex command is run, once and after it;
    [concatenateBuffers] then returns if that command succeeds, and it throws
    its error of failed concatenation exactly when both commands fail. *)
Theorem retry_once (e : env) (bufs : list buffer) (outputPath : string)
    (w : world) :
  2 <= length bufs -> ffmpeg e = true ->
  let r := concatenateBuffers e bufs outputPath w in
  (demuxer e = None ->
     exists listFile inputs,
       log (snd r)
       = log w ++ [Version; ConcatDemuxer listFile (Caller outputPath);
                   FilterComplex inputs (Caller outputPath)])
  /\ (demuxer e = None -> filter_complex e <> None ->
        fst r = Ok (Caller outputPath))
  /\ ((exists cause, fst r = Throw (ConcatenateFailed cause))
      <-> demuxer e = None /\ filter_complex e = None).
Proof.
  intros Hlen Hff r.
  destruct bufs as [|b1 [|b2 rest]]; [simpl in Hlen; lia|simpl in Hlen; lia|].
  destruct (concatenateBuffers_ffmpeg e b1 b2 rest outputPath w Hff)
    as (fs & listFile & w' & E & Hlog & _).
  subst r. rewrite E. simpl fst. simpl snd. rewrite Hlog.
  unfold strategies.
  destruct (demuxer e) as [b|], (filter_complex e) as [b'|]; simpl;
    (split; [|split; [|split]]);
    try discriminate; try congruence; try (intros; eauto; fail).
  all: solve [intros (cause & [=]) | intros [[=] _] | intros [_ [=]]].
Qed.

Lemma retry_once_witness :
  2 <= length ([[x01]; [x02]] : list buffer)
  /\ ffmpeg (recovering [x03]) = true
  /\ let r := concatenateBuffers (recovering [x03]) [[x01]; [x02]] "out.mp3"
                initial in
     (demuxer (recovering [x03]) = None ->
        exists listFile inputs,
          log (snd r)
          = log initial ++ [Version; ConcatDemuxer listFile (Caller "out.mp3");
                            FilterComplex inputs (Caller "out.mp3")])
     /\ (demuxer (recovering [x03]) = None ->
         filter_complex (recovering [x03]) <> None ->
         fst r = Ok (Caller "out.mp3"))
     /\ ((exists cause, fst r = Throw (ConcatenateFailed cause))
         <-> demuxer (recovering [x03]) = None
             /\ filter_complex (recovering [x03]) = None).
Proof.
  assert (H1 : 2 <= length ([[x01]; [x02]] : list buffer)) by (simpl; lia).
  assert (H2 : ffmpeg (recovering [x03]) = true) by reflexivity.
  split; [exact H1|]. split; [exact H2|].
  exact (retry_once (recovering [x03]) [[x01]; [x02]] "out.mp3" initial H1 H2).
Defined.

End ConcatenatorSpec.

(* ================================================================= *)
(** ** What the chunker keeps of the text *)

Module ChunkerContent.
Import JS JSFacts TextChunker ChunkerFacts.

(** The units of a text that are not white space, in order. *)
Definition strip (s : text) : text := filter (fun c => negb (isWhiteSpace c)) s.

Lemma strip_app (s s' : text) : strip (s ++ s') = strip s ++ strip s'.
Proof. apply filter_app. Qed.

Lemma strip_blank (ws : text) : blank ws -> strip ws = [].
Proof.
  induction 1 as [|c ws Hc _ IH]; simpl; [reflexivity|].
  now rewrite Hc.
Qed.

Lemma strip_nil_blank (s : text) : strip s = [] -> blank s.
Proof.
  induction s as [|c s IH]; simpl; [constructor|].
  destruct (isWhiteSpace c) eqn:Hc; simpl; [|discriminate].
  intros H. constructor; [exact Hc|exact (IH H)].
Qed.

Lemma strip_trimStart (s : text) : strip (trimStart s) = strip s.
Proof.
  induction s as [|c s IH]; simpl; [reflexivity|].
  destruct (isWhiteSpace c) eqn:Hc; simpl; [exact IH|].
  now rewrite Hc.
Qed.

Lemma strip_trim (s : text) : strip (trim s) = strip s.
Proof.
  unfold trim, trimEnd, strip.
  rewrite filter_rev. fold (strip (trimStart (rev (trimStart s)))).
  rewrite strip_trimStart. unfold strip. rewrite filter_rev, rev_involutive.
  apply strip_trimStart.
Qed.

Lemma trimStart_blank (ws : text) : blank ws -> trimStart ws = [].
Proof. induction 1 as [|c ws Hc _ IH]; simpl; [reflexivity|now rewrite Hc]. Qed.

Lemma trim_blank (ws : text) : blank ws -> trim ws = [].
Proof. intros H. unfold trim, trimEnd. now rewrite (trimStart_blank ws H). Qed.

Lemma strip_trim_nil (s : text) : trim s = [] -> strip s = [].
Proof. intros E. now rewrite <- strip_trim, E. Qed.

(** *** Separators hold white space only *)

Lemma lastLF_spaces (s : text) : lastLF s <= spaces s.
Proof.
  induction s as [|c s IH]; simpl; [lia|].
  destruct (isWhiteSpace c); [|lia].
  destruct (lastLF s); [destruct (c =? LF)%N|]; lia.
Qed.

Lemma inSpaces_blankLine : inSpaces blankLine.
Proof.
  intros before s n. unfold blankLine. destruct s as [|c s]; [discriminate|].
  destruct (c =? LF)%N eqn:E; [|discriminate].
  pose proof (lastLF_spaces s). destruct (lastLF s); [discriminate|].
  intros [= <-]. simpl. rewrite (LF_isWhiteSpace c E). lia.
Qed.

Lemma inSpaces_whiteSpace : inSpaces whiteSpace.
Proof.
  intros before s n. unfold whiteSpace.
  destruct (spaces s); [discriminate|]. intros [= <-]. lia.
Qed.

Lemma spaces_cons (k : nat) (c : char) (s : text) :
  S k <= spaces (c :: s) -> isWhiteSpace c = true /\ k <= spaces s.
Proof. simpl. destruct (isWhiteSpace c); [split; [reflexivity|lia]|lia]. Qed.

Lemma splitLoop_strip (m : matcher) :
  inSpaces m ->
  forall rest before piece skip, skip <= spaces rest ->
    strip (concat (splitLoop m before piece skip rest))
    = strip (rev piece) ++ strip rest.
Proof.
  intros Hm. induction rest as [|c rest IH]; intros before piece skip Hskip.
  - simpl. now rewrite !app_nil_r.
  - simpl splitLoop. destruct skip as [|k].
    + destruct (m before (c :: rest)) as [[|k]|] eqn:E.
      * rewrite IH by lia. simpl rev. rewrite strip_app, <- app_assoc.
        now rewrite <- strip_app.
      * apply Hm in E. apply spaces_cons in E. destruct E as [Hc Hk].
        simpl concat. rewrite strip_app, IH by exact Hk.
        simpl. now rewrite Hc.
      * rewrite IH by lia. simpl rev. rewrite strip_app, <- app_assoc.
        now rewrite <- strip_app.
    + apply spaces_cons in Hskip. destruct Hskip as [Hc Hk].
      rewrite IH by exact Hk. simpl. now rewrite Hc.
Qed.

Lemma split_strip (m : matcher) (s : text) :
  inSpaces m -> strip (concat (split m s)) = strip s.
Proof.
  intros Hm. unfold split. rewrite (splitLoop_strip m Hm s [] [] 0) by lia.
  reflexivity.
Qed.

(** Trimming the pieces and dropping the empty ones loses no such unit. *)
Lemma units_strip (l : list text) :
  strip (concat (filter (fun u => 0 <? length u) (map trim l)))
  = strip (concat l).
Proof.
  induction l as [|x l IH]; simpl; [reflexivity|].
  rewrite strip_app, <- IH, <- (strip_trim x).
  destruct (trim x) as [|c u]; [reflexivity|].
  change (0 <? length (c :: u)) with true. cbv iota.
  change (concat ((c :: u) :: ?r)) with ((c :: u) ++ concat r).
  apply strip_app.
Qed.

Lemma nonempty_concat (l : list text) :
  concat (filter (fun c => 0 <? length c) l) = concat l.
Proof.
  induction l as [|x l IH]; simpl; [reflexivity|].
  destruct x; simpl; [exact IH|]. now rewrite IH.
Qed.

(** *** The loops *)

(** What an accumulator holds: its chunks and then its buffer. *)
Definition content (a : acc) : text :=
  strip (concat (chunks a)) ++ strip (currentChunk a).

Lemma pushCurrent_content (a : acc) : strip (concat (pushCurrent a)) = content a.
Proof.
  unfold pushCurrent, content.
  destruct (trim (currentChunk a)) as [|c u] eqn:E; simpl.
  - now rewrite (strip_trim_nil _ E), app_nil_r.
  - rewrite concat_app, strip_app, <- E. simpl.
    now rewrite app_nil_r, strip_trim.
Qed.

Lemma saveCurrent_content (a : acc) :
  strip (concat (chunks (saveCurrent a))) = content a
  /\ strip (currentChunk (saveCurrent a)) = [].
Proof.
  unfold saveCurrent, content.
  destruct (trim (currentChunk a)) as [|c u] eqn:E; simpl.
  - rewrite (strip_trim_nil _ E), app_nil_r. auto.
  - rewrite concat_app, strip_app, <- E. simpl.
    rewrite app_nil_r, strip_trim. auto.
Qed.

Lemma descend_content (a : acc) (cs : list text) (u : text) :
  strip (concat cs) = strip u ->
  content {| chunks := chunks (saveCurrent a) ++ cs;
             currentChunk := currentChunk (saveCurrent a) |}
  = content a ++ strip u.
Proof.
  intros E. destruct (saveCurrent_content a) as [E1 E2].
  unfold content at 1. simpl.
  now rewrite concat_app, strip_app, E1, E2, E, app_nil_r.
Qed.

Lemma flush_content (a : acc) (u : text) :
  content {| chunks := pushCurrent a; currentChunk := u |} = content a ++ strip u.
Proof. unfold content at 1. simpl. now rewrite pushCurrent_content. Qed.

Lemma append_content (sep : text) (a : acc) (u : text) :
  blank sep -> content (append sep a u) = content a ++ strip u.
Proof.
  intros Hsep. unfold content, append. simpl.
  rewrite !strip_app, <- app_assoc.
  destruct (0 <? length (currentChunk a)); [rewrite (strip_blank sep Hsep)|];
    reflexivity.
Qed.

Lemma forOf_content {A : Type} (body : acc -> A -> option acc) (f : A -> text) :
  (forall a x a', body a x = Some a' -> content a' = content a ++ f x) ->
  forall xs a a', forOf body a xs = Some a' ->
    content a' = content a ++ concat (map f xs).
Proof.
  intros Hbody. induction xs as [|x xs IH]; intros a a'; simpl.
  - intros [= <-]. now rewrite app_nil_r.
  - destruct (body a x) as [a1|] eqn:E; [|discriminate].
    intros E'. rewrite (IH _ _ E'), (Hbody _ _ _ E), <- app_assoc. reflexivity.
Qed.

Lemma strip_concat (l : list text) : strip (concat l) = concat (map strip l).
Proof.
  induction l as [|x l IH]; simpl; [reflexivity|].
  now rewrite strip_app, IH.
Qed.

Lemma sliceLoop_concat (fuel : nat) (this : TextChunker) (word : text) :
  forall i cs cs', sliceLoop fuel this word i cs = Some cs' ->
    concat cs' = concat cs ++ skipn i word.
Proof.
  induction fuel as [|fuel IH]; intros i cs cs'; simpl;
    destruct (i <? length word) eqn:E; try discriminate.
  - intros [= <-]. apply Nat.ltb_ge in E. now rewrite skipn_all2, app_nil_r.
  - intros H. rewrite (IH _ _ _ H), concat_app. simpl.
    rewrite app_nil_r, <- app_assoc. f_equal. unfold slice.
    replace (i + safeChunkSize this - i) with (safeChunkSize this) by lia.
    etransitivity; [|apply (firstn_skipn (safeChunkSize this) (skipn i word))].
    f_equal. rewrite skipn_skipn. f_equal. lia.
  - intros [= <-]. apply Nat.ltb_ge in E. now rewrite skipn_all2, app_nil_r.
Qed.

Section Loops.
Variable fuel : nat.
Variable this : TextChunker.

Lemma wordBody_content (a : acc) (w : text) (a' : acc) :
  wordBody fuel this a w = Some a' -> content a' = content a ++ strip w.
Proof.
  unfold wordBody. destruct (safeChunkSize this <? length w).
  - destruct (sliceLoop fuel this w 0 _) as [cs|] eqn:E; [|discriminate].
    intros [= <-]. apply sliceLoop_concat in E. simpl in E.
    destruct (saveCurrent_content a) as [E1 E2].
    unfold content at 1. simpl.
    now rewrite E, strip_app, E1, E2, app_nil_r.
  - destruct (_ <? _); intros [= <-].
    + apply flush_content.
    + apply append_content. repeat constructor.
Qed.

Lemma chunkByWords_content (t : text) (cs : list text) :
  chunkByWords fuel this t = Some cs -> strip (concat cs) = strip t.
Proof.
  unfold chunkByWords.
  destruct (forOf _ _ _) as [a|] eqn:E; [|discriminate].
  intros [= <-]. rewrite pushCurrent_content.
  rewrite (forOf_content _ strip wordBody_content _ _ _ E).
  simpl. rewrite <- strip_concat. apply split_strip, inSpaces_whiteSpace.
Qed.

Lemma sentenceBody_content (a : acc) (s : text) (a' : acc) :
  sentenceBody fuel this a s = Some a' -> content a' = content a ++ strip s.
Proof.
  unfold sentenceBody. destruct (safeChunkSize this <? length s).
  - destruct (chunkByWords fuel this s) as [cs|] eqn:E; [|discriminate].
    intros [= <-]. apply descend_content. now apply chunkByWords_content.
  - destruct (_ <? _); intros [= <-].
    + apply flush_content.
    + apply append_content. repeat constructor.
Qed.

Lemma chunkBySentences_content (t : text) (cs : list text) :
  chunkBySentences fuel this t = Some cs -> strip (concat cs) = strip t.
Proof.
  unfold chunkBySentences.
  destruct (forOf _ _ _) as [a|] eqn:E; [|discriminate].
  intros [= <-]. rewrite pushCurrent_content.
  rewrite (forOf_content _ strip sentenceBody_content _ _ _ E).
  simpl. rewrite <- strip_concat. unfold splitIntoSentences.
  rewrite units_strip. apply split_strip, inSpaces_sentenceBoundary.
Qed.

Lemma paragraphBody_content (a : acc) (p : text) (a' : acc) :
  paragraphBody fuel this a p = Some a' -> content a' = content a ++ strip p.
Proof.
  unfold paragraphBody. destruct (safeChunkSize this <? length p).
  - destruct (chunkBySentences fuel this p) as [cs|] eqn:E; [|discriminate].
    intros [= <-]. apply descend_content. now apply chunkBySentences_content.
  - destruct (_ <? _); intros [= <-].
    + apply flush_content.
    + apply append_content. repeat constructor.
Qed.

Lemma chunk_content (t : text) (cs : list text) :
  chunk fuel this t = Some cs -> strip (concat cs) = strip t.
Proof.
  unfold chunk. destruct (length (trim t) =? 0) eqn:Et.
  - intros [= <-]. simpl. symmetry. apply strip_trim_nil.
    apply Nat.eqb_eq in Et. now apply length_zero_iff_nil.
  - destruct (length t <=? safeChunkSize this).
    + intros [= <-]. simpl concat. rewrite app_nil_r. apply strip_trim.
    + destruct (forOf _ _ _) as [a|] eqn:E; [|discriminate].
      intros [= <-]. rewrite nonempty_concat, pushCurrent_content.
      rewrite (forOf_content _ strip paragraphBody_content _ _ _ E).
      simpl. rewrite <- strip_concat. unfold splitIntoParagraphs.
      rewrite units_strip. apply split_strip, inSpaces_blankLine.
Qed.
End Loops.

(** *** The shape of a chunk *)

(** Not empty, and with no white space at either end. *)
Definition tidy (c : text) : Prop := c <> [] /\ trim c = c.

Lemma trimStart_idem (s : text) : trimStart (trimStart s) = trimStart s.
Proof.
  induction s as [|c s IH]; simpl; [reflexivity|].
  destruct (isWhiteSpace c) eqn:Hc; [exact IH|]. simpl. now rewrite Hc.
Qed.

Lemma trimStart_snoc (x : text) (c : char) :
  isWhiteSpace c = false -> trimStart (x ++ [c]) = trimStart x ++ [c].
Proof.
  intros Hc. induction x as [|a x IH]; simpl.
  - now rewrite Hc.
  - destruct (isWhiteSpace a); [exact IH|reflexivity].
Qed.

Lemma trimStart_fixed (s : text) :
  trimStart s = s ->
  s = [] \/ exists c s', s = c :: s' /\ isWhiteSpace c = false.
Proof.
  destruct s as [|c s]; [now left|]. simpl.
  destruct (isWhiteSpace c) eqn:Hc; [|right; eauto].
  intros E. pose proof (trimStart_length s) as H. rewrite E in H. simpl in H. lia.
Qed.

Lemma trimEnd_keeps_start (u : text) :
  trimStart u = u -> trimStart (trimEnd u) = trimEnd u.
Proof.
  intros Hu. destruct (trimStart_fixed u Hu) as [->|(c & u' & -> & Hc)];
    [reflexivity|].
  unfold trimEnd. simpl rev. rewrite (trimStart_snoc _ c Hc), rev_app_distr.
  simpl. now rewrite Hc.
Qed.

Lemma trim_idem (s : text) : trim (trim s) = trim s.
Proof.
  unfold trim at 1. unfold trim.
  rewrite (trimEnd_keeps_start (trimStart s) (trimStart_idem s)).
  unfold trimEnd. now rewrite rev_involutive, trimStart_idem.
Qed.

Lemma tidy_trim (s : text) : (0 <? length (trim s)) = true -> tidy (trim s).
Proof.
  intros H. apply Nat.ltb_lt in H. split; [|apply trim_idem].
  intros E. rewrite E in H. simpl in H. lia.
Qed.

Lemma tidy_solid (s : text) : solid s -> s <> [] -> tidy s.
Proof. intros Hs Hne. split; [exact Hne|now apply trim_solid]. Qed.

Lemma solid_firstn (n : nat) (s : text) : solid s -> solid (firstn n s).
Proof.
  intros Hs. revert n. induction Hs as [|c s Hc _ IH]; intros [|n]; simpl;
    try constructor; [exact Hc|apply IH].
Qed.

Lemma solid_skipn (n : nat) (s : text) : solid s -> solid (skipn n s).
Proof.
  intros Hs. revert n. induction Hs as [|c s Hc Hs IH]; intros [|n]; simpl;
    [constructor|constructor|now constructor|apply IH].
Qed.

(** The pieces of [split(/\s+/)] hold no white space. *)
Lemma splitLoop_words (rest before piece : text) (skip : nat) :
  solid piece -> Forall solid (splitLoop whiteSpace before piece skip rest).
Proof.
  revert before piece skip.
  induction rest as [|c rest IH]; intros before piece skip Hp; simpl.
  - constructor; [|constructor]. now apply Forall_rev.
  - destruct skip as [|k]; [|now apply IH].
    unfold whiteSpace at 1. simpl spaces.
    destruct (isWhiteSpace c) eqn:Hc.
    + constructor; [now apply Forall_rev|]. apply IH. constructor.
    + apply IH. now constructor.
Qed.

Lemma sliceLoop_tidy (fuel : nat) (this : TextChunker) (word : text) :
  solid word ->
  forall i cs cs', Forall tidy cs ->
    sliceLoop fuel this word i cs = Some cs' -> Forall tidy cs'.
Proof.
  intros Hw. induction fuel as [|fuel IH]; intros i cs cs' Hcs; simpl;
    destruct (i <? length word) eqn:Hi; try discriminate;
    try (now intros [= <-]).
  apply Nat.ltb_lt in Hi.
  destruct (Nat.eq_dec (safeChunkSize this) 0) as [H0|Hpos].
  - rewrite (sliceLoop_stuck fuel this word H0); [discriminate|lia].
  - apply IH. apply Forall_app. split; [exact Hcs|].
    constructor; [|constructor]. apply tidy_solid.
    + unfold slice. now apply solid_firstn, solid_skipn.
    + intros E. apply (f_equal (@length char)) in E. unfold slice in E.
      rewrite length_firstn, length_skipn in E. simpl in E. lia.
Qed.

Lemma tidy_pushCurrent (a : acc) :
  Forall tidy (chunks a) -> Forall tidy (pushCurrent a).
Proof.
  intros H. unfold pushCurrent.
  destruct (0 <? length (trim (currentChunk a))) eqn:E; [|exact H].
  apply Forall_app. split; [exact H|].
  constructor; [now apply tidy_trim|constructor].
Qed.

Lemma tidy_saveCurrent (a : acc) :
  Forall tidy (chunks a) -> Forall tidy (chunks (saveCurrent a)).
Proof.
  intros H. unfold saveCurrent.
  destruct (0 <? length (trim (currentChunk a))) eqn:E; [|exact H].
  simpl. apply Forall_app. split; [exact H|].
  constructor; [now apply tidy_trim|constructor].
Qed.

Lemma forOf_inv_on {A S : Type} (Q : A -> Prop) (P : S -> Prop)
    (body : S -> A -> option S) :
  (forall s x s', Q x -> P s -> body s x = Some s' -> P s') ->
  forall xs, Forall Q xs ->
    forall s s', P s -> forOf body s xs = Some s' -> P s'.
Proof.
  intros Hbody xs Hxs. induction Hxs as [|x xs Hx _ IH]; intros s s' Hs; simpl.
  - now intros [= <-].
  - destruct (body s x) as [s1|] eqn:E; [|discriminate].
    apply IH. eapply Hbody; eauto.
Qed.

Section Tidy.
Variable fuel : nat.
Variable this : TextChunker.

Lemma wordBody_tidy (a : acc) (w : text) (a' : acc) :
  solid w -> Forall tidy (chunks a) ->
  wordBody fuel this a w = Some a' -> Forall tidy (chunks a').
Proof.
  intros Hw Ha. unfold wordBody. destruct (safeChunkSize this <? length w).
  - destruct (sliceLoop fuel this w 0 _) as [cs|] eqn:E; [|discriminate].
    intros [= <-]. simpl.
    eapply sliceLoop_tidy; [exact Hw| |exact E]. now apply tidy_saveCurrent.
  - destruct (_ <? _); intros [= <-]; simpl; [now apply tidy_pushCurrent|exact Ha].
Qed.

Lemma chunkByWords_tidy (t : text) (cs : list text) :
  chunkByWords fuel this t = Some cs -> Forall tidy cs.
Proof.
  unfold chunkByWords.
  destruct (forOf _ _ _) as [a|] eqn:E; [|discriminate].
  intros [= <-]. apply tidy_pushCurrent.
  eapply (forOf_inv_on solid (fun a => Forall tidy (chunks a)));
    [apply wordBody_tidy| | |exact E].
  - apply splitLoop_words. constructor.
  - constructor.
Qed.

Lemma sentenceBody_tidy (a : acc) (s : text) (a' : acc) :
  Forall tidy (chunks a) ->
  sentenceBody fuel this a s = Some a' -> Forall tidy (chunks a').
Proof.
  intros Ha. unfold sentenceBody. destruct (safeChunkSize this <? length s).
  - destruct (chunkByWords fuel this s) as [cs|] eqn:E; [|discriminate].
    intros [= <-]. simpl. apply Forall_app.
    split; [now apply tidy_saveCurrent|now apply (chunkByWords_tidy s)].
  - destruct (_ <? _); intros [= <-]; simpl; [now apply tidy_pushCurrent|exact Ha].
Qed.

Lemma chunkBySentences_tidy (t : text) (cs : list text) :
  chunkBySentences fuel this t = Some cs -> Forall tidy cs.
Proof.
  unfold chunkBySentences.
  destruct (forOf _ _ _) as [a|] eqn:E; [|discriminate].
  intros [= <-]. apply tidy_pushCurrent.
  eapply (forOf_inv (fun a => Forall tidy (chunks a))); [| |exact E].
  - intros a0 s a1. apply sentenceBody_tidy.
  - constructor.
Qed.

Lemma paragraphBody_tidy (a : acc) (p : text) (a' : acc) :
  Forall tidy (chunks a) ->
  paragraphBody fuel this a p = Some a' -> Forall tidy (chunks a').
Proof.
  intros Ha. unfold paragraphBody. destruct (safeChunkSize this <? length p).
  - destruct (chunkBySentences fuel this p) as [cs|] eqn:E; [|discriminate].
    intros [= <-]. simpl. apply Forall_app.
    split; [now apply tidy_saveCurrent|now apply (chunkBySentences_tidy p)].
  - destruct (_ <? _); intros [= <-]; simpl; [now apply tidy_pushCurrent|exact Ha].
Qed.

Lemma chunk_tidy (t : text) (cs : list text) :
  chunk fuel this t = Some cs -> Forall tidy cs.
Proof.
  unfold chunk. destruct (length (trim t) =? 0) eqn:Et.
  - intros [= <-]. constructor.
  - destruct (length t <=? safeChunkSize this).
    + intros [= <-]. constructor; [|constructor]. apply tidy_trim.
      apply Nat.eqb_neq in Et. apply Nat.ltb_lt. lia.
    + destruct (forOf _ _ _) as [a|] eqn:E; [|discriminate].
      intros [= <-]. apply incl_Forall with (l1 := pushCurrent a).
      * intros c Hc. apply filter_In in Hc. tauto.
      * apply tidy_pushCurrent.
        eapply (forOf_inv (fun a => Forall tidy (chunks a))); [| |exact E].
        -- intros a0 p a1. apply paragraphBody_tidy.
        -- constructor.
Qed.
End Tidy.

End ChunkerContent.

(* ================================================================= *)
(** ** The statistics of the chunker *)

Module Stats.
Import JS TextChunker.

(** The object [getStats] returns. *)
Record stats := {
  totalCharacters : nat;
  totalChunks : nat;
  averageChunkSize : nat;
  maxChunkSize : nat;
  minChunkSize : nat
}.

(** [chunks.reduce((sum, c) => sum + c.length, 0)] *)
Definition total (chunks : list text) : nat :=
  fold_left (fun sum c => sum + length c) chunks 0.

(** [Math.round(sum / n)] for [n > 0]: the nearest integer, a half rounded
    up.  The source divides in double precision; the model rounds the exact
    quotient. *)
Definition round (sum n : nat) : nat := (2 * sum + n) / (2 * n).

(** [Math.min(...xs)] for a list that is not empty. *)
Definition minimum (xs : list nat) : nat :=
  match xs with
  | [] => 0
  | x :: xs' => fold_left Nat.min xs' x
  end.

(** [Math.max(...xs)] for a list that is not empty. *)
Definition maximum (xs : list nat) : nat :=
  match xs with
  | [] => 0
  | x :: xs' => fold_left Nat.max xs' x
  end.

(** [getStats(text)] *)
Definition getStats (fuel : nat) (this : TextChunker) (t : text) : option stats :=
  match chunk fuel this t with
  | Some chunks =>
      let some := 0 <? length chunks in
      Some {| totalCharacters := length t;
              totalChunks := length chunks;
              averageChunkSize :=
                if some then round (total chunks) (length chunks) else 0;
              maxChunkSize :=
                if some then maximum (map (fun c => length c) chunks) else 0;
              minChunkSize :=
                if some then minimum (map (fun c => length c) chunks) else 0 |}
  | None => None
  end.

End Stats.

(* ================================================================= *)
(** ** More about the chunker *)

Module ChunkerExtra.
Import JS JSFacts TextChunker ChunkerFacts ChunkerContent.

(** Two paragraphs, the first of two sentences. *)
Definition sample : text :=
  lit "One two. Three four." ++ [LF; LF] ++ lit "Five six.".

Lemma sample_returns :
  returns (new 12) sample [lit "One two."; lit "Three four."; lit "Five six."].
Proof. exists 0. reflexivity. Qed.

(** X1: whatever [chunk(text)] returns, the units of the chunks that are not
    white space are those of the text, in the same order: nothing is lost,
    repeated or moved, only white space changes. *)
Theorem chunk_keeps_content (this : TextChunker) (t : text) (cs : list text) :
  returns this t cs -> strip (concat cs) = strip t.
Proof. intros [fuel E]. exact (chunk_content fuel this t cs E). Qed.

Lemma chunk_keeps_content_witness :
  returns (new 12) sample [lit "One two."; lit "Three four."; lit "Five six."]
  /\ strip (concat [lit "One two."; lit "Three four."; lit "Five six."])
     = strip sample.
Proof.
  split; [exact sample_returns|].
  exact (chunk_keeps_content (new 12) sample _ sample_returns).
Defined.

(** X2: every chunk [chunk(text)] returns is non-empty and has no white space
    at its start or end ([c.trim()] is [c]). *)
Theorem chunks_are_tidy (this : TextChunker) (t : text) (cs : list text) :
  returns this t cs -> Forall (fun c => c <> [] /\ trim c = c) cs.
Proof. intros [fuel E]. exact (chunk_tidy fuel this t cs E). Qed.

Lemma chunks_are_tidy_witness :
  returns (new 12) sample [lit "One two."; lit "Three four."; lit "Five six."]
  /\ Forall (fun c => c <> [] /\ trim c = c)
       [lit "One two."; lit "Three four."; lit "Five six."].
Proof.
  split; [exact sample_returns|].
  exact (chunks_are_tidy (new 12) sample _ sample_returns).
Defined.

(** X3: [chunk(text)] returns the empty list exactly when the text holds
    white space only (the empty text included). *)
Theorem empty_result_iff_blank (this : TextChunker) (t : text) :
  returns this t [] <-> blank t.
Proof.
  split.
  - intros [fuel E]. apply strip_nil_blank.
    now rewrite <- (chunk_content fuel this t [] E).
  - intros H. exists 0. apply chunk_blank. now apply trim_blank.
Qed.

Lemma within_concat (n : nat) (cs : list text) :
  within n cs -> length (concat cs) <= length cs * n.
Proof.
  induction 1 as [|c cs Hc _ IH]; simpl; [lia|].
  rewrite length_app. lia.
Qed.

(** X4: a text with [k] units that are not white space comes back in at
    least [k / maxChunkSize] chunks; so one with more than [maxChunkSize]
    such units is never returned as a single chunk. *)
Theorem chunks_count (m : nat) (t : text) (cs : list text) :
  0 < m -> returns (new m) t cs ->
  length (strip t) <= length cs * m
  /\ (m < length (strip t) -> 2 <= length cs).
Proof.
  intros Hm [fuel E].
  assert (H : length (strip t) <= length cs * m).
  { rewrite <- (chunk_content fuel (new m) t cs E).
    etransitivity; [apply filter_length_le|].
    apply within_concat. eapply chunk_within; [|exact E].
    now apply safe_lt_max. }
  split; [exact H|]. intros Hlong.
  destruct cs as [|c1 [|c2 cs]]; simpl in *; lia.
Qed.

Lemma chunks_count_witness :
  0 < 12
  /\ returns (new 12) sample [lit "One two."; lit "Three four."; lit "Five six."]
  /\ length (strip sample) <= 3 * 12.
Proof.
  assert (H : 0 < 12) by lia.
  split; [exact H|]. split; [exact sample_returns|].
  exact (proj1 (chunks_count 12 sample _ H sample_returns)).
Defined.

(** X5: a returned chunk that is no longer than [safeChunkSize] is left as
    it is when chunked again: [chunk(c)] is [[c]]. *)
Theorem chunk_again (this : TextChunker) (t : text) (cs : list text)
    (c : text) (fuel : nat) :
  returns this t cs -> In c cs -> length c <= safeChunkSize this ->
  chunk fuel this c = Some [c].
Proof.
  intros [fuel' E] Hc Hlen.
  pose proof (chunk_tidy fuel' this t cs E) as H.
  rewrite Forall_forall in H. destruct (H c Hc) as [Hne Htrim].
  rewrite <- Htrim at 2. apply chunk_short; [|exact Hlen].
  now rewrite Htrim.
Qed.

Lemma chunk_again_witness :
  returns (new 12) sample [lit "One two."; lit "Three four."; lit "Five six."]
  /\ In (lit "Five six.")
        [lit "One two."; lit "Three four."; lit "Five six."]
  /\ length (lit "Five six.") <= safeChunkSize (new 12)
  /\ chunk 0 (new 12) (lit "Five six.") = Some [lit "Five six."].
Proof.
  assert (H1 : In (lit "Five six.")
                 [lit "One two."; lit "Three four."; lit "Five six."])
    by (simpl; auto).
  assert (H2 : length (lit "Five six.") <= safeChunkSize (new 12))
    by (vm_compute; lia).
  split; [exact sample_returns|]. split; [exact H1|]. split; [exact H2|].
  exact (chunk_again (new 12) sample _ (lit "Five six.") 0 sample_returns H1 H2).
Defined.

End ChunkerExtra.

Module StatsExtra.
Import JS JSFacts TextChunker ChunkerFacts ChunkerContent Stats.

Lemma fold_min (xs : list nat) (x : nat) :
  fold_left Nat.min xs x <= x
  /\ Forall (fun y => fold_left Nat.min xs x <= y) xs.
Proof.
  revert x. induction xs as [|y xs IH]; intros x; simpl; [split; [lia|constructor]|].
  destruct (IH (Nat.min x y)) as [H1 H2]. split; [lia|].
  constructor; [lia|exact H2].
Qed.

Lemma fold_max (xs : list nat) (x : nat) :
  x <= fold_left Nat.max xs x
  /\ Forall (fun y => y <= fold_left Nat.max xs x) xs.
Proof.
  revert x. induction xs as [|y xs IH]; intros x; simpl; [split; [lia|constructor]|].
  destruct (IH (Nat.max x y)) as [H1 H2]. split; [lia|].
  constructor; [lia|exact H2].
Qed.

(** The greatest is one of the numbers, or the first. *)
Lemma fold_max_in (xs : list nat) (x : nat) :
  fold_left Nat.max xs x = x \/ In (fold_left Nat.max xs x) xs.
Proof.
  revert x. induction xs as [|y xs IH]; intros x; simpl; [now left|].
  destruct (IH (Nat.max x y)) as [E|H]; [|now right; right].
  rewrite E. destruct (Nat.max_spec x y) as [[_ ->]|[_ ->]]; auto.
Qed.

Lemma fold_min_in (xs : list nat) (x : nat) :
  fold_left Nat.min xs x = x \/ In (fold_left Nat.min xs x) xs.
Proof.
  revert x. induction xs as [|y xs IH]; intros x; simpl; [now left|].
  destruct (IH (Nat.min x y)) as [E|H]; [|now right; right].
  rewrite E. destruct (Nat.min_spec x y) as [[_ ->]|[_ ->]]; auto.
Qed.

Lemma total_from (chunks : list text) (n : nat) :
  fold_left (fun sum c => sum + length c) chunks n
  = n + list_sum (map (fun c => length c) chunks).
Proof.
  revert n. induction chunks as [|c chunks IH]; intros n; simpl; [lia|].
  rewrite IH. lia.
Qed.

Lemma list_sum_between (lo hi : nat) (xs : list nat) :
  Forall (fun x => lo <= x <= hi) xs ->
  length xs * lo <= list_sum xs <= length xs * hi.
Proof. induction 1 as [|x xs Hx _ IH]; simpl; lia. Qed.

Lemma round_between (lo hi sum n : nat) :
  0 < n -> n * lo <= sum <= n * hi -> lo <= round sum n <= hi.
Proof.
  intros Hn [Hlo Hhi]. unfold round. split.
  - apply Nat.div_le_lower_bound; lia.
  - assert ((2 * sum + n) / (2 * n) < S hi); [|lia].
    apply Nat.Div0.div_lt_upper_bound. lia.
Qed.

Lemma extremes (l : list nat) :
  l <> [] ->
  Forall (fun y => minimum l <= y <= maximum l) l
  /\ In (minimum l) l /\ In (maximum l) l.
Proof.
  destruct l as [|x xs]; [congruence|]. intros _.
  simpl minimum. simpl maximum.
  destruct (fold_min xs x) as [Hm1 Hm2], (fold_max xs x) as [HM1 HM2].
  split; [|split].
  - constructor; [lia|].
    rewrite Forall_forall in *. intros y Hy.
    specialize (Hm2 y Hy). specialize (HM2 y Hy). simpl in *. lia.
  - destruct (fold_min_in xs x) as [->|H]; [now left|now right].
  - destruct (fold_max_in xs x) as [->|H]; [now left|now right].
Qed.

(** X6: in what [getStats(text)] returns, the least chunk size is at most
    the average, the average at most the greatest, and the greatest at most
    the [maxChunkSize] of the chunker; the number of chunks is [0] exactly
    for a text of white space only, and otherwise no size is [0]. *)
Theorem getStats_ordered (m fuel : nat) (t : text) (s : stats) :
  0 < m -> getStats fuel (new m) t = Some s ->
  minChunkSize s <= averageChunkSize s <= maxChunkSize s
  /\ maxChunkSize s <= m
  /\ (totalChunks s = 0 <-> blank t)
  /\ (0 < totalChunks s -> 0 < minChunkSize s).
Proof.
  intros Hm. unfold getStats.
  destruct (chunk fuel (new m) t) as [chunks|] eqn:E; [|discriminate].
  intros [= <-]. simpl.
  pose proof (chunk_within m fuel (new m) t chunks (safe_lt_max m Hm) E) as Hin.
  pose proof (chunk_tidy fuel (new m) t chunks E) as Htidy.
  assert (Hblank : length chunks = 0 <-> blank t).
  { split.
    - intros H0. apply length_zero_iff_nil in H0. subst chunks.
      apply strip_nil_blank. now rewrite <- (chunk_content fuel (new m) t [] E).
    - intros Hb. rewrite (chunk_blank fuel (new m) t (trim_blank t Hb)) in E.
      now injection E as <-. }
  destruct chunks as [|c chunks]; [simpl; repeat split; try lia; apply Hblank|].
  change (0 <? length (c :: chunks)) with true. cbv iota.
  remember (c :: chunks) as cs eqn:Ecs.
  remember (@map (list char) nat (fun c => length c) cs) as xs eqn:Exs.
  assert (Hlen : length xs = length cs) by (subst xs; apply length_map).
  assert (Hpos : 0 < length cs) by (subst cs; simpl; lia).
  destruct (extremes xs) as (Hall & Hmin & Hmax).
  { intros ->. simpl in Hlen. lia. }
  split; [|split; [|split]].
  - apply round_between; [exact Hpos|].
    unfold total. rewrite total_from. simpl Nat.add. rewrite <- Exs, <- Hlen.
    now apply list_sum_between.
  - subst xs. apply in_map_iff in Hmax. destruct Hmax as (c' & <- & Hc').
    unfold within in Hin. rewrite Forall_forall in Hin. now apply Hin.
  - exact Hblank.
  - intros _. subst xs. apply in_map_iff in Hmin. destruct Hmin as (c' & <- & Hc').
    rewrite Forall_forall in Htidy. destruct (Htidy c' Hc') as [Hne _].
    destruct c'; [congruence|simpl; lia].
Qed.

Lemma getStats_ordered_witness :
  0 < 12
  /\ getStats 0 (new 12) ChunkerExtra.sample
     = Some {| totalCharacters := 31; totalChunks := 3; averageChunkSize := 9;
               maxChunkSize := 11; minChunkSize := 8 |}
  /\ 8 <= 9 <= 11 /\ 11 <= 12.
Proof.
  assert (H : 0 < 12) by lia.
  assert (E : getStats 0 (new 12) ChunkerExtra.sample
              = Some {| totalCharacters := 31; totalChunks := 3;
                        averageChunkSize := 9; maxChunkSize := 11;
                        minChunkSize := 8 |}) by reflexivity.
  split; [exact H|]. split; [exact E|].
  destruct (getStats_ordered 12 0 ChunkerExtra.sample _ H E) as (H1 & H2 & _).
  exact (conj H1 H2).
Defined.

End StatsExtra.

(* ================================================================= *)
(** ** The check of an audio buffer *)

Module AudioCheck.
Import AudioProcessor.

(** A byte read with the [ascii] encoding: its highest bit is unset. *)
Definition ascii7 (b : byte) : N := N.land (Byte.to_N b) 127.

(** [buffer.slice(0, n).toString('hex').startsWith(sig)], [sig] standing for
    whole bytes. *)
Fixpoint startsWith (sig buffer : list byte) : bool :=
  match sig, buffer with
  | [], _ => true
  | s :: sig', b :: buffer' => Byte.eqb s b && startsWith sig' buffer'
  | _ :: _, [] => false
  end.

(** [buffer.slice(0, n).toString('ascii') === word], [word] of [n] letters. *)
Definition asciiIs (word : list N) (buffer : list byte) : bool :=
  (length word <=? length buffer)
  && forallb (fun p => (fst p =? ascii7 (snd p))%N)
       (combine word (firstn (length word) buffer)).

(** [validateAudioBuffer(buffer)] *)
Definition validateAudioBuffer (buffer : buffer) : bool :=
  match buffer with
  | [] => false
  | _ =>
      if startsWith [xff; xfb] (firstn 3 buffer)
         || startsWith [xff; xf3] (firstn 3 buffer)
         || asciiIs [73; 68; 51]%N buffer          (* ID3 *)
      then true
      else if asciiIs [82; 73; 70; 70]%N buffer    (* RIFF *)
      then true
      else 100 <? length buffer
  end.

End AudioCheck.

(* ================================================================= *)
(** ** More facts about the audio processor *)

Module AudioMore.
Import AudioProcessor AudioFacts AudioCheck.

(** *** Saving and reading back *)

Lemma saveBuffers_names (e : env) (bufs : list buffer) :
  forall i tempFiles w, exists fs w',
    saveBuffers e i bufs tempFiles w = (Ok (tempFiles ++ fs), w')
    /\ NoDup fs
    /\ Forall (chunkFrom i) fs
    /\ hold w' fs bufs
    /\ log w' = log w
    /\ (forall p, ~ In p fs -> files w' p = files w p).
Proof.
  induction bufs as [|b bufs IH]; intros i tempFiles w.
  - exists [], w. rewrite app_nil_r. repeat split; constructor.
  - set (f := TempChunk i (now e (reads w))).
    set (w1 := {| files := update (files w) f (Some b);
                  reads := S (reads w); log := log w |}).
    destruct (IH (S i) (tempFiles ++ [f]) w1)
      as (fs & w' & E & Hnd & Hfs & Hhold & Hlog & Hsame).
    assert (Hf : ~ In f fs).
    { intros Hin. rewrite Forall_forall in Hfs.
      destruct (Hfs f Hin) as (j & stamp & [= <- _] & Hj). lia. }
    exists (f :: fs), w'. repeat split.
    + change (saveBuffers e i (b :: bufs) tempFiles w)
        with (saveBuffers e (S i) bufs (tempFiles ++ [f]) w1).
      rewrite E, <- app_assoc. reflexivity.
    + now constructor.
    + constructor; [exists i, (now e (reads w)); auto|].
      eapply Forall_impl; [|exact Hfs].
      intros p (j & stamp & -> & Hj). exists j, stamp. split; [reflexivity|lia].
    + constructor; [|exact Hhold].
      rewrite (Hsame f Hf). apply update_same.
    + exact Hlog.
    + intros p Hp. simpl in Hp. rewrite Hsame by tauto.
      apply update_other. intros ->. tauto.
Qed.

(** The reading loop stops at the first file that is missing. *)
Lemma readAll_missing (inputs : list path) (p : path) (w : world) :
  In p inputs -> files w p = None ->
  forall buffers, exists q,
    readAll inputs buffers w = (Throw (NoSuchFile q), w)
    /\ In q inputs /\ files w q = None.
Proof.
  induction inputs as [|f inputs IH]; intros Hin Hp buffers; [destruct Hin|].
  simpl. unfold bind, readFile.
  destruct (files w f) as [b|] eqn:Ef.
  - destruct Hin as [->|Hin]; [congruence|].
    destruct (IH Hin Hp (buffers ++ [b])) as (q & E & Hq & Hnone).
    exists q. rewrite E. auto.
  - exists f. auto.
Qed.

(** *** The steps of a call *)

Section Steps.
Variable e : env.
Variable b1 b2 : buffer.
Variable rest : list buffer.
Variable outputPath : string.
Variable w : world.

(** The call with two buffers or more, after its saving loop. *)
Lemma concatenateBuffers_steps :
  exists fs w1,
    saveBuffers e 0 (b1 :: b2 :: rest) [] w = (Ok fs, w1)
    /\ NoDup fs /\ Forall (chunkFrom 0) fs
    /\ hold w1 fs (b1 :: b2 :: rest)
    /\ log w1 = log w
    /\ (forall p, ~ In p fs -> files w1 p = files w p)
    /\ concatenateBuffers e (b1 :: b2 :: rest) outputPath w
       = match concatenateFiles e fs (Caller outputPath) w1 with
         | (Ok _, w2) =>
             match cleanupTempFiles fs w2 with
             | (Ok _, w3) => (Ok (Caller outputPath), w3)
             | (Throw err, w3) => (Throw (ConcatenateFailed err), w3)
             end
         | (Throw err, w2) => (Throw (ConcatenateFailed err), w2)
         end.
Proof.
  destruct (saveBuffers_names e (b1 :: b2 :: rest) 0 [] w)
    as (fs & w1 & E & Hnd & Hfs & Hhold & Hlog & Hsame).
  simpl app in E. exists fs, w1. repeat split; try assumption.
  unfold concatenateBuffers, ensureTempDir, bind, tryCatch, ret, throw.
  rewrite E.
  destruct (concatenateFiles e fs (Caller outputPath) w1) as [[[]|err] w2];
    [|reflexivity].
  destruct (cleanupTempFiles fs w2) as [[[]|err] w3]; reflexivity.
Qed.
End Steps.

End AudioMore.

(* ================================================================= *)
(** ** More about the audio processor *)

Module ConcatenatorExtra.
Import AudioProcessor AudioFacts AudioCheck AudioMore.

(** A file system with three files, the second and the third the transient
    chunk files of an earlier call. *)
Definition shelf : world :=
  {| files := update (update (update (fun _ => None)
                (Caller "keep.mp3") (Some [x07]))
                (TempChunk 0 5) (Some [x01]))
                (TempChunk 1 5) (Some [x02; x03]);
     reads := 0; log := [] |}.

(** [ffmpeg] installed, both strategies failing, a clock that stands still. *)
Definition broken : env :=
  {| now := fun _ => 0; ffmpeg := true; demuxer := None;
     filter_complex := None; listContent := fun _ => [] |}.

(** [ffmpeg] not installed. *)
Definition missing : env :=
  {| now := fun _ => 0; ffmpeg := false; demuxer := None;
     filter_complex := None; listContent := fun _ => [] |}.

(** X7: [cleanupTempFiles] never throws, whether the files exist or not;
    afterwards none of them exists, every other file is as it was, and no
    command was run. *)
Theorem cleanup_never_throws (fs : list path) (w : world) :
  exists w',
    cleanupTempFiles fs w = (Ok tt, w')
    /\ log w' = log w
    /\ (forall p, In p fs -> files w' p = None)
    /\ (forall p, ~ In p fs -> files w' p = files w p).
Proof. apply cleanupTempFiles_spec. Qed.

(** X8: [simpleConcatenate] is all or nothing: when every input file exists
    the output holds their contents in order and nothing else changes; when
    one is missing it throws for the first missing one and the output is not
    written. *)
Theorem simpleConcatenate_all_or_nothing (inputs : list path) (out : path)
    (w : world) :
  (forall bufs, hold w inputs bufs ->
     simpleConcatenate inputs out w
     = (Ok tt, {| files := update (files w) out (Some (concat bufs));
                  reads := reads w; log := log w |}))
  /\ (forall p, In p inputs -> files w p = None ->
        exists q, simpleConcatenate inputs out w = (Throw (NoSuchFile q), w)
                  /\ In q inputs /\ files w q = None).
Proof.
  split.
  - intros bufs H. unfold simpleConcatenate, bind.
    now rewrite (readAll_spec w inputs bufs H []).
  - intros p Hin Hp. unfold simpleConcatenate, bind.
    destruct (readAll_missing inputs p w Hin Hp []) as (q & -> & Hq).
    eauto.
Qed.

Lemma simpleConcatenate_all_or_nothing_witness :
  (hold shelf [TempChunk 0 5; TempChunk 1 5] [[x01]; [x02; x03]]
   /\ simpleConcatenate [TempChunk 0 5; TempChunk 1 5] (Caller "out.mp3") shelf
      = (Ok tt, {| files := update (files shelf) (Caller "out.mp3")
                              (Some (concat [[x01]; [x02; x03]]));
                   reads := reads shelf; log := log shelf |}))
  /\ (In (TempChunk 2 5) [TempChunk 0 5; TempChunk 2 5]
      /\ files shelf (TempChunk 2 5) = None
      /\ exists q,
           simpleConcatenate [TempChunk 0 5; TempChunk 2 5] (Caller "out.mp3")
             shelf = (Throw (NoSuchFile q), shelf)
           /\ In q [TempChunk 0 5; TempChunk 2 5] /\ files shelf q = None).
Proof.
  assert (H1 : hold shelf [TempChunk 0 5; TempChunk 1 5] [[x01]; [x02; x03]])
    by (repeat constructor).
  assert (H2 : In (TempChunk 2 5) [TempChunk 0 5; TempChunk 2 5])
    by (simpl; auto).
  assert (H3 : files shelf (TempChunk 2 5) = None) by reflexivity.
  split.
  - split; [exact H1|].
    exact (proj1 (simpleConcatenate_all_or_nothing
                    [TempChunk 0 5; TempChunk 1 5] (Caller "out.mp3") shelf)
             _ H1).
  - split; [exact H2|]. split; [exact H3|].
    exact (proj2 (simpleConcatenate_all_or_nothing
                    [TempChunk 0 5; TempChunk 2 5] (Caller "out.mp3") shelf)
             _ H2 H3).
Defined.

(** X10: when [concatenateBuffers] returns for two buffers or more, none of
    the transient files it created is left: every chunk file its saving loop
    wrote is gone and, when [ffmpeg] is installed, so is the list file. *)
Theorem success_removes_transient_files (e : env) (bufs : list buffer)
    (outputPath : string) (w w' : world) (r : path) :
  2 <= length bufs ->
  concatenateBuffers e bufs outputPath w = (Ok r, w') ->
  exists fs w1,
    saveBuffers e 0 bufs [] w = (Ok fs, w1)
    /\ length fs = length bufs
    /\ (forall p, In p fs -> files w' p = None)
    /\ (ffmpeg e = true -> files w' (ConcatList (now e (reads w1))) = None).
Proof.
  intros Hlen.
  destruct bufs as [|b1 [|b2 rest]]; [simpl in Hlen; lia|simpl in Hlen; lia|].
  destruct (concatenateBuffers_steps e b1 b2 rest outputPath w)
    as (fs & w1 & E1 & _ & Hfs & Hhold & _ & _ & ->).
  intros E. exists fs, w1. split; [exact E1|].
  split; [apply (Forall2_length Hhold)|].
  assert (Hne : fs <> []) by (inversion Hhold; congruence).
  assert (Hlist : ffmpeg e = true ->
            files (snd (concatenateFiles e fs (Caller outputPath) w1))
              (ConcatList (now e (reads w1))) = None).
  { intros Hff. destruct fs as [|f fs']; [congruence|].
    unfold concatenateFiles, bind. rewrite checkFFmpeg_spec, Hff.
    set (w2 := {| files := files w1; reads := reads w1;
                  log := log w1 ++ [Version] |}).
    destruct (concatenateWithFFmpeg_spec e (f :: fs') (Caller outputPath) w2 Hff)
      as (w3 & -> & _ & Hgone & _).
    exact Hgone. }
  destruct (concatenateFiles e fs (Caller outputPath) w1) as [[[]|err] w2];
    [|discriminate].
  destruct (cleanupTempFiles_spec fs w2) as (w3 & E3 & _ & Hgone & Hkept).
  rewrite E3 in E. injection E as _ <-.
  split; [exact Hgone|].
  intros Hff. rewrite Hkept; [now apply Hlist|].
  intros Hin. rewrite Forall_forall in Hfs.
  destruct (Hfs _ Hin) as (j & stamp & [=] & _).
Qed.

Lemma success_removes_transient_files_witness :
  2 <= length ([[x01]; [x02]] : list buffer)
  /\ exists w',
       concatenateBuffers missing [[x01]; [x02]] "out.mp3" shelf
       = (Ok (Caller "out.mp3"), w')
       /\ exists fs w1,
            saveBuffers missing 0 [[x01]; [x02]] [] shelf = (Ok fs, w1)
            /\ length fs = length ([[x01]; [x02]] : list buffer)
            /\ (forall p, In p fs -> files w' p = None)
            /\ (ffmpeg missing = true ->
                files w' (ConcatList (now missing (reads w1))) = None).
Proof.
  assert (H : 2 <= length ([[x01]; [x02]] : list buffer)) by (simpl; lia).
  split; [exact H|].
  exists (snd (concatenateBuffers missing [[x01]; [x02]] "out.mp3" shelf)).
  assert (E : concatenateBuffers missing [[x01]; [x02]] "out.mp3" shelf
              = (Ok (Caller "out.mp3"),
                 snd (concatenateBuffers missing [[x01]; [x02]] "out.mp3"
                        shelf))) by reflexivity.
  split; [exact E|].
  exact (success_removes_transient_files missing [[x01]; [x02]] "out.mp3"
           shelf _ _ H E).
Defined.

(** X11: the commands [concatenateBuffers] runs: none for no buffer or one;
    otherwise the probe of [ffmpeg], then, if it is installed, the concat
    demuxer, and the filter_complex command only if the demuxer failed. *)
Theorem commands_run (e : env) (bufs : list buffer) (outputPath : string)
    (w : world) :
  exists listFile inputs,
    log (snd (concatenateBuffers e bufs outputPath w))
    = log w ++
      match bufs with
      | [] | [_] => []
      | _ =>
          Version ::
          (if ffmpeg e then
             ConcatDemuxer listFile (Caller outputPath) ::
             match demuxer e with
             | Some _ => []
             | None => [FilterComplex inputs (Caller outputPath)]
             end
           else [])
      end.
Proof.
  destruct bufs as [|b1 [|b2 rest]].
  - exists (Caller outputPath), []. simpl. now rewrite app_nil_r.
  - exists (Caller outputPath), []. simpl. now rewrite app_nil_r.
  - destruct (ffmpeg e) eqn:Hff.
    + destruct (concatenateBuffers_ffmpeg e b1 b2 rest outputPath w Hff)
        as (fs & listFile & w' & E & Hlog & _).
      exists listFile, fs. rewrite E. simpl snd. rewrite Hlog.
      unfold strategies.
      destruct (demuxer e), (filter_complex e); reflexivity.
    + destruct (concatenateBuffers_fallback e b1 b2 rest outputPath w Hff)
        as (fs & w' & E & _ & Hlog & _).
      exists (Caller outputPath), []. rewrite E. exact Hlog.
Qed.

(** X12: [concatenateWithFFmpeg] never leaves its list file behind, whether
    the commands succeed, fail or cannot be run, and it touches no file but
    that one and the output. *)
Theorem list_file_removed (e : env) (inputs : list path) (out : path)
    (w : world) :
  let listFile := ConcatList (now e (reads w)) in
  let w' := snd (concatenateWithFFmpeg e inputs out w) in
  files w' listFile = None
  /\ (forall p, p <> listFile -> p <> out -> files w' p = files w p).
Proof.
  intros listFile.
  set (w2 := {| files := update (files w) listFile (Some (listContent e inputs));
                reads := S (reads w); log := log w |}).
  change (concatenateWithFFmpeg e inputs out w)
    with (tryFinally
            (tryCatch (execAsync e (ConcatDemuxer listFile out))
               (fun _ => tryCatch (execAsync e (FilterComplex inputs out))
                           (fun retryError => throw (FFmpegFailed retryError))))
            (tryCatch (unlink listFile) (fun _ => ret tt)) w2).
  unfold tryFinally.
  assert (Hrun : exists r w3,
    tryCatch (execAsync e (ConcatDemuxer listFile out))
      (fun _ => tryCatch (execAsync e (FilterComplex inputs out))
                  (fun retryError => throw (FFmpegFailed retryError))) w2
    = (r, w3)
    /\ (forall p, p <> out -> files w3 p = files w2 p)).
  { unfold tryCatch, execAsync, throw.
    destruct (ffmpeg e), (demuxer e), (filter_complex e); simpl;
      do 2 eexists; (split; [reflexivity|]); simpl;
      intros p Hp; first [reflexivity | apply update_other; exact Hp]. }
  destruct Hrun as (r & w3 & -> & Hsame3).
  destruct (discard_spec listFile w3) as (w4 & -> & _ & Hgone & Hsame4).
  simpl. split; [exact Hgone|].
  intros p Hl Ho. rewrite (Hsame4 p Hl), (Hsame3 p Ho). simpl.
  now apply update_other.
Qed.

(** X13: the saving loop gives every buffer a file of its own, whatever the
    clock reads, and reading these files back in order gives the buffers. *)
Theorem saved_and_read_back (e : env) (bufs : list buffer) (w w' : world)
    (fs : list path) :
  saveBuffers e 0 bufs [] w = (Ok fs, w') ->
  NoDup fs /\ length fs = length bufs /\ readAll fs [] w' = (Ok bufs, w').
Proof.
  intros E.
  destruct (saveBuffers_names e bufs 0 [] w)
    as (fs0 & w0 & E0 & Hnd & _ & Hhold & _).
  rewrite E in E0. injection E0 as -> ->.
  split; [exact Hnd|]. split; [apply (Forall2_length Hhold)|].
  apply (readAll_spec w0 fs0 bufs Hhold []).
Qed.

Lemma saved_and_read_back_witness :
  exists fs w',
    saveBuffers broken 0 [[x01]; [x02]] [] shelf = (Ok fs, w')
    /\ NoDup fs /\ length fs = 2 /\ readAll fs [] w' = (Ok [[x01]; [x02]], w').
Proof.
  exists [TempChunk 0 0; TempChunk 1 0],
    (snd (saveBuffers broken 0 [[x01]; [x02]] [] shelf)).
  assert (E : saveBuffers broken 0 [[x01]; [x02]] [] shelf
              = (Ok [TempChunk 0 0; TempChunk 1 0],
                 snd (saveBuffers broken 0 [[x01]; [x02]] []
                        shelf))) by reflexivity.
  split; [exact E|].
  exact (saved_and_read_back broken [[x01]; [x02]] shelf _ _ E).
Defined.

Lemma startsWith_app (sig b c : list byte) :
  startsWith sig b = true -> startsWith sig (b ++ c) = true.
Proof.
  revert b. induction sig as [|s sig IH]; intros b; simpl; [reflexivity|].
  destruct b as [|x b]; simpl; [discriminate|].
  destruct (Byte.eqb s x); simpl; [apply IH|discriminate].
Qed.

Lemma firstn_app_le {A : Type} (n : nat) (b c : list A) :
  n <= length b -> firstn n (b ++ c) = firstn n b.
Proof.
  intros H. rewrite firstn_app.
  replace (n - length b) with 0 by lia. simpl. apply app_nil_r.
Qed.

Lemma startsWith_firstn_app (sig b c : list byte) :
  length sig <= 3 ->
  startsWith sig (firstn 3 b) = true ->
  startsWith sig (firstn 3 (b ++ c)) = true.
Proof.
  intros Hs H. rewrite firstn_app. now apply startsWith_app.
Qed.

Lemma asciiIs_app (word : list N) (b c : list byte) :
  asciiIs word b = true -> asciiIs word (b ++ c) = true.
Proof.
  unfold asciiIs. intros H. apply andb_true_iff in H. destruct H as [Hlen H].
  apply Nat.leb_le in Hlen. apply andb_true_iff. split.
  - apply Nat.leb_le. rewrite length_app. lia.
  - now rewrite firstn_app_le.
Qed.

(** X14: a buffer [validateAudioBuffer] accepts is still accepted with any
    bytes appended to it, and the empty buffer is refused; so the buffers
    appended in order are accepted whenever the first one is. *)
Theorem valid_with_more (b : buffer) (rest : list buffer) :
  validateAudioBuffer b = true ->
  b <> [] /\ validateAudioBuffer (concat (b :: rest)) = true.
Proof.
  intros H. split; [intros ->; discriminate|].
  simpl concat. generalize (concat rest). intros c.
  destruct b as [|x b]; [discriminate|].
  unfold validateAudioBuffer in *. change ((x :: b) ++ c) with (x :: (b ++ c)).
  cbv beta iota in *.
  change (x :: (b ++ c)) with ((x :: b) ++ c).
  destruct (startsWith [xff; xfb] (firstn 3 (x :: b))) eqn:E1.
  { rewrite (startsWith_firstn_app _ _ c) by (simpl; auto; lia). reflexivity. }
  destruct (startsWith [xff; xf3] (firstn 3 (x :: b))) eqn:E2.
  { rewrite (startsWith_firstn_app [xff; xf3] _ c) by (simpl; auto; lia).
    now rewrite orb_true_r. }
  destruct (asciiIs [73; 68; 51]%N (x :: b)) eqn:E3.
  { rewrite (asciiIs_app _ _ c E3). now rewrite !orb_true_r. }
  simpl orb in H. cbv iota in H.
  destruct (asciiIs [82; 73; 70; 70]%N (x :: b)) eqn:E4.
  { rewrite (asciiIs_app _ _ c E4).
    match goal with |- (if ?x then _ else _) = _ => now destruct x end. }
  assert (Hlen : (100 <? length ((x :: b) ++ c)) = true).
  { apply Nat.ltb_lt in H. apply Nat.ltb_lt. rewrite length_app. lia. }
  rewrite Hlen.
  repeat match goal with |- (if ?x then _ else _) = _ => destruct x end;
    reflexivity.
Qed.

Lemma valid_with_more_witness :
  validateAudioBuffer [xff; xfb; x90] = true
  /\ [xff; xfb; x90] <> []
  /\ validateAudioBuffer (concat [[xff; xfb; x90]; [x00; x01]]) = true.
Proof.
  assert (H : validateAudioBuffer [xff; xfb; x90] = true) by reflexivity.
  split; [exact H|].
  exact (valid_with_more [xff; xfb; x90] [[x00; x01]] H).
Defined.

End ConcatenatorExtra.

(* ================================================================= *)
(** ** The words of a text *)

Module ChunkerWords.
Import JS JSFacts TextChunker ChunkerFacts ChunkerContent.

(** The words of a text: its longest runs of units that are not white space.
    [run] holds, reversed, the units of the word being read. *)
Definition emit (run : text) : list text :=
  match run with
  | [] => []
  | _ => [rev run]
  end.

Fixpoint wordsFrom (run s : text) : list text :=
  match s with
  | [] => emit run
  | c :: s' =>
      if isWhiteSpace c then emit run ++ wordsFrom [] s'
      else wordsFrom (c :: run) s'
  end.

Definition words (s : text) : list text := wordsFrom [] s.

(** White space ends the word being read. *)
Lemma wordsFrom_space (ws : text) (run s : text) :
  blank ws -> ws <> [] -> wordsFrom run (ws ++ s) = emit run ++ words s.
Proof.
  intros Hws Hne. destruct Hws as [|c ws Hc Hws]; [congruence|].
  simpl. rewrite Hc. f_equal. clear Hne Hc c.
  induction Hws as [|c ws Hc _ IH]; simpl; [reflexivity|].
  now rewrite Hc.
Qed.

Lemma words_lead (ws s : text) : blank ws -> words (ws ++ s) = words s.
Proof.
  intros Hws. destruct ws as [|c ws]; [reflexivity|].
  unfold words at 1. rewrite wordsFrom_space; [reflexivity|exact Hws|discriminate].
Qed.

(** Reading [a] and then more: the words of [a] but the last run, then what
    the last run and the rest give. *)
Lemma wordsFrom_split (a : text) :
  forall run, exists done run',
    (forall s, wordsFrom run (a ++ s) = done ++ wordsFrom run' s)
    /\ wordsFrom run a = done ++ emit run'.
Proof.
  induction a as [|c a IH]; intros run.
  - exists [], run. split; reflexivity.
  - simpl. destruct (isWhiteSpace c).
    + destruct (IH []) as (done & run' & H1 & H2).
      exists (emit run ++ done), run'. split.
      * intros s. now rewrite H1, app_assoc.
      * now rewrite H2, app_assoc.
    + destruct (IH (c :: run)) as (done & run' & H1 & H2).
      exists done, run'. split; assumption.
Qed.

Lemma words_sep (a ws b : text) :
  blank ws -> ws <> [] -> words (a ++ ws ++ b) = words a ++ words b.
Proof.
  intros Hws Hne. unfold words at 1 2.
  destruct (wordsFrom_split a []) as (done & run' & H1 & H2).
  rewrite H1, H2, (wordsFrom_space ws run' b Hws Hne), app_assoc. reflexivity.
Qed.

Lemma words_trail (s ws : text) : blank ws -> words (s ++ ws) = words s.
Proof.
  intros Hws. destruct ws as [|c ws]; [now rewrite app_nil_r|].
  rewrite <- (app_nil_r (c :: ws)), words_sep; [|exact Hws|discriminate].
  apply app_nil_r.
Qed.

Lemma words_blank (ws : text) : blank ws -> words ws = [].
Proof. intros H. rewrite <- (app_nil_r ws). now rewrite words_lead. Qed.

Lemma trimStart_split (s : text) : exists ws, blank ws /\ s = ws ++ trimStart s.
Proof.
  induction s as [|c s (ws & Hws & E)]; simpl; [exists []; split; [constructor|reflexivity]|].
  destruct (isWhiteSpace c) eqn:Hc.
  - exists (c :: ws). split; [now constructor|]. simpl. now f_equal.
  - exists []. split; [constructor|reflexivity].
Qed.

Lemma words_trimStart (s : text) : words (trimStart s) = words s.
Proof.
  destruct (trimStart_split s) as (ws & Hws & E).
  rewrite E at 2. symmetry. now apply words_lead.
Qed.

Lemma words_trimEnd (s : text) : words (trimEnd s) = words s.
Proof.
  unfold trimEnd. destruct (trimStart_split (rev s)) as (ws & Hws & E).
  apply (f_equal (@rev char)) in E. rewrite rev_involutive, rev_app_distr in E.
  rewrite E at 2. symmetry. apply words_trail. now apply Forall_rev.
Qed.

Lemma words_trim (s : text) : words (trim s) = words s.
Proof. unfold trim. now rewrite words_trimEnd, words_trimStart. Qed.

(** A text without white space is one word, or none. *)
Lemma wordsFrom_solid (s : text) :
  solid s -> forall run, wordsFrom run s = emit (rev s ++ run).
Proof.
  induction 1 as [|c s Hc _ IH]; intros run; simpl; [reflexivity|].
  rewrite Hc, IH, <- app_assoc. reflexivity.
Qed.

Lemma words_solid (s : text) : solid s -> s <> [] -> words s = [s].
Proof.
  intros Hs Hne. unfold words. rewrite (wordsFrom_solid s Hs), app_nil_r.
  unfold emit. destruct (rev s) eqn:E.
  - apply (f_equal (@rev char)) in E. rewrite rev_involutive in E. now subst.
  - now rewrite <- E, rev_involutive.
Qed.

Lemma words_all_solid (s : text) :
  forall run, solid run -> Forall (fun w => solid w /\ w <> []) (wordsFrom run s).
Proof.
  assert (Hemit : forall run, solid run ->
                    Forall (fun w => solid w /\ w <> []) (emit run)).
  { intros [|c run] Hrun; [constructor|].
    change (emit (c :: run)) with [rev (c :: run)].
    constructor; [|constructor].
    split; [apply Forall_rev; exact Hrun|].
    intros E. apply (f_equal (@length char)) in E.
    rewrite length_rev in E. simpl in E. lia. }
  induction s as [|c s IH]; intros run Hrun; simpl; [now apply Hemit|].
  destruct (isWhiteSpace c) eqn:Hc.
  - apply Forall_app. split; [now apply Hemit|]. apply IH. constructor.
  - apply IH. now constructor.
Qed.

(** *** Splitting keeps the words *)

Lemma splitLoop_words_kept (m : matcher) :
  inSpaces m ->
  forall rest before piece skip,
    skip <= spaces rest -> skip = 0 \/ piece = [] ->
    concat (map words (splitLoop m before piece skip rest))
    = words (rev piece ++ rest).
Proof.
  intros Hm. induction rest as [|c rest IH]; intros before piece skip Hskip Hor.
  - simpl. now rewrite !app_nil_r.
  - simpl splitLoop. destruct skip as [|k].
    + destruct (m before (c :: rest)) as [[|k]|] eqn:E.
      * rewrite IH by (auto; lia). simpl rev. now rewrite <- app_assoc.
      * apply Hm in E. apply spaces_cons in E. destruct E as [Hc Hk].
        simpl. rewrite IH by auto. simpl.
        change (c :: rest) with ([c] ++ rest).
        rewrite words_sep; [reflexivity|repeat constructor; exact Hc|discriminate].
      * rewrite IH by (auto; lia). simpl rev. now rewrite <- app_assoc.
    + destruct Hor as [H0 | ->]; [discriminate|].
      apply spaces_cons in Hskip. destruct Hskip as [Hc Hk].
      rewrite IH by auto. simpl.
      change (c :: rest) with ([c] ++ rest).
      rewrite words_lead; [reflexivity|repeat constructor; exact Hc].
Qed.

Lemma split_words (m : matcher) (s : text) :
  inSpaces m -> concat (map words (split m s)) = words s.
Proof.
  intros Hm. unfold split.
  rewrite (splitLoop_words_kept m Hm s [] [] 0); [reflexivity|lia|now left].
Qed.

Lemma units_words (l : list text) :
  concat (map words (filter (fun u => 0 <? length u) (map trim l)))
  = concat (map words l).
Proof.
  induction l as [|x l IH]; simpl; [reflexivity|].
  rewrite <- IH, <- (words_trim x).
  destruct (trim x) as [|c u]; reflexivity.
Qed.

Lemma nonempty_words (l : list text) :
  concat (map words (filter (fun c => 0 <? length c) l)) = concat (map words l).
Proof.
  induction l as [|x l IH]; simpl; [reflexivity|].
  destruct x; simpl; [exact IH|]. now rewrite IH.
Qed.

(** *** The loops *)

(** The words an accumulator holds. *)
Definition wordsOf (a : acc) : list text :=
  concat (map words (chunks a)) ++ words (currentChunk a).

Lemma words_nil_trim (s : text) : trim s = [] -> words s = [].
Proof. intros E. now rewrite <- words_trim, E. Qed.

Lemma pushCurrent_words (a : acc) : concat (map words (pushCurrent a)) = wordsOf a.
Proof.
  unfold pushCurrent, wordsOf.
  destruct (trim (currentChunk a)) as [|c u] eqn:E.
  - simpl. now rewrite (words_nil_trim _ E), app_nil_r.
  - change (0 <? length (c :: u)) with true. cbv iota.
    rewrite map_app, concat_app, <- E. simpl.
    now rewrite app_nil_r, words_trim.
Qed.

Lemma saveCurrent_words (a : acc) :
  concat (map words (chunks (saveCurrent a))) = wordsOf a
  /\ words (currentChunk (saveCurrent a)) = [].
Proof.
  unfold saveCurrent, wordsOf.
  destruct (trim (currentChunk a)) as [|c u] eqn:E.
  - simpl. rewrite (words_nil_trim _ E), app_nil_r. auto.
  - change (0 <? length (c :: u)) with true. cbv iota. simpl chunks.
    rewrite map_app, concat_app, <- E. simpl.
    rewrite app_nil_r, words_trim. auto.
Qed.

Lemma descend_words (a : acc) (cs : list text) (u : text) :
  concat (map words cs) = words u ->
  wordsOf {| chunks := chunks (saveCurrent a) ++ cs;
             currentChunk := currentChunk (saveCurrent a) |}
  = wordsOf a ++ words u.
Proof.
  intros E. destruct (saveCurrent_words a) as [E1 E2].
  unfold wordsOf at 1. simpl.
  now rewrite map_app, concat_app, E1, E2, E, app_nil_r.
Qed.

Lemma flush_words (a : acc) (u : text) :
  wordsOf {| chunks := pushCurrent a; currentChunk := u |} = wordsOf a ++ words u.
Proof. unfold wordsOf at 1. simpl. now rewrite pushCurrent_words. Qed.

Lemma append_words (sep : text) (a : acc) (u : text) :
  blank sep -> sep <> [] -> wordsOf (append sep a u) = wordsOf a ++ words u.
Proof.
  intros Hsep Hne. unfold wordsOf, append. simpl.
  rewrite <- app_assoc. f_equal.
  destruct (currentChunk a) as [|c cur]; [reflexivity|].
  change (0 <? length (c :: cur)) with true. cbv iota.
  now apply words_sep.
Qed.

Lemma forOf_words {A : Type} (Q : A -> Prop) (body : acc -> A -> option acc)
    (f : A -> list text) :
  (forall a x a', Q x -> body a x = Some a' -> wordsOf a' = wordsOf a ++ f x) ->
  forall xs, Forall Q xs ->
    forall a a', forOf body a xs = Some a' ->
      wordsOf a' = wordsOf a ++ concat (map f xs).
Proof.
  intros Hbody xs Hxs. induction Hxs as [|x xs Hx _ IH]; intros a a'; simpl.
  - intros [= <-]. now rewrite app_nil_r.
  - destruct (body a x) as [a1|] eqn:E; [|discriminate].
    intros E'. rewrite (IH _ _ E'), (Hbody _ _ _ Hx E), <- app_assoc. reflexivity.
Qed.

(** Every word of the text fits in a chunk. *)
Definition fits (this : TextChunker) (t : text) : Prop :=
  Forall (fun w => length w <= safeChunkSize this) (words t).

Lemma fits_units (this : TextChunker) (t : text) (l : list text) :
  concat (map words l) = words t -> fits this t -> Forall (fits this) l.
Proof.
  unfold fits. intros E Ht. rewrite <- E in Ht. clear E.
  induction l as [|x l IH]; [constructor|].
  simpl in Ht. apply Forall_app in Ht. destruct Ht as [Hx Hl].
  constructor; [exact Hx|now apply IH].
Qed.

Section Loops.
Variable fuel : nat.
Variable this : TextChunker.

Lemma wordBody_words (a : acc) (w : text) (a' : acc) :
  length w <= safeChunkSize this ->
  wordBody fuel this a w = Some a' -> wordsOf a' = wordsOf a ++ words w.
Proof.
  intros Hw. unfold wordBody.
  assert ((safeChunkSize this <? length w) = false) as -> by now apply Nat.ltb_ge.
  destruct (_ <? _); intros [= <-].
  - apply flush_words.
  - apply append_words; [repeat constructor|discriminate].
Qed.

Lemma chunkByWords_words (t : text) (cs : list text) :
  fits this t ->
  chunkByWords fuel this t = Some cs -> concat (map words cs) = words t.
Proof.
  intros Ht. unfold chunkByWords.
  destruct (forOf _ _ _) as [a|] eqn:E; [|discriminate].
  intros [= <-]. rewrite pushCurrent_words.
  pose proof (split_words whiteSpace t inSpaces_whiteSpace) as Hsplit.
  assert (HQ : Forall (fun w => length w <= safeChunkSize this)
                 (split whiteSpace t)).
  { pose proof (fits_units this t _ Hsplit Ht) as Hfits.
    pose proof (splitLoop_words t [] [] 0 (Forall_nil _)) as Hsolid.
    fold (split whiteSpace t) in Hsolid.
    rewrite Forall_forall in *. intros w Hw.
    destruct w as [|c w]; [simpl; lia|].
    specialize (Hfits _ Hw). unfold fits in Hfits.
    rewrite (words_solid _ (Hsolid _ Hw)) in Hfits by discriminate.
    now inversion Hfits. }
  rewrite (forOf_words _ _ words wordBody_words _ HQ _ _ E). exact Hsplit.
Qed.

Lemma sentenceBody_words (a : acc) (s : text) (a' : acc) :
  fits this s ->
  sentenceBody fuel this a s = Some a' -> wordsOf a' = wordsOf a ++ words s.
Proof.
  intros Hs. unfold sentenceBody. destruct (safeChunkSize this <? length s).
  - destruct (chunkByWords fuel this s) as [cs|] eqn:E; [|discriminate].
    intros [= <-]. apply descend_words. now apply chunkByWords_words.
  - destruct (_ <? _); intros [= <-].
    + apply flush_words.
    + apply append_words; [repeat constructor|discriminate].
Qed.

Lemma chunkBySentences_words (t : text) (cs : list text) :
  fits this t ->
  chunkBySentences fuel this t = Some cs -> concat (map words cs) = words t.
Proof.
  intros Ht. unfold chunkBySentences.
  destruct (forOf _ _ _) as [a|] eqn:E; [|discriminate].
  intros [= <-]. rewrite pushCurrent_words.
  assert (Hsplit : concat (map words (splitIntoSentences t)) = words t).
  { unfold splitIntoSentences. rewrite units_words.
    apply split_words, inSpaces_sentenceBoundary. }
  rewrite (forOf_words _ _ words sentenceBody_words _
             (fits_units this t _ Hsplit Ht) _ _ E).
  exact Hsplit.
Qed.

Lemma paragraphBody_words (a : acc) (p : text) (a' : acc) :
  fits this p ->
  paragraphBody fuel this a p = Some a' -> wordsOf a' = wordsOf a ++ words p.
Proof.
  intros Hp. unfold paragraphBody. destruct (safeChunkSize this <? length p).
  - destruct (chunkBySentences fuel this p) as [cs|] eqn:E; [|discriminate].
    intros [= <-]. apply descend_words. now apply chunkBySentences_words.
  - destruct (_ <? _); intros [= <-].
    + apply flush_words.
    + apply append_words; [repeat constructor|discriminate].
Qed.

Lemma chunk_words (t : text) (cs : list text) :
  fits this t ->
  chunk fuel this t = Some cs -> concat (map words cs) = words t.
Proof.
  intros Ht. unfold chunk. destruct (length (trim t) =? 0) eqn:Et.
  - intros [= <-]. simpl. symmetry. apply words_nil_trim.
    apply Nat.eqb_eq in Et. now apply length_zero_iff_nil.
  - destruct (length t <=? safeChunkSize this).
    + intros [= <-]. simpl. rewrite app_nil_r. apply words_trim.
    + destruct (forOf _ _ _) as [a|] eqn:E; [|discriminate].
      intros [= <-]. rewrite nonempty_words, pushCurrent_words.
      assert (Hsplit : concat (map words (splitIntoParagraphs t)) = words t).
      { unfold splitIntoParagraphs. rewrite units_words.
        apply split_words, inSpaces_blankLine. }
      rewrite (forOf_words _ _ words paragraphBody_words _
                 (fits_units this t _ Hsplit Ht) _ _ E).
      exact Hsplit.
Qed.
End Loops.

(** X15: when no word of the text is longer than [safeChunkSize], the words
    of the returned chunks, chunk after chunk, are the words of the text: no
    word is cut, lost, repeated or moved. *)
Theorem chunk_keeps_words (this : TextChunker) (t : text) (cs : list text) :
  Forall (fun w => length w <= safeChunkSize this) (words t) ->
  returns this t cs -> concat (map words cs) = words t.
Proof. intros Ht [fuel E]. exact (chunk_words fuel this t cs Ht E). Qed.

Lemma chunk_keeps_words_witness :
  Forall (fun w => length w <= safeChunkSize (new 12)) (words ChunkerExtra.sample)
  /\ returns (new 12) ChunkerExtra.sample
       [lit "One two."; lit "Three four."; lit "Five six."]
  /\ concat (map words [lit "One two."; lit "Three four."; lit "Five six."])
     = words ChunkerExtra.sample.
Proof.
  assert (H : Forall (fun w => length w <= safeChunkSize (new 12))
                (words ChunkerExtra.sample))
    by (vm_compute; repeat constructor).
  split; [exact H|]. split; [exact ChunkerExtra.sample_returns|].
  exact (chunk_keeps_words (new 12) ChunkerExtra.sample _ H
           ChunkerExtra.sample_returns).
Defined.

End ChunkerWords.

(* ================================================================= *)
(** ** Paragraphs that fit are kept whole *)

Module ChunkerParagraphs.
Import JS JSFacts TextChunker ChunkerFacts ChunkerContent.

(** The units of a group joined as the loops join them. *)
Definition joinWith (sep : text) (group : list text) : text :=
  fold_left (fun cur u => cur ++ (if 0 <? length cur then sep else []) ++ u)
    group [].

Lemma joinWith_snoc (sep : text) (group : list text) (u : text) :
  joinWith sep (group ++ [u])
  = joinWith sep group
    ++ (if 0 <? length (joinWith sep group) then sep else []) ++ u.
Proof. unfold joinWith. now rewrite fold_left_app. Qed.

Lemma tidy_starts (x : text) : tidy x -> trimStart x = x.
Proof.
  intros [_ E].
  pose proof (trimEnd_keeps_start (trimStart x) (trimStart_idem x)) as H.
  fold (trim x) in H. now rewrite E in H.
Qed.

Lemma tidy_ends (x : text) : tidy x -> trimStart (rev x) = rev x.
Proof.
  intros [_ E].
  assert (R : rev x = trimStart (rev (trimStart x))).
  { rewrite <- E at 1. unfold trim, trimEnd. apply rev_involutive. }
  rewrite R. apply trimStart_idem.
Qed.

Lemma trimStart_app_fixed (a z : text) :
  a <> [] -> trimStart a = a -> trimStart (a ++ z) = a ++ z.
Proof.
  intros Hne Ha.
  destruct (trimStart_fixed a Ha) as [->|(c & a' & -> & Hc)]; [congruence|].
  simpl. now rewrite Hc.
Qed.

Lemma tidy_around (a m b : text) : tidy a -> tidy b -> tidy (a ++ m ++ b).
Proof.
  intros Ha Hb. split.
  - destruct Ha as [Hne _]. destruct a; [congruence|discriminate].
  - unfold trim, trimEnd.
    rewrite (trimStart_app_fixed a (m ++ b) (proj1 Ha) (tidy_starts a Ha)).
    rewrite !rev_app_distr, <- app_assoc.
    rewrite (trimStart_app_fixed (rev b)); [|  |now apply tidy_ends].
    + now rewrite <- !rev_app_distr, rev_involutive, <- app_assoc.
    + destruct Hb as [Hne _]. intros E. apply Hne.
      rewrite <- (rev_involutive b), E. reflexivity.
Qed.

Lemma tidy_joinWith (sep : text) (group : list text) :
  Forall tidy group -> group <> [] -> tidy (joinWith sep group).
Proof.
  induction group as [|u group IH] using rev_ind; [congruence|].
  intros H _. apply Forall_app in H. destruct H as [Hg Hu].
  inversion Hu as [|? ? Hu' _]; subst. rewrite joinWith_snoc.
  destruct group as [|v group]; [exact Hu'|].
  specialize (IH Hg ltac:(discriminate)).
  destruct (joinWith sep (v :: group)) as [|c j] eqn:E;
    [destruct IH; congruence|].
  change (0 <? length (c :: j)) with true. cbv iota.
  now apply tidy_around.
Qed.

Lemma tidy_units (m : matcher) (t : text) :
  Forall tidy (filter (fun u => 0 <? length u) (map trim (split m t))).
Proof.
  apply Forall_forall. intros u Hu. apply filter_In in Hu.
  destruct Hu as [Hin Hlen]. apply in_map_iff in Hin.
  destruct Hin as (x & <- & _). now apply tidy_trim.
Qed.

(** The invariant of the paragraph loop while every paragraph fits: the
    chunks are whole groups of the paragraphs read, the buffer is the group
    being gathered. *)
Definition grouped (sep : text) (ps : list text) (a : acc) : Prop :=
  exists done group,
    chunks a = map (joinWith sep) done
    /\ currentChunk a = joinWith sep group
    /\ concat done ++ group = ps
    /\ Forall (fun g => g <> []) done
    /\ Forall tidy ps.

Lemma grouped_pushCurrent (sep : text) (ps : list text) (a : acc) :
  grouped sep ps a ->
  exists done,
    pushCurrent a = map (joinWith sep) done
    /\ concat done = ps /\ Forall (fun g => g <> []) done.
Proof.
  intros (done & group & Hc & Hcur & Hps & Hne & Htidy).
  unfold pushCurrent. rewrite Hc, Hcur.
  destruct group as [|u group].
  - exists done. simpl. rewrite app_nil_r in Hps. auto.
  - assert (Hg : tidy (joinWith sep (u :: group))).
    { apply tidy_joinWith; [|discriminate].
      rewrite <- Hps in Htidy. now apply Forall_app in Htidy. }
    destruct Hg as [Hne' Htrim]. rewrite Htrim.
    destruct (joinWith sep (u :: group)) as [|c j] eqn:E; [congruence|].
    change (0 <? length (c :: j)) with true. cbv iota.
    exists (done ++ [u :: group]). rewrite map_app, concat_app. simpl.
    rewrite E, app_nil_r. repeat split; auto.
    apply Forall_app. split; [exact Hne|]. constructor; [discriminate|constructor].
Qed.

Lemma paragraphBody_grouped (fuel : nat) (this : TextChunker)
    (ps : list text) (a : acc) (p : text) (a' : acc) :
  length p <= safeChunkSize this -> tidy p ->
  grouped [LF; LF] ps a ->
  paragraphBody fuel this a p = Some a' -> grouped [LF; LF] (ps ++ [p]) a'.
Proof.
  intros Hp Htp Ha. unfold paragraphBody.
  assert ((safeChunkSize this <? length p) = false) as -> by now apply Nat.ltb_ge.
  assert (Hall : Forall tidy (ps ++ [p])).
  { destruct Ha as (_ & _ & _ & _ & _ & _ & Ht).
    apply Forall_app. split; [exact Ht|]. now constructor. }
  destruct (_ <? _); intros [= <-].
  - destruct (grouped_pushCurrent _ _ _ Ha) as (done & E & Hps & Hne).
    exists done, [p]. simpl. rewrite E, Hps. repeat split; auto.
  - destruct Ha as (done & group & Hc & Hcur & Hps & Hne & _).
    exists done, (group ++ [p]). unfold append. simpl.
    split; [exact Hc|]. split; [now rewrite joinWith_snoc, Hcur|].
    split; [now rewrite app_assoc, Hps|]. auto.
Qed.

Lemma forOf_grouped (fuel : nat) (this : TextChunker) (xs : list text) :
  Forall (fun p => length p <= safeChunkSize this /\ tidy p) xs ->
  forall ps a a', grouped [LF; LF] ps a ->
    forOf (paragraphBody fuel this) a xs = Some a' ->
    grouped [LF; LF] (ps ++ xs) a'.
Proof.
  induction 1 as [|x xs [Hx Hx'] _ IH]; intros ps a a' Ha; simpl.
  - intros [= <-]. now rewrite app_nil_r.
  - destruct (paragraphBody fuel this a x) as [a1|] eqn:E; [|discriminate].
    intros E'. change (x :: xs) with ([x] ++ xs). rewrite app_assoc.
    eapply IH; [|exact E']. eapply paragraphBody_grouped; eauto.
Qed.

(** X16: for a text longer than [safeChunkSize] whose paragraphs are each at
    most [safeChunkSize] long, every returned chunk is one or more whole
    paragraphs, in order, joined by two line feeds: no paragraph is cut. *)
Theorem paragraphs_kept_whole (this : TextChunker) (t : text) (cs : list text) :
  trim t <> [] -> safeChunkSize this < length t ->
  Forall (fun p => length p <= safeChunkSize this) (splitIntoParagraphs t) ->
  returns this t cs ->
  exists groups,
    concat groups = splitIntoParagraphs t
    /\ Forall (fun g => g <> []) groups
    /\ cs = map (joinWith [LF; LF]) groups.
Proof.
  intros Hne Hlong Hfit [fuel E]. unfold chunk in E.
  assert ((length (trim t) =? 0) = false) as Et.
  { apply Nat.eqb_neq. destruct (trim t); [congruence|simpl; lia]. }
  assert ((length t <=? safeChunkSize this) = false) as El
    by (apply Nat.leb_gt; exact Hlong).
  rewrite Et, El in E.
  destruct (forOf _ _ _) as [a|] eqn:Ea; [|discriminate].
  injection E as <-.
  pose proof (tidy_units blankLine t) as Htidy.
  fold (splitIntoParagraphs t) in Htidy.
  assert (Hstart : grouped [LF; LF] [] start).
  { exists [], []. repeat split; constructor. }
  assert (Hxs : Forall (fun p => length p <= safeChunkSize this /\ tidy p)
                  (splitIntoParagraphs t)).
  { rewrite Forall_forall in *. auto. }
  pose proof (forOf_grouped fuel this _ Hxs [] start a Hstart Ea) as Ha.
  simpl in Ha.
  destruct (grouped_pushCurrent _ _ _ Ha) as (groups & Epush & Hcat & Hgne).
  exists groups. split; [exact Hcat|]. split; [exact Hgne|].
  rewrite Epush. apply forallb_filter_id. apply forallb_forall.
  intros c Hc. apply in_map_iff in Hc. destruct Hc as (g & <- & Hg).
  assert (Hj : tidy (joinWith [LF; LF] g)).
  { apply tidy_joinWith.
    - rewrite <- Hcat in Htidy. clear - Htidy Hg.
      induction groups as [|g' groups IH]; [destruct Hg|].
      simpl in Htidy. apply Forall_app in Htidy.
      destruct Hg as [->|Hg]; [tauto|apply IH; tauto].
    - rewrite Forall_forall in Hgne. now apply Hgne. }
  destruct Hj as [Hjne _]. apply Nat.ltb_lt.
  destruct (joinWith [LF; LF] g); [congruence|simpl; lia].
Qed.

Lemma paragraphs_kept_whole_witness :
  let t := lit "One two." ++ [LF; LF] ++ lit "Six." ++ [LF; SP; LF]
           ++ lit "Ten eleven." in
  trim t <> [] /\ safeChunkSize (new 16) < length t
  /\ Forall (fun p => length p <= safeChunkSize (new 16)) (splitIntoParagraphs t)
  /\ returns (new 16) t [lit "One two." ++ [LF; LF] ++ lit "Six."; lit "Ten eleven."]
  /\ exists groups,
       concat groups = splitIntoParagraphs t
       /\ Forall (fun g => g <> []) groups
       /\ [lit "One two." ++ [LF; LF] ++ lit "Six."; lit "Ten eleven."]
          = map (joinWith [LF; LF]) groups.
Proof.
  intros t.
  assert (H1 : trim t <> []) by (vm_compute; discriminate).
  assert (H2 : safeChunkSize (new 16) < length t) by (vm_compute; lia).
  assert (H3 : Forall (fun p => length p <= safeChunkSize (new 16))
                 (splitIntoParagraphs t))
    by (vm_compute; repeat constructor).
  assert (H4 : returns (new 16) t
                 [lit "One two." ++ [LF; LF] ++ lit "Six."; lit "Ten eleven."])
    by (exists 0; reflexivity).
  repeat (split; [assumption|]).
  exact (paragraphs_kept_whole (new 16) t _ H1 H2 H3 H4).
Defined.

End ChunkerParagraphs.

(* ================================================================= *)
(** ** Texts whose trimmed length fits *)

Module ShortText.
Import JS JSFacts TextChunker ChunkerFacts ChunkerContent ChunkerWords
  ChunkerParagraphs.

(** A text laid out as a first paragraph and then separators, each with the
    paragraph after it. *)
Definition laidOut (p : text) (qs : list (text * text)) : text :=
  p ++ concat (map (fun sq => fst sq ++ snd sq) qs).

(** Every separator is white space, two units or more. *)
Definition separators (qs : list (text * text)) : Prop :=
  Forall (fun sq => blank (fst sq) /\ 2 <= length (fst sq)) qs.

Lemma blankLine_long (before s : text) (n : nat) :
  blankLine before s = Some n -> 2 <= n.
Proof.
  unfold blankLine. destruct s as [|c s]; [discriminate|].
  destruct (c =? LF)%N; [|discriminate].
  destruct (lastLF s); [discriminate|]. intros [= <-]. lia.
Qed.

Lemma spaces_length (s : text) : spaces s <= length s.
Proof.
  induction s as [|c s IH]; simpl; [lia|].
  destruct (isWhiteSpace c); lia.
Qed.

Lemma blank_firstn (s : text) : forall k, k <= spaces s -> blank (firstn k s).
Proof.
  induction s as [|c s IH]; intros [|k] Hk; simpl; try constructor.
  - apply spaces_cons in Hk. tauto.
  - apply IH. apply spaces_cons in Hk. tauto.
Qed.

(** The pieces of [split] and the separators between them make up the
    text. *)
Lemma splitLoop_laidOut (rest : text) :
  forall before piece skip, skip <= spaces rest ->
    exists x xs,
      splitLoop blankLine before piece skip rest = (rev piece ++ x) :: map snd xs
      /\ skipn skip rest = laidOut x xs
      /\ separators xs.
Proof.
  induction rest as [|c rest IH]; intros before piece skip Hskip.
  - exists [], []. simpl. rewrite app_nil_r, skipn_nil.
    repeat split. constructor.
  - assert (Hpass : exists x xs,
              splitLoop blankLine (c :: before) (c :: piece) 0 rest
              = (rev piece ++ c :: x) :: map snd xs
              /\ rest = laidOut x xs /\ separators xs).
    { destruct (IH (c :: before) (c :: piece) 0 ltac:(lia))
        as (x & xs & E & Hrest & Hsep).
      exists x, xs. simpl rev in E. rewrite <- app_assoc in E. auto. }
    cbn [splitLoop]. destruct skip as [|k].
    + destruct (blankLine before (c :: rest)) as [[|k]|] eqn:E.
      * destruct Hpass as (x & xs & -> & Hrest & Hsep).
        exists (c :: x), xs. split; [reflexivity|]. split; [|exact Hsep].
        simpl. unfold laidOut in *. simpl. now f_equal.
      * pose proof (blankLine_long _ _ _ E) as Hlong.
        apply inSpaces_blankLine in E. apply spaces_cons in E.
        destruct E as [Hc Hk].
        destruct (IH (c :: before) [] k Hk) as (x & xs & -> & Hrest & Hsep).
        exists [], ((c :: firstn k rest, x) :: xs). simpl rev.
        rewrite app_nil_r. split; [reflexivity|]. split.
        -- unfold laidOut in *. simpl. f_equal.
           rewrite <- app_assoc, <- Hrest. symmetry. apply firstn_skipn.
        -- constructor; [|exact Hsep]. simpl. split.
           ++ constructor; [exact Hc|now apply blank_firstn].
           ++ rewrite length_firstn. pose proof (spaces_length rest). lia.
      * destruct Hpass as (x & xs & -> & Hrest & Hsep).
        exists (c :: x), xs. split; [reflexivity|]. split; [|exact Hsep].
        simpl. unfold laidOut in *. simpl. now f_equal.
    + apply spaces_cons in Hskip. destruct Hskip as [_ Hk].
      destruct (IH (c :: before) piece k Hk) as (x & xs & E & Hrest & Hsep).
      exists x, xs. auto.
Qed.

Lemma blank_app3 (a b c : text) :
  blank a -> blank b -> blank c -> blank (a ++ b ++ c).
Proof.
  intros Ha Hb Hc. apply Forall_app. split; [exact Ha|].
  apply Forall_app. now split.
Qed.

Lemma trim_nil_blank (s : text) : trim s = [] -> blank s.
Proof. intros E. now apply strip_nil_blank, strip_trim_nil. Qed.

(** A text is its trimmed text between two runs of white space. *)
Lemma trim_frame (s : text) :
  exists lead trail, blank lead /\ blank trail /\ s = lead ++ trim s ++ trail.
Proof.
  destruct (trimStart_split s) as (lead & Hlead & E).
  destruct (trimStart_split (rev (trimStart s))) as (liart & Htrail & E').
  exists lead, (rev liart). split; [exact Hlead|].
  split; [now apply Forall_rev|].
  rewrite E at 1. f_equal. unfold trim, trimEnd.
  rewrite <- rev_app_distr, <- E'. symmetry. apply rev_involutive.
Qed.

Lemma trimStart_lead (ws s : text) :
  blank ws -> trimStart (ws ++ s) = trimStart s.
Proof. induction 1 as [|c ws Hc _ IH]; simpl; [reflexivity|now rewrite Hc]. Qed.

Lemma trim_framed (lead u trail : text) :
  blank lead -> blank trail -> tidy u -> trim (lead ++ u ++ trail) = u.
Proof.
  intros Hlead Htrail Hu. unfold trim, trimEnd.
  rewrite (trimStart_lead lead _ Hlead).
  rewrite (trimStart_app_fixed u trail (proj1 Hu) (tidy_starts u Hu)).
  rewrite rev_app_distr, (trimStart_lead (rev trail)) by now apply Forall_rev.
  rewrite (tidy_ends u Hu). apply rev_involutive.
Qed.

Lemma laidOut_cons (p s y : text) (qs : list (text * text)) :
  laidOut p ((s, y) :: qs) = laidOut (p ++ s ++ y) qs.
Proof. unfold laidOut. simpl. now rewrite <- !app_assoc. Qed.

Lemma tidy_laidOut (qs : list (text * text)) :
  forall p, tidy p -> Forall tidy (map snd qs) -> tidy (laidOut p qs).
Proof.
  induction qs as [|[s y] qs IH]; intros p Hp Hqs.
  - unfold laidOut. simpl. now rewrite app_nil_r.
  - simpl in Hqs. inversion Hqs as [|? ? Hy Hrest]; subst.
    rewrite laidOut_cons. apply IH; [|exact Hrest]. now apply tidy_around.
Qed.

(** The paragraphs of a text, and the text between its first and its last
    paragraph with the separators that lie between them. *)
Lemma paragraphs_laidOut (xs : list (text * text)) :
  forall x, separators xs ->
    (blank (laidOut x xs)
     /\ filter (fun p => 0 <? length p) (map trim (x :: map snd xs)) = [])
    \/ exists lead p qs trail,
         blank lead /\ blank trail
         /\ laidOut x xs = lead ++ laidOut p qs ++ trail
         /\ filter (fun p => 0 <? length p) (map trim (x :: map snd xs))
            = p :: map snd qs
         /\ separators qs.
Proof.
  induction xs as [|[s y] xs IH]; intros x Hsep.
  - unfold laidOut. simpl. rewrite app_nil_r.
    destruct (trim x) as [|c u] eqn:E.
    + left. split; [now apply trim_nil_blank|reflexivity].
    + right. destruct (trim_frame x) as (lead & trail & Hl & Ht & Ex).
      exists lead, (c :: u), [], trail. rewrite E in Ex.
      change (0 <? length (c :: u)) with true. cbv iota.
      split; [exact Hl|]. split; [exact Ht|].
      split; [|split; [reflexivity|constructor]].
      simpl concat. rewrite app_nil_r. exact Ex.
  - inversion Hsep as [|? ? [Hs Hlen] Hrest]; subst. simpl fst in *.
    rewrite laidOut_cons.
    assert (Eall : laidOut (x ++ s ++ y) xs = x ++ s ++ laidOut y xs).
    { unfold laidOut. now rewrite <- !app_assoc. }
    rewrite Eall.
    change (map trim (x :: map snd ((s, y) :: xs)))
      with (trim x :: map trim (y :: map snd xs)).
    change (filter ?f (trim x :: ?l))
      with (if 0 <? length (trim x) then trim x :: filter f l else filter f l).
    specialize (IH y Hrest).
    destruct (trim_frame x) as (l0 & r0 & Hl0 & Hr0 & Ex).
    destruct (trim x) as [|c u] eqn:E.
    + assert (Hx : blank x) by now apply trim_nil_blank.
      change (0 <? length (@nil char)) with false. cbv iota.
      destruct IH as [[Hb ->]|(lead & p & qs & trail & Hl & Ht & Et & -> & Hq)].
      * left. split; [|reflexivity]. now apply blank_app3.
      * right. exists (x ++ s ++ lead), p, qs, trail.
        split; [now apply blank_app3|].
        split; [exact Ht|]. split; [|split; [reflexivity|exact Hq]].
        rewrite Et, <- !app_assoc. reflexivity.
    + change (0 <? length (c :: u)) with true. cbv iota.
      destruct IH as [[Hb ->]|(lead & p & qs & trail & Hl & Ht & Et & -> & Hq)].
      * right. exists l0, (c :: u), [], (r0 ++ s ++ laidOut y xs).
        split; [exact Hl0|].
        split; [now apply blank_app3|].
        split; [|split; [reflexivity|constructor]].
        rewrite Ex at 1. unfold laidOut at 2. simpl concat.
        rewrite app_nil_r, <- !app_assoc. reflexivity.
      * right.
        exists l0, (c :: u), ((r0 ++ s ++ lead, p) :: qs), trail.
        split; [exact Hl0|]. split; [exact Ht|].
        split; [|split; [reflexivity|]].
        -- rewrite Ex at 1. rewrite Et. unfold laidOut. simpl.
           repeat first [rewrite <- app_assoc | rewrite <- app_comm_cons].
           reflexivity.
        -- constructor; [|exact Hq]. simpl. split.
           ++ now apply blank_app3.
           ++ rewrite !length_app. lia.
Qed.

Lemma splitIntoParagraphs_laidOut (t : text) :
  trim t <> [] ->
  exists p qs,
    splitIntoParagraphs t = p :: map snd qs
    /\ trim t = laidOut p qs
    /\ separators qs
    /\ Forall tidy (p :: map snd qs).
Proof.
  intros Hne.
  destruct (splitLoop_laidOut t [] [] 0 ltac:(lia))
    as (x & xs & E & Et & Hsep).
  simpl in E, Et.
  pose proof (tidy_units blankLine t) as Htidy.
  fold (splitIntoParagraphs t) in Htidy.
  destruct (paragraphs_laidOut xs x Hsep)
    as [[Hb _]|(lead & p & qs & trail & Hl & Ht & Elay & Eps & Hq)].
  - exfalso. apply Hne. apply trim_blank. now rewrite Et.
  - assert (Eps' : splitIntoParagraphs t = p :: map snd qs).
    { unfold splitIntoParagraphs, split. rewrite E. exact Eps. }
    rewrite Eps' in Htidy. exists p, qs.
    split; [exact Eps'|]. split; [|split; assumption].
    rewrite Et, Elay. apply trim_framed; try assumption.
    inversion Htidy; subst. now apply tidy_laidOut.
Qed.

(** *** Joining with two line feeds *)

Lemma joinWith_laidOut (sep : text) (qs : list (text * text)) :
  forall p, p <> [] ->
    fold_left (fun cur u => cur ++ (if 0 <? length cur then sep else []) ++ u)
      (map snd qs) p
    = laidOut p (map (fun sq => (sep, snd sq)) qs).
Proof.
  induction qs as [|[s y] qs IH]; intros p Hp; simpl.
  - unfold laidOut. simpl. now rewrite app_nil_r.
  - rewrite laidOut_cons.
    destruct p as [|c p]; [congruence|].
    change (0 <? length (c :: p)) with true. cbv iota.
    apply IH. discriminate.
Qed.

Lemma joinWith_paragraphs (sep p : text) (qs : list (text * text)) :
  p <> [] ->
  joinWith sep (p :: map snd qs) = laidOut p (map (fun sq => (sep, snd sq)) qs).
Proof. intros Hp. unfold joinWith. simpl. now apply joinWith_laidOut. Qed.

Lemma laidOut_shorter (qs : list (text * text)) :
  separators qs ->
  forall p,
    length (laidOut p (map (fun sq => ([LF; LF], snd sq)) qs))
    <= length (laidOut p qs).
Proof.
  induction 1 as [|[s y] qs [_ Hlen] _ IH]; intros p; simpl map.
  - apply Nat.le_refl.
  - rewrite !laidOut_cons. simpl fst in Hlen. simpl snd.
    specialize (IH (p ++ [LF; LF] ++ y)).
    assert (H : forall a b : text, length a <= length b ->
              length (laidOut a qs) <= length (laidOut b qs)).
    { intros a b Hab. unfold laidOut. rewrite !length_app. lia. }
    etransitivity; [exact IH|]. apply H.
    rewrite !length_app. simpl. lia.
Qed.

Lemma laidOut_same (p : text) (qs : list (text * text)) :
  Forall (fun sq => fst sq = [LF; LF]) qs ->
  laidOut p (map (fun sq => ([LF; LF], snd sq)) qs) = laidOut p qs.
Proof.
  intros H. f_equal. rewrite <- (map_id qs) at 2. apply map_ext_in.
  intros [s y] Hin. rewrite Forall_forall in H. specialize (H _ Hin).
  simpl in *. now subst.
Qed.

Lemma blank_prefix_same (a b y r r' : text) :
  blank a -> blank b -> tidy y -> a ++ y ++ r' = b ++ y ++ r ->
  a = b /\ r' = r.
Proof.
  intros Ha Hb Hy E.
  destruct (trimStart_fixed y (tidy_starts y Hy)) as [->|(c & y' & -> & Hc)];
    [destruct Hy; congruence|].
  assert (Hlen : length a = length b).
  { rewrite <- (spaces_run a c (y' ++ r') Ha Hc).
    rewrite <- (spaces_run b c (y' ++ r) Hb Hc).
    simpl in E. now rewrite E. }
  assert (Eab : a = b).
  { apply (f_equal (firstn (length a))) in E.
    rewrite firstn_app, Nat.sub_diag, firstn_all in E. simpl in E.
    rewrite app_nil_r in E. rewrite E, Hlen.
    now rewrite firstn_app, Nat.sub_diag, firstn_all, app_nil_r. }
  split; [exact Eab|]. subst b.
  apply app_inv_head in E. now apply app_inv_head in E.
Qed.

Lemma laidOut_only_same (qs : list (text * text)) :
  separators qs -> Forall tidy (map snd qs) ->
  forall p,
    laidOut p (map (fun sq => ([LF; LF], snd sq)) qs) = laidOut p qs ->
    Forall (fun sq => fst sq = [LF; LF]) qs.
Proof.
  induction 1 as [|[s y] qs [Hs _] _ IH]; intros Htidy p E; [constructor|].
  simpl in Htidy. inversion Htidy as [|? ? Hy Hrest]; subst.
  unfold laidOut in E. simpl in E. apply app_inv_head in E.
  rewrite <- !app_assoc in E. simpl fst in Hs.
  change (LF :: LF :: y ++ ?r) with ([LF; LF] ++ y ++ r) in E.
  apply blank_prefix_same in E;
    [|repeat constructor|exact Hs|exact Hy].
  destruct E as [<- E]. constructor; [reflexivity|].
  apply (IH Hrest []). unfold laidOut. simpl. exact E.
Qed.

(** *** The paragraph loop when everything fits in one chunk *)

Section Gather.
Variable fuel : nat.
Variable this : TextChunker.

Let step (cur u : text) : text :=
  cur ++ (if 0 <? length cur then [LF; LF] else []) ++ u.

Lemma gather_grows (xs : list text) :
  forall cur, length cur <= length (fold_left step xs cur).
Proof.
  induction xs as [|x xs IH]; intros cur; simpl; [lia|].
  etransitivity; [|apply IH]. unfold step. rewrite length_app. lia.
Qed.

Lemma forOf_gathers (xs : list text) :
  forall cur,
    length (fold_left step xs cur) <= safeChunkSize this ->
    forOf (paragraphBody fuel this) {| chunks := []; currentChunk := cur |} xs
    = Some {| chunks := []; currentChunk := fold_left step xs cur |}.
Proof.
  induction xs as [|x xs IH]; intros cur Hfit; [reflexivity|].
  simpl in Hfit. pose proof (gather_grows xs (step cur x)) as Hgrow.
  assert (Hstep : length (step cur x) <= safeChunkSize this) by lia.
  assert (Ebody : paragraphBody fuel this
                    {| chunks := []; currentChunk := cur |} x
                  = Some {| chunks := []; currentChunk := step cur x |}).
  { unfold paragraphBody. cbn [currentChunk chunks].
    unfold step in Hstep. rewrite !length_app in Hstep.
    assert ((safeChunkSize this <? length x) = false) as ->
      by (apply Nat.ltb_ge; lia).
    destruct (safeChunkSize this <? length cur + length x + 1) eqn:Etest.
    - apply Nat.ltb_lt in Etest. destruct cur as [|c cur].
      + reflexivity.
      + change (0 <? length (c :: cur)) with true in Hstep. cbv iota in Hstep.
        simpl in Hstep, Etest. lia.
    - reflexivity. }
  simpl forOf. rewrite Ebody. now apply IH.
Qed.
End Gather.

(** C3, as it holds: a text that is not blank and whose trimmed length is at
    most [safeChunkSize] is returned as one chunk.  The trimmed text is its
    paragraphs with the separators between them, each a run of white space
    of two units or more.  When the text, untrimmed, is longer than
    [safeChunkSize] the chunk is the paragraphs joined with two line feeds;
    and the chunk is the trimmed text exactly when the text, untrimmed, is
    no longer than [safeChunkSize] or every separator is two line feeds, as
    when the text is one paragraph. *)
Theorem chunk_short_text (this : TextChunker) (fuel : nat) (t : text) :
  trim t <> [] -> length (trim t) <= safeChunkSize this ->
  exists c p qs,
    chunk fuel this t = Some [c]
    /\ splitIntoParagraphs t = p :: map snd qs
    /\ trim t = laidOut p qs
    /\ separators qs
    /\ (safeChunkSize this < length t ->
        c = joinWith [LF; LF] (splitIntoParagraphs t))
    /\ (c = trim t
        <-> length t <= safeChunkSize this
            \/ Forall (fun sq => fst sq = [LF; LF]) qs).
Proof.
  intros Hne Hfit.
  destruct (splitIntoParagraphs_laidOut t Hne)
    as (p & qs & Eps & Etrim & Hsep & Htidy).
  assert (Hp : p <> []) by (inversion Htidy as [|? ? [H _] _]; exact H).
  pose proof (joinWith_paragraphs [LF; LF] p qs Hp) as Ejoin.
  destruct (le_gt_dec (length t) (safeChunkSize this)) as [Hshort|Hlong].
  - exists (trim t), p, qs.
    split; [now apply chunk_short|]. repeat split; auto. lia.
  - exists (joinWith [LF; LF] (p :: map snd qs)), p, qs.
    split; [|split; [exact Eps|split; [exact Etrim|split; [exact Hsep|split]]]].
    + assert (Hlen : length (joinWith [LF; LF] (p :: map snd qs))
                     <= safeChunkSize this).
      { rewrite Ejoin. etransitivity; [now apply laidOut_shorter|].
        now rewrite <- Etrim. }
      assert (Hj : tidy (joinWith [LF; LF] (p :: map snd qs)))
        by (apply tidy_joinWith; [exact Htidy|discriminate]).
      unfold chunk.
      assert ((length (trim t) =? 0) = false) as ->.
      { apply Nat.eqb_neq. destruct (trim t); [congruence|simpl; lia]. }
      assert ((length t <=? safeChunkSize this) = false) as ->
        by (apply Nat.leb_gt; exact Hlong).
      cbv zeta. rewrite Eps.
      unfold joinWith in Hlen.
      change start with {| chunks := []; currentChunk := [] |}.
      rewrite (forOf_gathers fuel this (p :: map snd qs) [] Hlen).
      change (Some (filter (fun c => 0 <? length c)
                      (pushCurrent
                         {| chunks := [];
                            currentChunk := joinWith [LF; LF] (p :: map snd qs) |}))
              = Some [joinWith [LF; LF] (p :: map snd qs)]).
      unfold pushCurrent. cbn [currentChunk chunks].
      destruct Hj as [Hjne ->].
      destruct (joinWith [LF; LF] (p :: map snd qs)) as [|c j];
        [congruence|reflexivity].
    + now rewrite Eps.
    + rewrite Ejoin, Etrim. split.
      * intros E. right. inversion Htidy; subst.
        now apply (laidOut_only_same qs Hsep) with (p := p).
      * intros [Hshort|Hall]; [lia|now apply laidOut_same].
Qed.

Lemma chunk_short_text_witness :
  let t := SP :: lit "a" ++ [LF; LF] ++ lit "b" in
  trim t <> [] /\ length (trim t) <= safeChunkSize (new 5)
  /\ safeChunkSize (new 5) < length t
  /\ exists c p qs,
       chunk 0 (new 5) t = Some [c]
       /\ splitIntoParagraphs t = p :: map snd qs
       /\ trim t = laidOut p qs
       /\ separators qs
       /\ (safeChunkSize (new 5) < length t ->
           c = joinWith [LF; LF] (splitIntoParagraphs t))
       /\ (c = trim t
           <-> length t <= safeChunkSize (new 5)
               \/ Forall (fun sq => fst sq = [LF; LF]) qs).
Proof.
  intros t.
  assert (H1 : trim t <> []) by (vm_compute; discriminate).
  assert (H2 : length (trim t) <= safeChunkSize (new 5)) by (vm_compute; lia).
  assert (H3 : safeChunkSize (new 5) < length t) by (vm_compute; lia).
  split; [exact H1|]. split; [exact H2|]. split; [exact H3|].
  exact (chunk_short_text (new 5) 0 t H1 H2).
Defined.

End ShortText.

(* ================================================================= *)
(** ** Where sentences are divided *)

Module SentenceSpec.
Import JS JSFacts TextChunker ChunkerFacts ChunkerContent.

Lemma sentenceBoundary_ahead (before s : text) (n : nat) :
  sentenceBoundary before s = Some n -> beforeUpper (skipn n s) = true.
Proof.
  unfold sentenceBoundary. destruct (afterTerminator before); [|discriminate].
  destruct (spaces s) as [|k]; [discriminate|].
  destruct (beforeUpper (skipn (S k) s)) eqn:E; [|discriminate].
  now intros [= <-].
Qed.

Lemma beforeUpper_app (a b : text) :
  beforeUpper a = true -> beforeUpper (a ++ b) = true.
Proof. destruct a; [discriminate|auto]. Qed.

(** After a separator the piece opens with the capital the look-ahead
    saw. *)
Lemma splitLoop_opened (rest : text) :
  forall before piece skip,
    match piece with
    | [] => beforeUpper (skipn skip rest) = true
    | _ => skip = 0 /\ beforeUpper (rev piece) = true
    end ->
    Forall (fun s => beforeUpper s = true)
      (splitLoop sentenceBoundary before piece skip rest).
Proof.
  induction rest as [|c rest IH]; intros before piece skip H.
  - simpl. constructor; [|constructor].
    destruct piece; [now rewrite skipn_nil in H|tauto].
  - cbn [splitLoop]. destruct skip as [|k].
    + assert (Hpass : Forall (fun s => beforeUpper s = true)
                (splitLoop sentenceBoundary (c :: before) (c :: piece) 0 rest)).
      { apply IH. split; [reflexivity|]. simpl rev.
        destruct piece as [|d piece].
        - simpl in H. simpl. exact H.
        - apply beforeUpper_app. tauto. }
      destruct (sentenceBoundary before (c :: rest)) as [[|k]|] eqn:E;
        [exact Hpass| |exact Hpass].
      pose proof (sentenceBoundary_ahead _ _ _ E) as Hahead.
      apply inSpaces_sentenceBoundary, spaces_cons in E. destruct E as [Hc _].
      constructor.
      * destruct piece as [|d piece]; [|tauto].
        simpl in H. apply isUpper_not_space in H. congruence.
      * apply IH. exact Hahead.
    + destruct piece as [|d piece]; [|destruct H; discriminate].
      apply IH. exact H.
Qed.

Lemma split_opened (rest : text) :
  forall before piece,
    Forall (fun s => beforeUpper s = true)
      (tl (splitLoop sentenceBoundary before piece 0 rest)).
Proof.
  induction rest as [|c rest IH]; intros before piece; [constructor|].
  cbn [splitLoop].
  destruct (sentenceBoundary before (c :: rest)) as [[|k]|] eqn:E;
    [apply IH| |apply IH].
  simpl tl. apply splitLoop_opened.
  exact (sentenceBoundary_ahead _ _ _ E).
Qed.

Lemma trim_opened (s : text) :
  beforeUpper s = true -> beforeUpper (trim s) = true.
Proof.
  destruct s as [|c s]; [discriminate|]. simpl. intros Hc.
  pose proof (isUpper_not_space c Hc) as Hw.
  unfold trim, trimEnd. simpl trimStart. rewrite Hw. simpl rev.
  rewrite (trimStart_snoc _ c Hw), rev_app_distr. exact Hc.
Qed.

Lemma in_tl {A : Type} (x : A) (l : list A) : In x (tl l) -> In x l.
Proof. destruct l; simpl; auto. Qed.

Lemma splitIntoSentences_opened (t : text) :
  Forall (fun s => beforeUpper s = true) (tl (splitIntoSentences t)).
Proof.
  unfold splitIntoSentences, split.
  pose proof (split_opened t [] []) as H.
  destruct (splitLoop sentenceBoundary [] [] 0 t) as [|x l]; [constructor|].
  simpl tl in H. apply Forall_forall. intros s Hs.
  assert (Hin : In s (map trim l)).
  { simpl in Hs. destruct (0 <? length (trim x)); simpl in Hs.
    - apply filter_In in Hs. tauto.
    - apply in_tl in Hs. apply filter_In in Hs. tauto. }
  apply in_map_iff in Hin. destruct Hin as (s' & <- & Hs').
  rewrite Forall_forall in H. apply trim_opened. now apply H.
Qed.

(** C9, as stated, fails for a capital outside A to Z: after the period and
    the space of [Fin. ] the text goes on with the capital E with an acute
    accent (U+00C9), and it is not divided. *)
Lemma capital_beyond_Z_counterexample :
  let t := lit "Fin. " ++ 201%N :: lit "cole" in
  splitIntoSentences t = [t]
  /\ splitIntoSentences t
     <> splitIntoSentences (lit "Fin.")
        ++ splitIntoSentences (201%N :: lit "cole").
Proof. split; [reflexivity|discriminate]. Qed.

(** C9, amended: [splitIntoSentences] divides the text wherever a terminator
    is followed by white space and a capital from A to Z, and only before
    such a capital: every sentence after the first opens with one (a unit
    from 65 to 90).  So it does
    divide after the period of the abbreviation in a text with Dr. Smith;
    and a run without white space, as the number 3.14, stays within one
    sentence. *)
Theorem sentences_split_at_boundaries :
  (forall a p ws c s,
     isTerminator p = true -> ws <> [] -> blank ws -> isUpper c = true ->
     splitIntoSentences (a ++ p :: ws ++ c :: s)
     = splitIntoSentences (a ++ [p]) ++ splitIntoSentences (c :: s))
  /\ (forall t,
        Forall (fun s => exists c s', s = c :: s' /\ (65 <= c <= 90)%N)
          (tl (splitIntoSentences t)))
  /\ splitIntoSentences (lit "Call Dr. Smith now")
     = [lit "Call Dr."; lit "Smith now"]
  /\ (forall a d s, solid d -> d <> [] ->
        exists l1 x y l2,
          splitIntoSentences (a ++ d ++ s) = l1 ++ (x ++ d ++ y) :: l2).
Proof.
  split; [|split; [|split]].
  - intros a p ws c s Hp Hne Hws Hc. unfold splitIntoSentences.
    rewrite (split_boundary a p ws c s Hp Hne Hws Hc), map_app, filter_app.
    reflexivity.
  - intros t. eapply Forall_impl; [|apply splitIntoSentences_opened].
    intros [|c s'] H; [discriminate|].
    exists c, s'. split; [reflexivity|]. now apply isUpper_range.
  - reflexivity.
  - intros a d s Hd Hne.
    apply (units_keep sentenceBoundary needsSpace_sentenceBoundary
             inSpaces_sentenceBoundary a d s Hd Hne).
Qed.

Lemma sentences_split_at_boundaries_witness :
  (isTerminator 46%N = true /\ ([SP] : text) <> [] /\ blank [SP]
   /\ isUpper 83%N = true
   /\ splitIntoSentences (lit "Call Dr" ++ 46%N :: [SP] ++ 83%N :: lit "mith now")
      = splitIntoSentences (lit "Call Dr" ++ [46%N])
        ++ splitIntoSentences (83%N :: lit "mith now"))
  /\ (solid (lit "3.14") /\ lit "3.14" <> []
      /\ exists l1 x y l2,
           splitIntoSentences (lit "Pi is " ++ lit "3.14" ++ lit ". Next")
           = l1 ++ (x ++ lit "3.14" ++ y) :: l2).
Proof.
  assert (H1 : isTerminator 46%N = true) by reflexivity.
  assert (H2 : ([SP] : text) <> []) by discriminate.
  assert (H3 : blank [SP]) by (repeat constructor).
  assert (H4 : isUpper 83%N = true) by reflexivity.
  assert (H5 : solid (lit "3.14")) by (repeat constructor).
  assert (H6 : lit "3.14" <> []) by discriminate.
  split.
  - repeat (split; [assumption|]).
    exact (proj1 sentences_split_at_boundaries
             (lit "Call Dr") 46%N [SP] 83%N (lit "mith now") H1 H2 H3 H4).
  - repeat (split; [assumption|]).
    exact (proj2 (proj2 (proj2 sentences_split_at_boundaries))
             (lit "Pi is ") (lit "3.14") (lit ". Next") H5 H6).
Defined.

End SentenceSpec.

(* ================================================================= *)
(** ** What the providers do with a chunk before the request *)

Module Provider.
Import JS.

Definition CR : char := 13%N.

(** [.replace(/\r\n/g, '\n')] *)
Fixpoint lineEndings (s : text) : text :=
  match s with
  | [] => []
  | c :: r =>
      match r with
      | d :: r' =>
          if ((c =? CR) && (d =? LF))%N then LF :: lineEndings r'
          else c :: lineEndings r
      | [] => [c]
      end
  end.

(** What a run of [n] line feeds becomes under [/\n{3,}/g]. *)
Definition lineFeeds (n : nat) : text :=
  if 3 <=? n then [LF; LF] else repeat LF n.

(** [.replace(/\n{3,}/g, '\n\n')]; [pending] counts the line feeds of the
    run being read. *)
Fixpoint squeeze (pending : nat) (s : text) : text :=
  match s with
  | [] => lineFeeds pending
  | c :: r =>
      if (c =? LF)%N then squeeze (S pending) r
      else lineFeeds pending ++ c :: squeeze 0 r
  end.

(** [.replace(/[class]+/g, ' ')]: every longest run of units of the class
    becomes one space; [inRun] says that the unit before belongs to a run. *)
Fixpoint collapse (class : char -> bool) (inRun : bool) (s : text) : text :=
  match s with
  | [] => []
  | c :: r =>
      if class c then
        if inRun then collapse class true r else SP :: collapse class true r
      else c :: collapse class false r
  end.

(** [[^\S\r\n]]: white space other than the carriage return and the line
    feed. *)
Definition isBlank (c : char) : bool :=
  (isWhiteSpace c && negb (c =? CR) && negb (c =? LF))%N.

(** [sanitizeText(text)] *)
Definition sanitizeText (t : text) : text :=
  trim (collapse isBlank false
          (collapse isWhiteSpace false
             (squeeze 0 (lineEndings t)))).

(** The start of [generateSpeech] of the Hugging Face and DeepInfra
    providers: the text that is sent, or [None] when the call throws for a
    text that exceeds the maximum chunk size. *)
Definition sanitized (maxChunkSize : nat) (t : text) : option text :=
  let sanitizedText := sanitizeText t in
  if maxChunkSize <? length sanitizedText then None else Some sanitizedText.

(** The errors the Segmind provider throws before its request. *)
Inductive refusal :=
| KeyRequired     (* Segmind API key is required *)
| TextEmpty       (* Text cannot be empty *)
| TextTooLong     (* Text exceeds maximum length of 1500 characters *).

Definition maxCharacters : nat := 1500.

(** The start of [generateSpeech] of the Segmind provider: the [text] field
    of the payload, or the error thrown. *)
Definition segmindText (apiKey : string) (t : text) : refusal + text :=
  if (String.length apiKey =? 0) then inl KeyRequired
  else if length (trim t) =? 0 then inl TextEmpty
  else if maxCharacters <? length t then inl TextTooLong
  else inr (trim t).

End Provider.

Module ProviderExtra.
Import JS JSFacts TextChunker ChunkerFacts ChunkerContent ChunkerWords Provider.

Lemma lineEndings_pair (c d : char) (r : text) :
  lineEndings (c :: d :: r)
  = if ((c =? CR) && (d =? LF))%N then LF :: lineEndings r
    else c :: lineEndings (d :: r).
Proof. reflexivity. Qed.

Lemma lineEndings_length (s : text) : length (lineEndings s) <= length s.
Proof.
  assert (H : forall s, length (lineEndings s) <= length s
                        /\ forall c, length (lineEndings (c :: s)) <= S (length s)).
  { induction s0 as [|d r [IH1 IH2]]; [split; [simpl; lia|intros; simpl; lia]|].
    split; [apply IH2|].
    intros c. rewrite lineEndings_pair.
    destruct ((c =? CR) && (d =? LF))%N; cbn [length]; [lia|].
    specialize (IH2 d). lia. }
  apply H.
Qed.

Lemma lineFeeds_length (n : nat) : length (lineFeeds n) <= n.
Proof.
  unfold lineFeeds. destruct (3 <=? n) eqn:E.
  - apply Nat.leb_le in E. simpl. lia.
  - now rewrite repeat_length.
Qed.

Lemma squeeze_length (s : text) :
  forall pending, length (squeeze pending s) <= pending + length s.
Proof.
  induction s as [|c r IH]; intros pending; simpl.
  - pose proof (lineFeeds_length pending). lia.
  - destruct (c =? LF)%N.
    + specialize (IH (S pending)). lia.
    + rewrite length_app. simpl. specialize (IH 0).
      pose proof (lineFeeds_length pending). lia.
Qed.

Lemma collapse_length (class : char -> bool) (s : text) :
  forall inRun, length (collapse class inRun s) <= length s.
Proof.
  induction s as [|c r IH]; intros inRun; simpl; [lia|].
  destruct (class c); [destruct inRun|]; simpl;
    match goal with |- context [collapse class ?b r] => specialize (IH b) end; lia.
Qed.

Lemma sanitizeText_length (t : text) : length (sanitizeText t) <= length t.
Proof.
  unfold sanitizeText.
  etransitivity; [apply trim_length|].
  etransitivity; [apply collapse_length|].
  etransitivity; [apply collapse_length|].
  etransitivity; [apply squeeze_length|].
  apply lineEndings_length.
Qed.

(** *** The words are kept *)

Lemma CR_isWhiteSpace (c : char) : (c =? CR)%N = true -> isWhiteSpace c = true.
Proof. intros H. apply N.eqb_eq in H. now subst. Qed.

Lemma lineEndings_words (s : text) :
  forall run, wordsFrom run (lineEndings s) = wordsFrom run s.
Proof.
  assert (H : forall s,
             (forall run, wordsFrom run (lineEndings s) = wordsFrom run s)
             /\ forall c run,
                  wordsFrom run (lineEndings (c :: s)) = wordsFrom run (c :: s)).
  { induction s0 as [|d r [IH1 IH2]]; [split; reflexivity|].
    split; [intros run; apply IH2|].
    intros c run. rewrite lineEndings_pair.
    destruct ((c =? CR) && (d =? LF))%N eqn:E.
    - apply andb_true_iff in E. destruct E as [Hc Hd].
      apply CR_isWhiteSpace in Hc. apply LF_isWhiteSpace in Hd as Hd'.
      apply N.eqb_eq in Hd. subst d.
      cbn [wordsFrom]. rewrite Hc. change (isWhiteSpace LF) with true.
      cbv iota. rewrite IH1. destruct run; reflexivity.
    - cbn [wordsFrom].
      destruct (isWhiteSpace c); now rewrite (IH2 d). }
  apply H.
Qed.

Lemma lineFeeds_blank (n : nat) : blank (lineFeeds n).
Proof.
  unfold lineFeeds. destruct (3 <=? n); [repeat constructor|].
  induction n; simpl; constructor; auto.
Qed.

Lemma lineFeeds_nonempty (n : nat) : 0 < n -> lineFeeds n <> [].
Proof.
  unfold lineFeeds. destruct (3 <=? n); [discriminate|].
  destruct n; [lia|discriminate].
Qed.

Lemma squeeze_words (s : text) :
  forall pending run,
    wordsFrom run (squeeze pending s)
    = match pending with
      | 0 => wordsFrom run s
      | _ => emit run ++ words s
      end.
Proof.
  induction s as [|c r IH]; intros pending run.
  - simpl squeeze. destruct pending; [reflexivity|].
    rewrite <- (app_nil_r (lineFeeds (S pending))).
    rewrite wordsFrom_space;
      [reflexivity|apply lineFeeds_blank|apply lineFeeds_nonempty; lia].
  - simpl squeeze. destruct (c =? LF)%N eqn:Ec.
    + rewrite IH. apply LF_isWhiteSpace in Ec.
      destruct pending; unfold words; simpl; rewrite Ec; reflexivity.
    + assert (H0 : forall run0,
                wordsFrom run0 (c :: squeeze 0 r) = wordsFrom run0 (c :: r)).
      { intros run0. simpl. destruct (isWhiteSpace c); now rewrite IH. }
      destruct pending; [apply H0|].
      rewrite wordsFrom_space;
        [|apply lineFeeds_blank|apply lineFeeds_nonempty; lia].
      unfold words. now rewrite H0.
Qed.

Lemma collapse_words (class : char -> bool) :
  (forall c, class c = true -> isWhiteSpace c = true) ->
  forall s,
    (forall run, wordsFrom run (collapse class false s) = wordsFrom run s)
    /\ wordsFrom [] (collapse class true s) = wordsFrom [] s.
Proof.
  intros Hclass. induction s as [|c r [IH1 IH2]]; [split; reflexivity|].
  simpl. destruct (class c) eqn:E.
  - rewrite (Hclass c E). split.
    + intros run. simpl. now rewrite IH2.
    + now rewrite IH2.
  - split.
    + intros run. simpl. destruct (isWhiteSpace c); now rewrite IH1.
    + simpl. destruct (isWhiteSpace c); now rewrite IH1.
Qed.

Lemma sanitizeText_words (t : text) : words (sanitizeText t) = words t.
Proof.
  assert (Hblank : forall c, isBlank c = true -> isWhiteSpace c = true).
  { intros c H. unfold isBlank in H.
    apply andb_true_iff in H. destruct H as [H _].
    apply andb_true_iff in H. tauto. }
  unfold sanitizeText. rewrite words_trim. unfold words.
  rewrite (proj1 (collapse_words isBlank Hblank _)).
  rewrite (proj1 (collapse_words isWhiteSpace (fun c H => H) _)).
  rewrite (squeeze_words _ 0 []). apply lineEndings_words.
Qed.

(** *** Only spaces are left *)

(** Every white space unit of the text is a space. *)
Definition spacesOnly (s : text) : Prop :=
  Forall (fun c => isWhiteSpace c = true -> c = SP) s.

Lemma collapse_spacesOnly (s : text) :
  forall inRun, spacesOnly (collapse isWhiteSpace inRun s).
Proof.
  unfold spacesOnly. induction s as [|c r IH]; intros inRun; simpl; [constructor|].
  destruct (isWhiteSpace c) eqn:E.
  - destruct inRun; [apply IH|]. constructor; [reflexivity|apply IH].
  - constructor; [congruence|apply IH].
Qed.

Lemma collapse_keeps_spacesOnly (class : char -> bool) (s : text) :
  spacesOnly s -> forall inRun, spacesOnly (collapse class inRun s).
Proof.
  unfold spacesOnly. induction 1 as [|c r Hc _ IH]; intros inRun; simpl; [constructor|].
  destruct (class c).
  - destruct inRun; [apply IH|]. constructor; [reflexivity|apply IH].
  - constructor; [exact Hc|apply IH].
Qed.

Lemma trimStart_spacesOnly (s : text) : spacesOnly s -> spacesOnly (trimStart s).
Proof.
  unfold spacesOnly. induction 1 as [|c r Hc Hr IH]; simpl; [constructor|].
  destruct (isWhiteSpace c) eqn:E; [exact IH|].
  constructor; [congruence|exact Hr].
Qed.

Lemma trim_spacesOnly (s : text) : spacesOnly s -> spacesOnly (trim s).
Proof.
  intros H. unfold trim, trimEnd. apply Forall_rev.
  apply trimStart_spacesOnly, Forall_rev. now apply trimStart_spacesOnly.
Qed.

(** X17: [sanitizeText] never makes a text longer, keeps its words as they
    are and in order, and leaves no white space but spaces (no line feed
    reaches the request), with none at either end. *)
Theorem sanitizeText_normalises (t : text) :
  length (sanitizeText t) <= length t
  /\ words (sanitizeText t) = words t
  /\ Forall (fun c => isWhiteSpace c = true -> c = SP) (sanitizeText t)
  /\ trim (sanitizeText t) = sanitizeText t.
Proof.
  split; [apply sanitizeText_length|]. split; [apply sanitizeText_words|].
  split; [|apply trim_idem].
  unfold sanitizeText. apply trim_spacesOnly, collapse_keeps_spacesOnly.
  apply collapse_spacesOnly.
Qed.

(** X18: with the [maxChunkSize] the chunker was built with, a provider
    refuses none of the chunks: the Hugging Face and DeepInfra providers
    send each chunk sanitized, and the Segmind provider, given a key and a
    [maxChunkSize] of at most 1500, sends each chunk as it is. *)
Theorem chunks_are_accepted (m : nat) (t : text) (cs : list text)
    (apiKey : string) :
  0 < m -> returns (new m) t cs ->
  Forall (fun c => sanitized m c = Some (sanitizeText c)) cs
  /\ (apiKey <> ""%string -> m <= maxCharacters ->
      Forall (fun c => segmindText apiKey c = inr c) cs).
Proof.
  intros Hm [fuel E].
  pose proof (chunk_within m fuel (new m) t cs (safe_lt_max m Hm) E) as Hin.
  pose proof (chunk_tidy fuel (new m) t cs E) as Htidy.
  unfold within in Hin. rewrite Forall_forall in Hin, Htidy. split.
  - apply Forall_forall. intros c Hc. unfold sanitized.
    pose proof (sanitizeText_length c). specialize (Hin c Hc).
    assert ((m <? length (sanitizeText c)) = false) as ->
      by (apply Nat.ltb_ge; lia).
    reflexivity.
  - intros Hkey Hmax. apply Forall_forall. intros c Hc.
    destruct (Htidy c Hc) as [Hne Htrim]. specialize (Hin c Hc).
    unfold segmindText.
    destruct apiKey as [|a k]; [congruence|]. simpl String.length. simpl Nat.eqb.
    cbv iota. rewrite Htrim.
    assert ((length c =? 0) = false) as ->
      by (apply Nat.eqb_neq; destruct c; [congruence|simpl; lia]).
    assert ((maxCharacters <? length c) = false) as ->
      by (apply Nat.ltb_ge; lia).
    reflexivity.
Qed.

Lemma chunks_are_accepted_witness :
  0 < 12
  /\ returns (new 12) ChunkerExtra.sample
       [lit "One two."; lit "Three four."; lit "Five six."]
  /\ Forall (fun c => sanitized 12 c = Some (sanitizeText c))
       [lit "One two."; lit "Three four."; lit "Five six."]
  /\ ("key"%string <> ""%string /\ 12 <= maxCharacters
      /\ Forall (fun c => segmindText "key" c = inr c)
           [lit "One two."; lit "Three four."; lit "Five six."]).
Proof.
  assert (H1 : 0 < 12) by lia.
  assert (H2 : "key"%string <> ""%string) by discriminate.
  assert (H3 : 12 <= maxCharacters) by (unfold maxCharacters; lia).
  destruct (chunks_are_accepted 12 ChunkerExtra.sample _ "key" H1
              ChunkerExtra.sample_returns) as [Ha Hb].
  split; [exact H1|]. split; [exact ChunkerExtra.sample_returns|].
  split; [exact Ha|]. split; [exact H2|]. split; [exact H3|].
  exact (Hb H2 H3).
Defined.

End ProviderExtra.
